(** * LyX hotkey plugin: binding compiler and key-sequence engine

    A shallow embedding of [src/parser.js] (class [LyXParser]) and
    [src/hotkeyManager.js] (class [HotkeyManager]), with the properties
    of the design document checked against it. *)

From Stdlib Require Import NArith ZArith Ascii String DecimalString.
From stdpp Require Import base list gmap.

Set Warnings "-register-all".

Local Open Scope N_scope.

(** ** JavaScript strings

    A JavaScript string is a sequence of UTF-16 code units; a code unit
    is modelled as an [N] (below 65536 in every string of the program).
    ASCII literals are written [js "..."], other characters by their
    code unit. *)

Abbreviation jsstring := (list N).

Definition js (s : string) : jsstring :=
  N_of_ascii <$> list_ascii_of_string s.

Definition SPACE : N := 32.
Definition QUOTE : N := 34.
Definition LF : N := 10.

(** [a === b] on strings. *)
Fixpoint str_eqb (a b : jsstring) : bool :=
  match a, b with
  | [], [] => true
  | c :: a', d :: b' => (c =? d) && str_eqb a' b'
  | _, _ => false
  end.

(** [s.startsWith(p)]. *)
Fixpoint startsWith (s p : jsstring) {struct p} : bool :=
  match p, s with
  | [], _ => true
  | c :: p', d :: s' => (d =? c) && startsWith s' p'
  | _ :: _, [] => false
  end.

(** [s.includes(p)]. *)
Fixpoint includes (s p : jsstring) : bool :=
  startsWith s p ||
  match s with
  | [] => false
  | _ :: s' => includes s' p
  end.

(** The pieces of [s] between the characters that satisfy [isSep]. *)
Fixpoint splitWhere (isSep : N -> bool) (s : jsstring) : list jsstring :=
  match s with
  | [] => [[]]
  | c :: s' =>
      if isSep c then [] :: splitWhere isSep s'
      else match splitWhere isSep s' with
           | w :: ws => (c :: w) :: ws
           | [] => [[c]]
           end
  end.

(** [s.split(sep)] for a separator of one character. *)
Definition split (sep : N) (s : jsstring) : list jsstring :=
  splitWhere (fun c => c =? sep) s.

(** [parts.join(sep)]. *)
Fixpoint join (sep : jsstring) (parts : list jsstring) : jsstring :=
  match parts with
  | [] => []
  | [w] => w
  | w :: ws => w ++ sep ++ join sep ws
  end.

(** The characters of [\s] in a regular expression, which are also the
    ones [trim] removes: WhiteSpace and LineTerminator of ECMAScript. *)
Definition isWhiteSpace (c : N) : bool :=
  ((9 <=? c) && (c <=? 13)) || (c =? 32) || (c =? 160) || (c =? 5760)
  || ((8192 <=? c) && (c <=? 8202)) || (c =? 8232) || (c =? 8233)
  || (c =? 8239) || (c =? 8287) || (c =? 12288) || (c =? 65279).

Fixpoint trimStart (s : jsstring) : jsstring :=
  match s with
  | c :: s' => if isWhiteSpace c then trimStart s' else s
  | [] => []
  end.

Definition trimEnd (s : jsstring) : jsstring :=
  reverse (trimStart (reverse s)).

(** [s.trim()]. *)
Definition trim (s : jsstring) : jsstring := trimEnd (trimStart s).

(** [s.replace(/pat/g, rep)] for a regular expression [pat] that is a
    non-empty literal and a replacement without [$]: every match,
    leftmost first and without overlap, is replaced.  [skip] counts the
    characters of the current match that are still to be passed over. *)
Fixpoint replaceAll_from (skip : nat) (pat rep s : jsstring) : jsstring :=
  match s with
  | [] => []
  | c :: s' =>
      match skip with
      | S k => replaceAll_from k pat rep s'
      | O =>
          if startsWith s pat
          then rep ++ replaceAll_from (length pat - 1) pat rep s'
          else c :: replaceAll_from 0 pat rep s'
      end
  end.

Definition replaceAll (pat rep s : jsstring) : jsstring :=
  replaceAll_from 0 pat rep s.

(** [s.replace(pat, rep)] for a string [pat]: only the first occurrence
    is replaced. *)
Fixpoint replaceFirst (pat rep s : jsstring) : jsstring :=
  if startsWith s pat then rep ++ drop (length pat) s
  else match s with
       | [] => []
       | c :: s' => c :: replaceFirst pat rep s'
       end.

(** The decimal rendering of a number inside a template string. *)
Definition decimal (n : nat) : jsstring :=
  js (NilEmpty.string_of_uint (Nat.to_uint n)).

(** ** Data model of the parser *)

(** The value of [action.text].  It is a string except when
    [convertLaTeXSymbol] finds the symbol among the members that the
    object literal [symbolMap] inherits from [Object.prototype]. *)
Inductive JsText :=
  | Str (s : jsstring)
  | Inherited (name : jsstring).

(** [{type: 'insert', text}] or [{type: 'command', command}]. *)
Inductive Action :=
  | Insert (text : JsText)
  | Command (command : jsstring).

Record Binding := mkBinding {
  keySequence : jsstring;
  originalKeySequence : jsstring;
  command : jsstring;
  action : Action
}.

(** A [Map] from strings: entries in insertion order, keys unique. *)
Abbreviation JsMap V := (list (jsstring * V)).

Fixpoint map_get {V} (k : jsstring) (m : JsMap V) : option V :=
  match m with
  | [] => None
  | (k', v) :: m' => if str_eqb k' k then Some v else map_get k m'
  end.

(** [m.set(k, v)]: an existing key keeps its position. *)
Fixpoint map_set {V} (k : jsstring) (v : V) (m : JsMap V) : JsMap V :=
  match m with
  | [] => [(k, v)]
  | (k', v') :: m' =>
      if str_eqb k' k then (k, v) :: m' else (k', v') :: map_set k v m'
  end.

Definition map_keys {V} (m : JsMap V) : list jsstring := fst <$> m.

(** Calls of the logger, in order. *)
Inductive Level := LDebug | LInfo | LWarn | LError.

Record LogEntry := mkLog { level : Level; message : jsstring }.

(** ** [LyXParser] *)

Module LyXParser.

(** [normalizeKeySequence], lines 78-110. *)
Definition normalizeModifiers (keySequence : jsstring) : jsstring :=
  replaceAll (js "A-") (js "Alt+")
    (replaceAll (js "S-") (js "Shift+")
      (replaceAll (js "C-") (js "Ctrl+")
        (replaceAll (js "M-") (js "Alt+") keySequence))).

Definition specialKeys : list (jsstring * jsstring) :=
  [ (js "space", js "Space"); (js "Return", js "Enter");
    (js "BackSpace", js "Backspace"); (js "Delete", js "Delete");
    (js "Tab", js "Tab"); (js "Escape", js "Escape");
    (js "Up", js "ArrowUp"); (js "Down", js "ArrowDown");
    (js "Left", js "ArrowLeft"); (js "Right", js "ArrowRight");
    (js "Prior", js "PageUp"); (js "Next", js "PageDown");
    (js "Home", js "Home"); (js "End", js "End") ].

Definition normalizeSpecialKeys (normalized : jsstring) : jsstring :=
  foldl (fun s '(pat, rep) => replaceAll pat rep s) normalized specialKeys.

Definition stripNegated (normalized : jsstring) : jsstring :=
  replaceAll (js "~M-") []
    (replaceAll (js "~C-") []
      (replaceAll (js "~S-") [] normalized)).

Definition normalizeKeySequence (keySequence : jsstring) : jsstring :=
  stripNegated (normalizeSpecialKeys (normalizeModifiers keySequence)).

(** [convertLaTeXSymbol], lines 172-219. *)
Definition symbolMap : list (jsstring * jsstring) :=
  [ (js "\alpha", [945]); (js "\beta", [946]); (js "\gamma", [947]);
    (js "\delta", [948]); (js "\epsilon", [949]); (js "\zeta", [950]);
    (js "\eta", [951]); (js "\theta", [952]); (js "\iota", [953]);
    (js "\kappa", [954]); (js "\lambda", [955]); (js "\mu", [956]);
    (js "\nu", [957]); (js "\xi", [958]); (js "\pi", [960]);
    (js "\rho", [961]); (js "\sigma", [963]); (js "\tau", [964]);
    (js "\upsilon", [965]); (js "\phi", [966]); (js "\chi", [967]);
    (js "\psi", [968]); (js "\omega", [969]); (js "\sum", [8721]);
    (js "\int", [8747]); (js "\infty", [8734]); (js "\pm", [177]);
    (js "\neq", [8800]); (js "\leq", [8804]); (js "\geq", [8805]) ].

(** The names an object literal inherits from [Object.prototype]; the
    value found under each of them is truthy. *)
Definition objectPrototypeNames : list jsstring :=
  [ js "constructor"; js "__defineGetter__"; js "__defineSetter__";
    js "hasOwnProperty"; js "__lookupGetter__"; js "__lookupSetter__";
    js "isPrototypeOf"; js "propertyIsEnumerable"; js "toString";
    js "valueOf"; js "__proto__"; js "toLocaleString" ].

Definition convertLaTeXSymbol (symbol : jsstring) : JsText :=
  if str_eqb symbol (js "\frac") then Str (js "\frac{}{}")
  else if str_eqb symbol (js "\sqrt") then Str (js "\sqrt{}")
  else match map_get symbol symbolMap with
       | Some u => Str u
       | None =>
           if existsb (str_eqb symbol) objectPrototypeNames
           then Inherited symbol
           else Str symbol
       end.

(** [extractInsertText], lines 226-230. *)
Definition extractInsertText (command : jsstring) : jsstring :=
  join [SPACE] (drop 1 (split SPACE command)).

(** [handleQuoteInsert], lines 237-245. *)
Definition handleQuoteInsert (command : jsstring) : jsstring :=
  if includes command (js "inner") then [QUOTE]
  else if includes command (js "outer") then [QUOTE]
  else [QUOTE].

(** [handleSpecialChar], lines 252-269. *)
Definition handleSpecialChar (command : jsstring) : jsstring :=
  if includes command (js "hyphenation") then [173]
  else if includes command (js "nobreakdash") then [8209]
  else if includes command (js "ligature-break") then [8204]
  else if includes command (js "end-of-sentence") then js "."
  else if includes command (js "dots") then [8230]
  else [].

(** [parseCommand], lines 117-165. *)
Definition parseCommand (command : jsstring) : Action :=
  if startsWith command (js "math-insert") then
    let symbol := trim (replaceFirst (js "math-insert ") [] command) in
    Insert (convertLaTeXSymbol symbol)
  else if includes command (js "insert") then
    Insert (Str (extractInsertText command))
  else if startsWith command (js "self-insert") then
    let text := trim (replaceFirst (js "self-insert ") [] command) in
    Insert (Str text)
  else if startsWith command (js "quote-insert") then
    Insert (Str (handleQuoteInsert command))
  else if startsWith command (js "specialchar-insert") then
    Insert (Str (handleSpecialChar command))
  else Command command.

(** The regular expression of [parseBindLine],
    [/\\bind\s+QUOTE([^QUOTE]+)QUOTE\s+QUOTE([^QUOTE]+)QUOTE/].  Both
    repetitions are followed by a character outside their class, so the
    greedy match is the only one at a given start. *)
Fixpoint span (f : N -> bool) (s : jsstring) : jsstring * jsstring :=
  match s with
  | c :: s' =>
      if f c then let '(run, rest) := span f s' in (c :: run, rest)
      else ([], s)
  | [] => ([], [])
  end.

Fixpoint stripPrefix (p s : jsstring) : option jsstring :=
  match p, s with
  | [], _ => Some s
  | c :: p', d :: s' => if d =? c then stripPrefix p' s' else None
  | _ :: _, [] => None
  end.

(** [\s+] *)
Definition whiteSpaces (s : jsstring) : option jsstring :=
  match span isWhiteSpace s with
  | ([], _) => None
  | (_, rest) => Some rest
  end.

(** [QUOTE([^QUOTE]+)QUOTE] *)
Definition quotedField (s : jsstring) : option (jsstring * jsstring) :=
  s1 ← stripPrefix [QUOTE] s;
  match span (fun c => negb (c =? QUOTE)) s1 with
  | ([], _) => None
  | (field, s2) => s3 ← stripPrefix [QUOTE] s2; Some (field, s3)
  end.

Definition bindRegex_at (s : jsstring) : option (jsstring * jsstring) :=
  s1 ← stripPrefix (js "\bind") s;
  s2 ← whiteSpaces s1;
  '(keySequence, s3) ← quotedField s2;
  s4 ← whiteSpaces s3;
  '(command, _) ← quotedField s4;
  Some (keySequence, command).

(** [line.match(bindRegex)]: the match at the leftmost start. *)
Fixpoint bindRegex (line : jsstring) : option (jsstring * jsstring) :=
  match bindRegex_at line with
  | Some groups => Some groups
  | None =>
      match line with
      | [] => None
      | _ :: line' => bindRegex line'
      end
  end.

(** How a call ends: with a value, or with an exception thrown. *)
Inductive Completion (A : Type) :=
  | Normal (a : A)
  | Throw.
Arguments Normal {A} a.
Arguments Throw {A}.

(** [parseBindLine], lines 53-71: the logger calls and the result
    ([None] for [null]). *)
Definition parseBindLine (line : jsstring)
  : list LogEntry * Completion (option Binding) :=
  match bindRegex line with
  | None =>
      ([mkLog LWarn (js "Invalid bind line format: " ++ line)], Normal None)
  | Some (keySequence, command) =>
      ([], Normal (Some {|
         keySequence := normalizeKeySequence keySequence;
         originalKeySequence := keySequence;
         command := command;
         action := parseCommand command |}))
  end.

(** One turn of the loop of [parse], lines 21-42; [lineNumber] is the
    counter after its increment. *)
Definition parseLine (lineNumber : nat) (line : jsstring)
  (bindings : JsMap Binding) : JsMap Binding * list LogEntry :=
  let trimmed := trim line in
  if str_eqb trimmed [] || startsWith trimmed (js "#") then (bindings, [])
  else if startsWith trimmed (js "\bind") then
    match parseBindLine trimmed with
    | (logs, Normal (Some binding)) =>
        (map_set (keySequence binding) binding bindings,
         logs ++ [mkLog LDebug (js "Parsed binding: " ++ keySequence binding
                                ++ js " -> " ++ command binding)])
    | (logs, Normal None) => (bindings, logs)
    | (logs, Throw) =>
        (bindings,
         logs ++ [mkLog LWarn (js "Failed to parse line " ++ decimal lineNumber
                               ++ js ": " ++ trimmed)])
    end
  else (bindings, []).

Fixpoint parseLines (lineNumber : nat) (lines : list jsstring)
  (bindings : JsMap Binding) : JsMap Binding * list LogEntry :=
  match lines with
  | [] => (bindings, [])
  | line :: lines' =>
      let '(bindings1, logs1) := parseLine (S lineNumber) line bindings in
      let '(bindings2, logs2) := parseLines (S lineNumber) lines' bindings1 in
      (bindings2, logs1 ++ logs2)
  end.

(** [parse], lines 16-46: the table returned and the logger calls. *)
Definition parse (content : jsstring) : JsMap Binding * list LogEntry :=
  let '(bindings, logs) := parseLines 0 (split LF content) [] in
  (bindings,
   logs ++ [mkLog LInfo (js "Parsed " ++ decimal (length bindings)
                         ++ js " key bindings from LyX file")]).

(** A plain object whose values are bindings: its own properties in
    creation order and its prototype, [None] for [Object.prototype]. *)
Record JsObject := mkObject {
  ownProps : JsMap Binding;
  prototype : option Binding
}.

(** [{}] *)
Definition emptyObject : JsObject := {| ownProps := []; prototype := None |}.

(** [o[key] = value] for an object [value].  The name [__proto__] is
    the accessor inherited from [Object.prototype]: its setter changes
    the prototype and creates no own property. *)
Definition object_assign (key : jsstring) (value : Binding) (o : JsObject)
  : JsObject :=
  if str_eqb key (js "__proto__")
  then {| ownProps := ownProps o; prototype := Some value |}
  else {| ownProps := map_set key value (ownProps o);
          prototype := prototype o |}.

(** The array index a property name denotes: a canonical decimal
    numeral of at most 2^32 - 2. *)
Definition digitValue (c : N) : option N :=
  if (48 <=? c) && (c <=? 57) then Some (c - 48) else None.

Fixpoint numeral (acc : N) (s : jsstring) : option N :=
  match s with
  | [] => Some acc
  | c :: s' => d ← digitValue c; numeral (10 * acc + d) s'
  end.

Definition arrayIndex (key : jsstring) : option N :=
  match key with
  | [] => None
  | [48] => Some 0
  | 48 :: _ => None
  | _ => n ← numeral 0 key; if n <=? 4294967294 then Some n else None
  end.

Fixpoint insertByIndex (e : N * (jsstring * Binding))
  (l : list (N * (jsstring * Binding))) : list (N * (jsstring * Binding)) :=
  match l with
  | [] => [e]
  | e' :: l' => if fst e <=? fst e' then e :: l else e' :: insertByIndex e l'
  end.

(** [Object.entries(o)]: the own properties, array indices first in
    ascending order, then the other names in creation order. *)
Definition entries (o : JsObject) : JsMap Binding :=
  let indexed :=
    omap (fun e => i ← arrayIndex (fst e); Some (i, e)) (ownProps o) in
  (snd <$> foldr insertByIndex [] indexed)
  ++ List.filter (fun e => bool_decide (arrayIndex (fst e) = None)) (ownProps o).

(** [exportBindings], lines 292-298, on the table [this.bindings]. *)
Definition exportBindings (bindings : JsMap Binding) : JsObject :=
  foldl (fun exported '(key, value) => object_assign key value exported)
        emptyObject bindings.

(** [importBindings], lines 304-310: the new [this.bindings] and the
    logger call. *)
Definition importBindings (exported : JsObject)
  : JsMap Binding * list LogEntry :=
  let bindings :=
    foldl (fun m '(key, value) => map_set key value m) [] (entries exported) in
  (bindings,
   [mkLog LInfo (js "Imported " ++ decimal (length bindings)
                 ++ js " key bindings")]).

(** [getBinding], lines 284-286; [None] for [null].  A binding is an
    object, so [|| null] only replaces [undefined]. *)
Definition getBinding (keySequence : jsstring) (bindings : JsMap Binding)
  : option Binding :=
  map_get keySequence bindings.

End LyXParser.

(** ** [HotkeyManager] *)

Module HotkeyManager.

(** What [isEditableContext] reads of a DOM element. *)
Inductive Element :=
  mkElement (tagName contentEditable : jsstring)
            (parentElement : option Element).

(** A [keydown] event; the DOM gives every dispatched event a target. *)
Record KeyboardEvent := mkEvent {
  ctrlKey : bool;
  altKey : bool;
  shiftKey : bool;
  metaKey : bool;
  key : jsstring;
  target : Element
}.

(** A number of JavaScript as the manager meets it: a whole number of
    milliseconds, or [NaN], the number that is none. *)
Inductive JsNumber :=
  | Num (z : Z)
  | NaN.

(** What a caller passes where a number is expected, as far as
    arithmetic tells values apart: [undefined], or the number the value
    converts to ([NaN] for a value that converts to none). *)
Inductive JsValue :=
  | Number (n : JsNumber)
  | Undefined.

(** The conversion that arithmetic applies to an operand. *)
Definition toNumber (v : JsValue) : JsNumber :=
  match v with
  | Number n => n
  | Undefined => NaN
  end.

(** [Math.min(a, b)] and [Math.max(a, b)]: [NaN] when either operand
    is. *)
Definition math_min (a b : JsNumber) : JsNumber :=
  match a, b with
  | Num x, Num y => Num (Z.min x y)
  | _, _ => NaN
  end.

Definition math_max (a b : JsNumber) : JsNumber :=
  match a, b with
  | Num x, Num y => Num (Z.max x y)
  | _, _ => NaN
  end.

(** The fields of a [HotkeyManager].  [conflicts] is a [Set] of strings,
    in insertion order; [timeoutId] is [None] for [null]. *)
Record Manager := mkManager {
  bindings : JsMap Binding;
  currentSequence : list jsstring;
  sequenceTimeout : JsNumber;
  timeoutId : option positive;
  enabled : bool;
  conflicts : list jsstring
}.

(** The manager of a page together with the scheduler of the host: the
    callbacks armed with [setTimeout] and not yet run or cleared, each
    with its handle and delay, and the next handle to hand out. *)
Record Page := mkPage {
  this : Manager;
  timers : list (positive * JsNumber);
  nextTimer : positive
}.

(** [window.LyXInserter]: absent, or present with an [insertText] that
    may throw. *)
Inductive Inserter :=
  | Absent
  | Present (throws : JsText -> Element -> bool).

(** What a handler does to its collaborators.  [InsertText] is a call of
    [window.LyXInserter.insertText] and records the manager as it is
    when the call is made. *)
Inductive Effect :=
  | Log (entry : LogEntry)
  | InsertText (text : JsText) (target : Element) (during : Manager)
  | PreventDefault
  | StopPropagation.

Definition decimalZ (z : Z) : jsstring :=
  js (NilEmpty.string_of_int (Z.to_int z)).

(** A number inside a template string. *)
Definition numberText (n : JsNumber) : jsstring :=
  match n with
  | Num z => decimalZ z
  | NaN => js "NaN"
  end.

(** The constructor, lines 6-21.  The settings it asks for arrive
    later, see [loadSettings]. *)
Definition new : Page :=
  {| this := {| bindings := []; currentSequence := [];
                sequenceTimeout := Num 1500; timeoutId := None;
                enabled := true; conflicts := [] |};
     timers := []; nextTimer := 1%positive |}.

Definition set_this (f : Manager -> Manager) (p : Page) : Page :=
  {| this := f (this p); timers := timers p; nextTimer := nextTimer p |}.

(** [clearTimeout(id)] *)
Definition clearTimeout (id : positive) (p : Page) : Page :=
  {| this := this p;
     timers := List.filter (fun t => negb (Pos.eqb (fst t) id)) (timers p);
     nextTimer := nextTimer p |}.

(** [clearSequenceTimeout], lines 258-263. *)
Definition clearSequenceTimeout (p : Page) : Page :=
  match timeoutId (this p) with
  | Some id =>
      set_this (fun m => {| bindings := bindings m;
                            currentSequence := currentSequence m;
                            sequenceTimeout := sequenceTimeout m;
                            timeoutId := None;
                            enabled := enabled m;
                            conflicts := conflicts m |})
               (clearTimeout id p)
  | None => p
  end.

(** [resetSequence], lines 268-272. *)
Definition resetSequence (p : Page) : Page * list Effect :=
  let p1 := set_this (fun m => {| bindings := bindings m;
                                  currentSequence := [];
                                  sequenceTimeout := sequenceTimeout m;
                                  timeoutId := timeoutId m;
                                  enabled := enabled m;
                                  conflicts := conflicts m |}) p in
  (clearSequenceTimeout p1, [Log (mkLog LDebug (js "Sequence reset"))]).

(** [startSequenceTimeout], lines 247-253: the callback is armed under
    a new handle with the delay [sequenceTimeout] has now. *)
Definition startSequenceTimeout (p : Page) : Page :=
  let p1 := clearSequenceTimeout p in
  let id := nextTimer p1 in
  {| this := {| bindings := bindings (this p1);
                currentSequence := currentSequence (this p1);
                sequenceTimeout := sequenceTimeout (this p1);
                timeoutId := Some id;
                enabled := enabled (this p1);
                conflicts := conflicts (this p1) |};
     timers := timers p1 ++ [(id, sequenceTimeout (this p1))];
     nextTimer := Pos.succ id |}.

(** The callback armed by [startSequenceTimeout] runs under handle
    [id]; [None] when no such callback is armed. *)
Definition timeoutFires (id : positive) (p : Page)
  : option (Page * list Effect) :=
  if existsb (fun t => Pos.eqb (fst t) id) (timers p) then
    let p1 := clearTimeout id p in
    let '(p2, fx) := resetSequence p1 in
    Some (p2,
          Log (mkLog LDebug
                 (js "Sequence timeout after "
                  ++ numberText (sequenceTimeout (this p1)) ++ js "ms: "
                  ++ join [SPACE] (currentSequence (this p1)))) :: fx)
  else None.

(** [hasConflict], lines 109-122. *)
Definition hasConflict (seq1 seq2 : jsstring) : bool :=
  let parts1 := split SPACE seq1 in
  let parts2 := split SPACE seq2 in
  let minLength := Nat.min (length parts1) (length parts2) in
  if forallb (fun i => match parts1 !! i, parts2 !! i with
                       | Some a, Some b => str_eqb a b
                       | _, _ => true
                       end) (seq 0 minLength)
  then negb (Nat.eqb (length parts1) (length parts2))
  else false.

(** The pairs [(seq1, seq2)] for which the loops of [detectConflicts]
    find a conflict, in the order they are met. *)
Fixpoint conflictPairs (sequences : list jsstring)
  : list (jsstring * jsstring) :=
  match sequences with
  | [] => []
  | seq1 :: rest =>
      ((fun seq2 => (seq1, seq2)) <$> List.filter (hasConflict seq1) rest)
      ++ conflictPairs rest
  end.

Definition describeConflict (c : jsstring * jsstring) : jsstring :=
  fst c ++ js " <-> " ++ snd c.

(** [set.add(x)] on a [Set] of strings. *)
Definition set_add (x : jsstring) (s : list jsstring) : list jsstring :=
  if existsb (str_eqb x) s then s else s ++ [x].

(** [detectConflicts], lines 82-101: the new [conflicts] and the logger
    calls. *)
Definition detectConflicts (m : Manager) : Manager * list Effect :=
  let found := conflictPairs (map_keys (bindings m)) in
  let conflicts' := foldl (fun s c => set_add (describeConflict c) s) [] found in
  ({| bindings := bindings m; currentSequence := currentSequence m;
      sequenceTimeout := sequenceTimeout m; timeoutId := timeoutId m;
      enabled := enabled m; conflicts := conflicts' |},
   ((fun c => Log (mkLog LWarn (js "Hotkey conflict detected: " ++ fst c
                                ++ js " conflicts with " ++ snd c))) <$> found)
   ++ (if Nat.ltb 0 (length conflicts')
       then [Log (mkLog LWarn (js "Found " ++ decimal (length conflicts')
                               ++ js " hotkey conflicts"))]
       else [])).

(** [loadBindings], lines 73-77; [new Map(bindings)] copies the pairs. *)
Definition loadBindings (table : JsMap Binding) (p : Page)
  : Page * list Effect :=
  let copy := foldl (fun m '(k, v) => map_set k v m) [] table in
  let m := this p in
  let '(m', fx) :=
    detectConflicts {| bindings := copy; currentSequence := currentSequence m;
                       sequenceTimeout := sequenceTimeout m;
                       timeoutId := timeoutId m; enabled := enabled m;
                       conflicts := conflicts m |} in
  ({| this := m'; timers := timers p; nextTimer := nextTimer p |},
   fx ++ [Log (mkLog LInfo (js "Loaded " ++ decimal (length copy)
                            ++ js " key bindings"))]).

(** [setSequenceTimeout], lines 48-52.  The argument is whatever the
    caller passes: [content.js] passes the new value of a changed
    setting, which is [undefined] when the setting was removed. *)
Definition setSequenceTimeout (timeout : JsValue) (p : Page)
  : Page * list Effect :=
  let t := math_max (Num 500) (math_min (Num 5000) (toNumber timeout)) in
  (set_this (fun m => {| bindings := bindings m;
                         currentSequence := currentSequence m;
                         sequenceTimeout := t; timeoutId := timeoutId m;
                         enabled := enabled m; conflicts := conflicts m |}) p,
   [Log (mkLog LInfo (js "Sequence timeout set to " ++ numberText t
                      ++ js "ms"))]).

(** [setEnabled], lines 58-67. *)
Definition setEnabled (enabled' : bool) (p : Page) : Page * list Effect :=
  let p1 := set_this (fun m => {| bindings := bindings m;
                                  currentSequence := currentSequence m;
                                  sequenceTimeout := sequenceTimeout m;
                                  timeoutId := timeoutId m;
                                  enabled := enabled';
                                  conflicts := conflicts m |}) p in
  let '(p2, fx) := if enabled' then (p1, []) else resetSequence p1 in
  (p2, fx ++ [Log (mkLog LInfo (js "Hotkey processing "
                                ++ (if enabled' then js "enabled"
                                    else js "disabled")))]).

(** [loadSettings], lines 23-31, once the stored values have arrived:
    [None] for a value that is not stored. *)
Definition loadSettings (storedTimeout : option Z) (storedEnabled : option bool)
  (p : Page) : Page :=
  set_this (fun m => {| bindings := bindings m;
                        currentSequence := currentSequence m;
                        sequenceTimeout :=
                          match storedTimeout with
                          | Some t => Num (if Z.eqb t 0 then 1500 else t)
                          | None => Num 1500
                          end;
                        timeoutId := timeoutId m;
                        enabled := match storedEnabled with
                                   | Some false => false
                                   | _ => true
                                   end;
                        conflicts := conflicts m |}) p.

(** [stopListening], lines 135-139. *)
Definition stopListening (p : Page) : Page * list Effect :=
  let '(p1, fx) := resetSequence p in
  (p1, fx ++ [Log (mkLog LDebug (js "Stopped listening for key events"))]).

(** [isEditableContext], lines 279-302, for a target that is there. *)
Definition isEditableElement (e : Element) : bool :=
  match e with
  | mkElement tagName contentEditable _ =>
      str_eqb tagName (js "INPUT") || str_eqb tagName (js "TEXTAREA")
      || str_eqb contentEditable (js "true")
  end.

Fixpoint insideContentEditable (e : Element) : bool :=
  match e with
  | mkElement _ _ None => false
  | mkElement _ _ (Some (mkElement _ contentEditable _ as parent)) =>
      str_eqb contentEditable (js "true") || insideContentEditable parent
  end.

Definition isEditableContext (target : option Element) : bool :=
  match target with
  | None => false
  | Some e => isEditableElement e || insideContentEditable e
  end.

(** [isSpecialKey], lines 309-312. *)
Definition isSpecialKey (event : KeyboardEvent) : bool :=
  altKey event || ctrlKey event.

(** [hasMatchingPrefix], lines 235-242. *)
Definition hasMatchingPrefix (sequence : jsstring) (m : Manager) : bool :=
  existsb (fun binding => startsWith binding (sequence ++ [SPACE]))
          (map_keys (bindings m)).

(** [executeAction], lines 319-340; it leaves the manager as it is. *)
Definition executeAction (inserter : Inserter) (m : Manager)
  (binding : Binding) (event : KeyboardEvent) : list Effect :=
  let executed :=
    Log (mkLog LInfo (js "Action executed: " ++ command binding)) in
  match action binding with
  | Insert text =>
      match inserter with
      | Present throws =>
          InsertText text (target event) m
          :: (if throws text (target event)
              then [Log (mkLog LError (js "Failed to execute action:"))]
              else [executed])
      | Absent =>
          [Log (mkLog LError (js "LyXInserter not available")); executed]
      end
  | Command c =>
      [Log (mkLog LInfo (js "Executing command: " ++ c)); executed]
  end.

Section KeyEvents.

(** [String.prototype.toLowerCase], which follows the Unicode tables. *)
Variable toLowerCase : jsstring -> jsstring.

Definition isUpperAZ (c : N) : bool := (65 <=? c) && (c <=? 90).
Definition isLowerAZ (c : N) : bool := (97 <=? c) && (c <=? 122).

(** [eventToKeyString], lines 195-228. *)
Definition eventToKeyString (event : KeyboardEvent) : jsstring :=
  let parts :=
    (if ctrlKey event then [js "Ctrl"] else [])
    ++ (if altKey event then [js "Alt"] else [])
    ++ (if shiftKey event then [js "Shift"] else [])
    ++ (if metaKey event then [js "Meta"] else []) in
  let key1 := if str_eqb (key event) (js " ") then js "Space" else key event in
  let key2 :=
    match key1 with
    | [c] =>
        if shiftKey event && isUpperAZ c then key1
        else if negb (shiftKey event) && isLowerAZ c then key1
        else toLowerCase key1
    | _ => key1
    end in
  join (js "+") (parts ++ [key2]).

Definition push (keyString : jsstring) (p : Page) : Page :=
  set_this (fun m => {| bindings := bindings m;
                        currentSequence := currentSequence m ++ [keyString];
                        sequenceTimeout := sequenceTimeout m;
                        timeoutId := timeoutId m;
                        enabled := enabled m;
                        conflicts := conflicts m |}) p.

(** [handleKeyDown], lines 145-188. *)
Definition handleKeyDown (inserter : Inserter) (event : KeyboardEvent)
  (p : Page) : Page * list Effect :=
  if negb (enabled (this p)) then (p, [])
  else if negb (isEditableContext (Some (target event)))
          && negb (isSpecialKey event) then (p, [])
  else
    let keyString := eventToKeyString event in
    if str_eqb keyString [] then (p, [])
    else
      let pressed := Log (mkLog LDebug (js "Key pressed: " ++ keyString)) in
      let p1 := push keyString p in
      let currentSequenceString := join [SPACE] (currentSequence (this p1)) in
      match map_get currentSequenceString (bindings (this p1)) with
      | Some exactMatch =>
          let fx := executeAction inserter (this p1) exactMatch event in
          let '(p2, fx') := resetSequence p1 in
          (p2,
           [pressed;
            Log (mkLog LInfo (js "Hotkey sequence completed: "
                              ++ currentSequenceString))]
           ++ fx ++ fx' ++ [PreventDefault; StopPropagation])
      | None =>
          if hasMatchingPrefix currentSequenceString (this p1) then
            (startSequenceTimeout p1,
             [pressed;
              Log (mkLog LDebug (js "Partial sequence match: "
                                 ++ currentSequenceString));
              PreventDefault; StopPropagation])
          else
            let '(p2, fx') := resetSequence p1 in
            (p2,
             [pressed;
              Log (mkLog LDebug (js "No sequence match for: "
                                 ++ currentSequenceString))]
             ++ fx')
      end.

End KeyEvents.

(** The object [getStatistics] returns. *)
Record Statistics := mkStatistics {
  totalBindings : nat;
  singleStepBindings : nat;
  multiStepBindings : nat;
  s_conflicts : nat;
  s_enabled : bool;
  s_sequenceTimeout : JsNumber
}.

(** [getStatistics], lines 362-374. *)
Definition getStatistics (m : Manager) : Statistics :=
  let multiStep :=
    List.filter (fun key => includes key (js " ")) (map_keys (bindings m)) in
  {| totalBindings := length (bindings m);
     singleStepBindings := length (bindings m) - length multiStep;
     multiStepBindings := length multiStep;
     s_conflicts := length (conflicts m);
     s_enabled := enabled m;
     s_sequenceTimeout := sequenceTimeout m |}.

(* [getCurrentSequence] and [getConflicts] copy a container; they are
   modelled in [Store] below, where containers are objects. *)

End HotkeyManager.

(** ** Arrays and sets as objects

    [currentSequence] is an array and [conflicts] a [Set]: objects that
    a caller holding a reference can change.  A store maps references
    to the strings such an object holds. *)

Module Store.

Import HotkeyManager.

Abbreviation store := (gmap positive (list jsstring)).

(** A manager whose two containers are references into the store. *)
Record ManagerObject := mkManagerObject {
  o_bindings : JsMap Binding;
  o_currentSequence : positive;
  o_sequenceTimeout : JsNumber;
  o_timeoutId : option positive;
  o_enabled : bool;
  o_conflicts : positive
}.

(** The manager an object stands for in a store. *)
Definition view (h : store) (o : ManagerObject) : option Manager :=
  cs ← h !! o_currentSequence o;
  cf ← h !! o_conflicts o;
  Some {| bindings := o_bindings o; currentSequence := cs;
          sequenceTimeout := o_sequenceTimeout o;
          timeoutId := o_timeoutId o; enabled := o_enabled o;
          conflicts := cf |}.

(** A new object with the given elements. *)
Definition alloc (elements : list jsstring) (h : store) : positive * store :=
  let r := fresh (dom h) in (r, <[r := elements]> h).

(** [getCurrentSequence], lines 346-348: [[...this.currentSequence]]. *)
Definition getCurrentSequence (o : ManagerObject) (h : store)
  : option (positive * store) :=
  cs ← h !! o_currentSequence o; Some (alloc cs h).

(** [getConflicts], lines 354-356: [new Set(this.conflicts)]. *)
Definition getConflicts (o : ManagerObject) (h : store)
  : option (positive * store) :=
  cf ← h !! o_conflicts o; Some (alloc cf h).

(** Whatever a caller does to the object behind [r]: it holds
    [elements] afterwards. *)
Definition mutate (r : positive) (elements : list jsstring) (h : store)
  : store :=
  <[r := elements]> h.

(** [this.currentSequence.push(keyString)], line 162, in place. *)
Definition push (keyString : jsstring) (o : ManagerObject) (h : store)
  : store :=
  alter (fun cs => cs ++ [keyString]) (o_currentSequence o) h.

End Store.

(** ** Notions of the design document *)

(** [a] is a strict prefix of [b]: [b] continues [a] by at least one
    token. *)
Definition strictPrefix (a b : list jsstring) : Prop :=
  exists k, k <> [] /\ b = a ++ k.

(** The tokens of a serialized sequence. *)
Definition tokens (sequence : jsstring) : list jsstring :=
  split SPACE sequence.

(** Two sequences conflict when one is a strict prefix of the other. *)
Definition conflicting (seq1 seq2 : jsstring) : Prop :=
  strictPrefix (tokens seq1) (tokens seq2)
  \/ strictPrefix (tokens seq2) (tokens seq1).

(** The pair is flagged by the loops of [detectConflicts], whichever of
    the two comes first among the keys. *)
Definition flagged (sequences : list jsstring) (seq1 seq2 : jsstring) : Prop :=
  (seq1, seq2) ∈ HotkeyManager.conflictPairs sequences
  \/ (seq2, seq1) ∈ HotkeyManager.conflictPairs sequences.

(** [seq1] stands before [seq2] among the sequences: it was registered
    first. *)
Definition registeredBefore (sequences : list jsstring)
  (seq1 seq2 : jsstring) : Prop :=
  exists l1 l2 l3, sequences = l1 ++ seq1 :: l2 ++ seq2 :: l3.

(** The manager reports the pair: [detectConflicts] leaves its
    description among the conflicts, with either sequence first. *)
Definition reported (m : HotkeyManager.Manager) (seq1 seq2 : jsstring) : Prop :=
  HotkeyManager.describeConflict (seq1, seq2)
    ∈ HotkeyManager.conflicts (HotkeyManager.detectConflicts m).1
  \/ HotkeyManager.describeConflict (seq2, seq1)
       ∈ HotkeyManager.conflicts (HotkeyManager.detectConflicts m).1.

(** No sequence has the token [<->], which stands between the two
    sequences of a description. *)
Definition arrowFree (sequences : list jsstring) : Prop :=
  Forall (fun s => js "<->" ∉ tokens s) sequences.

(** The whitespace-separated elements of a string. *)
Definition whitespaceElements (s : jsstring) : list jsstring :=
  List.filter (fun w => negb (str_eqb w [])) (splitWhere isWhiteSpace s).

(** A binding line: the directive, then the key-spec and the
    command-spec in double quotes, each after whitespace. *)
Definition bindingLine (ws1 keySpec ws2 commandSpec : jsstring) : jsstring :=
  js "\bind" ++ ws1 ++ [QUOTE] ++ keySpec ++ [QUOTE]
  ++ ws2 ++ [QUOTE] ++ commandSpec ++ [QUOTE].

(** Whitespace that keeps the line one line. *)
Definition blank (ws : jsstring) : Prop :=
  ws <> [] /\ Forall (fun c => isWhiteSpace c = true /\ c <> LF) ws.

(** The text of a quoted field. *)
Definition fieldText (s : jsstring) : Prop :=
  s <> [] /\ Forall (fun c => c <> QUOTE /\ c <> LF) s.

(** One step of a key-spec: not empty, no whitespace, no quote. *)
Definition stepText (w : jsstring) : Prop :=
  w <> [] /\ Forall (fun c => isWhiteSpace c = false /\ c <> QUOTE) w.

(** What the design document asks of the binding compiled from a
    line: it is the only one, its serialization neither starts nor ends
    with a space, and it has as many tokens as the normalized key-spec
    has whitespace-separated elements. *)
Definition compiledAsOne (line keySpec : jsstring) : Prop :=
  exists b,
    fst (LyXParser.parse line) = [(keySequence b, b)]
    /\ head (keySequence b) <> Some SPACE
    /\ last (keySequence b) <> Some SPACE
    /\ length (tokens (keySequence b))
       = length (whitespaceElements (LyXParser.normalizeKeySequence keySpec)).

(** Every call of the inserter finds the manager idle. *)
Definition sinkSeesIdle (fx : list HotkeyManager.Effect) : Prop :=
  forall text target m,
    HotkeyManager.InsertText text target m ∈ fx ->
    HotkeyManager.currentSequence m = [].

(** The operations on a page, and the pages they lead to from a new
    manager. *)
Module Run.

Import HotkeyManager.

Inductive Op :=
  | KeyDown (inserter : Inserter) (event : KeyboardEvent)
  | TimeoutFires (id : positive)
  | SetEnabled (enabled : bool)
  | LoadBindings (table : JsMap Binding)
  | SetSequenceTimeout (timeout : JsValue)
  | LoadSettings (storedTimeout : option Z) (storedEnabled : option bool)
  | StopListening.

Section Steps.

Variable toLowerCase : jsstring -> jsstring.

Definition step (op : Op) (p : Page) : option (Page * list Effect) :=
  match op with
  | KeyDown inserter event => Some (handleKeyDown toLowerCase inserter event p)
  | TimeoutFires id => timeoutFires id p
  | SetEnabled e => Some (setEnabled e p)
  | LoadBindings table => Some (loadBindings table p)
  | SetSequenceTimeout t => Some (setSequenceTimeout t p)
  | LoadSettings t e => Some (loadSettings t e p, [])
  | StopListening => Some (stopListening p)
  end.

Inductive reachable : Page -> Prop :=
  | reachable_new : reachable new
  | reachable_step p op p' fx :
      reachable p -> step op p = Some (p', fx) -> reachable p'.

End Steps.

(** No sequence in progress and no callback armed. *)
Definition Idle (p : Page) : Prop :=
  currentSequence (this p) = [] /\ timeoutId (this p) = None /\ timers p = [].

(** A sequence in progress and its one callback armed. *)
Definition Pending (p : Page) : Prop :=
  currentSequence (this p) <> []
  /\ exists id delay,
       timeoutId (this p) = Some id /\ timers p = [(id, delay)].

End Run.

(** [toLowerCase] on the letters A to Z. *)
Definition asciiLowerCase (s : jsstring) : jsstring :=
  (fun c => if HotkeyManager.isUpperAZ c then c + 32 else c) <$> s.

(** ** [TextInserter], the text-insertion routine behind
    [window.LyXInserter] *)

Module TextInserter.

(** [s.indexOf(p)]; -1 when [p] does not occur. *)
Fixpoint indexOf (s p : jsstring) : Z :=
  if startsWith s p then 0%Z
  else match s with
       | [] => (-1)%Z
       | _ :: s' =>
           let i := indexOf s' p in
           if (i <? 0)%Z then (-1)%Z else (i + 1)%Z
       end.

(** [calculateCursorOffset], lines 200-218; [None] for [null]. *)
Definition calculateCursorOffset (text : jsstring) : option Z :=
  if str_eqb text (js "\frac{}{}") then Some (indexOf text (js "{}") + 1)%Z
  else if str_eqb text (js "\sqrt{}") then Some (indexOf text (js "{}") + 1)%Z
  else if includes text (js "{}") then
    let braceIndex := indexOf text (js "{}") in Some (braceIndex + 1)%Z
  else None.

(** An end of [substring]: not below 0 and not beyond the string. *)
Definition clampIndex (s : jsstring) (i : Z) : nat :=
  Nat.min (Z.to_nat i) (length s).

(** [s.substring(a, b)]: the ends are clamped, and swapped when they
    come in the wrong order. *)
Definition substring (s : jsstring) (a b : Z) : jsstring :=
  let a' := clampIndex s a in
  let b' := clampIndex s b in
  take (Nat.max a' b' - Nat.min a' b') (drop (Nat.min a' b') s).

(** [s.substring(a)] *)
Definition substringFrom (s : jsstring) (a : Z) : jsstring :=
  drop (clampIndex s a) s.

(** What [insertIntoInputElement] does to the element and the logger. *)
Inductive ElementCall :=
  | SetValue (value : jsstring)
  | SetSelectionRange (selectionStart selectionEnd : Z)
  | DispatchEvent (type : jsstring)
  | LogDebug (message : jsstring).

(** [triggerInputEvents], lines 254-281.  The third event is built in a
    [try] block; when [Object.defineProperty] throws there
    ([definePropertyThrows]), the event is not dispatched. *)
Definition triggerInputEvents (definePropertyThrows : bool)
  : list ElementCall :=
  [DispatchEvent (js "input"); DispatchEvent (js "change")]
  ++ (if definePropertyThrows then [] else [DispatchEvent (js "input")]).

(** [insertIntoInputElement], lines 50-88, on a control whose selection
    applies: [startPos], [endPos] and [currentValue] are what the
    element gives for [selectionStart], [selectionEnd] and [value];
    [tagName] goes into the logger call. *)
Definition insertIntoInputElement (definePropertyThrows : bool)
  (text tagName : jsstring) (startPos endPos : Z) (currentValue : jsstring)
  : list ElementCall * bool :=
  let newCursorPos :=
    match calculateCursorOffset text with
    | Some cursorOffset => (startPos + cursorOffset)%Z
    | None => (startPos + Z.of_nat (length text))%Z
    end in
  let newValue :=
    substring currentValue 0 startPos ++ text
    ++ substringFrom currentValue endPos in
  ([SetValue newValue; SetSelectionRange newCursorPos newCursorPos]
   ++ triggerInputEvents definePropertyThrows
   ++ [LogDebug (js "Inserted text into " ++ tagName ++ js ":")],
   true).

End TextInserter.

(** ** [Logger], the collaborator behind [window.LyXLogger.logger] *)

Module Logger.

(** An entry of the history; the data argument of a call is carried
    along as it is and left out here. *)
Record Entry := mkEntry {
  timestamp : jsstring;
  level : jsstring;
  message : jsstring
}.

Record State := mkLogger {
  debugMode : bool;
  logLevel : jsstring;
  logHistory : list Entry;
  maxHistorySize : nat
}.

(** The constructor, lines 6-14. *)
Definition new : State :=
  {| debugMode := false; logLevel := js "info"; logHistory := [];
     maxHistorySize := 1000 |}.

Definition levels : list jsstring :=
  [js "debug"; js "info"; js "warn"; js "error"].

(** [array.indexOf(x)] on strings; -1 when [x] is not an element. *)
Fixpoint arrayIndexOf (l : list jsstring) (x : jsstring) : Z :=
  match l with
  | [] => (-1)%Z
  | y :: l' =>
      if str_eqb y x then 0%Z
      else let i := arrayIndexOf l' x in
           if (i <? 0)%Z then (-1)%Z else (i + 1)%Z
  end.

(** [shouldLog], lines 47-52. *)
Definition shouldLog (lg : State) (level : jsstring) : bool :=
  let currentIndex := arrayIndexOf levels (logLevel lg) in
  let messageIndex := arrayIndexOf levels level in
  (currentIndex <=? messageIndex)%Z.

(** A call of a method of [console]. *)
Record ConsoleCall := mkConsole {
  method : jsstring;
  prefix : jsstring;
  text : jsstring
}.

(** [log], lines 54-82; [now] is what [new Date().toISOString()]
    gives. *)
Definition log (now level message : jsstring) (lg : State)
  : State * list ConsoleCall :=
  if negb (shouldLog lg level) then (lg, [])
  else
    let pushed := logHistory lg ++ [mkEntry now level message] in
    let history :=
      if Nat.ltb (maxHistorySize lg) (length pushed) then drop 1 pushed
      else pushed in
    let consoleMethod :=
      if str_eqb level (js "debug") then js "debug"
      else if str_eqb level (js "info") then js "info"
      else if str_eqb level (js "warn") then js "warn"
      else js "error" in
    ({| debugMode := debugMode lg; logLevel := logLevel lg;
        logHistory := history; maxHistorySize := maxHistorySize lg |},
     [mkConsole consoleMethod (js "[LyX Hotkey] " ++ now) message]).

(** [debug], [info], [warn] and [error], lines 84-100. *)
Definition debug (now message : jsstring) (lg : State)
  : State * list ConsoleCall :=
  if debugMode lg then log now (js "debug") message lg else (lg, []).

Definition info (now message : jsstring) (lg : State)
  : State * list ConsoleCall :=
  log now (js "info") message lg.

Definition warn (now message : jsstring) (lg : State)
  : State * list ConsoleCall :=
  log now (js "warn") message lg.

Definition error (now message : jsstring) (lg : State)
  : State * list ConsoleCall :=
  log now (js "error") message lg.

(** [setDebugMode] and [setLogLevel], lines 37-45. *)
Definition setDebugMode (enabled : bool) (lg : State) : State :=
  {| debugMode := enabled; logLevel := logLevel lg;
     logHistory := logHistory lg; maxHistorySize := maxHistorySize lg |}.

Definition setLogLevel (level : jsstring) (lg : State) : State :=
  {| debugMode := debugMode lg; logLevel := level;
     logHistory := logHistory lg; maxHistorySize := maxHistorySize lg |}.

(** [getHistory], lines 102-107; [None] for a call without argument.
    An empty string is falsy, like no argument. *)
Definition getHistory (level : option jsstring) (lg : State) : list Entry :=
  match level with
  | Some (c :: l) =>
      List.filter (fun entry => str_eqb (Logger.level entry) (c :: l))
                  (logHistory lg)
  | _ => logHistory lg
  end.

(** [clearHistory], lines 109-111. *)
Definition clearHistory (lg : State) : State :=
  {| debugMode := debugMode lg; logLevel := logLevel lg;
     logHistory := []; maxHistorySize := maxHistorySize lg |}.

(** The calls that reach a logger. *)
Inductive Call :=
  | CallDebug (now message : jsstring)
  | CallInfo (now message : jsstring)
  | CallWarn (now message : jsstring)
  | CallError (now message : jsstring)
  | CallSetDebugMode (enabled : bool)
  | CallSetLogLevel (level : jsstring)
  | CallClearHistory.

Definition call (c : Call) (lg : State) : State :=
  match c with
  | CallDebug now message => (debug now message lg).1
  | CallInfo now message => (info now message lg).1
  | CallWarn now message => (warn now message lg).1
  | CallError now message => (error now message lg).1
  | CallSetDebugMode enabled => setDebugMode enabled lg
  | CallSetLogLevel level => setLogLevel level lg
  | CallClearHistory => clearHistory lg
  end.

End Logger.

(** ** [LyXHotkeyPlugin], the caller of the parser and the manager in
    [content.js] *)

Module Plugin.

Import HotkeyManager.

(** What [loadBindings] is given: the text of a bind file, an exported
    object, or a value of another type. *)
Inductive BindingsData :=
  | FileText (content : jsstring)
  | Exported (exported : LyXParser.JsObject)
  | OtherValue.

(** The plugin with its collaborators: the table of its parser, the
    page of its manager, and whether [handleKeyDown] is registered on
    the document.  The effects listed below are the ones of the manager;
    the plugin's own calls of the logger, of [chrome.storage] and of
    [showStatus] read and write none of these fields and are left
    out. *)
Record State := mkPlugin {
  isActive : bool;
  loadedBindings : option BindingsData;
  parserBindings : JsMap Binding;
  page : Page;
  listening : bool
}.

(** The constructor, lines 41-44, with the new parser and the new
    manager of lines 34-35. *)
Definition new : State :=
  {| isActive := false; loadedBindings := None; parserBindings := [];
     page := HotkeyManager.new; listening := false |}.

(** [loadBindings], lines 115-151: the parser fills its table, the
    manager copies it. *)
Definition loadBindings (data : BindingsData) (pl : State)
  : State * list Effect :=
  match data with
  | FileText content =>
      let bindings := (LyXParser.parse content).1 in
      let '(page', fx) := HotkeyManager.loadBindings bindings (page pl) in
      ({| isActive := isActive pl; loadedBindings := Some data;
          parserBindings := bindings; page := page';
          listening := listening pl |}, fx)
  | Exported exported =>
      let bindings := (LyXParser.importBindings exported).1 in
      let '(page', fx) := HotkeyManager.loadBindings bindings (page pl) in
      ({| isActive := isActive pl; loadedBindings := Some data;
          parserBindings := bindings; page := page';
          listening := listening pl |}, fx)
  | OtherValue => (pl, [])
  end.

(** [activate], lines 156-165, with [startListening], lines 127-130. *)
Definition activate (pl : State) : State * list Effect :=
  if isActive pl then (pl, [])
  else
    let '(page', fx) := setEnabled true (page pl) in
    ({| isActive := true; loadedBindings := loadedBindings pl;
        parserBindings := parserBindings pl; page := page';
        listening := true |},
     fx ++ [Log (mkLog LDebug (js "Started listening for key events"))]).

(** [deactivate], lines 170-179, with [stopListening]. *)
Definition deactivate (pl : State) : State * list Effect :=
  if negb (isActive pl) then (pl, [])
  else
    let '(page1, fx1) := setEnabled false (page pl) in
    let '(page2, fx2) := stopListening page1 in
    ({| isActive := false; loadedBindings := loadedBindings pl;
        parserBindings := parserBindings pl; page := page2;
        listening := false |},
     fx1 ++ fx2).

(** [toggle], lines 184-190. *)
Definition toggle (pl : State) : State * list Effect :=
  if isActive pl then deactivate pl else activate pl.

(** A [keydown] event on the document reaches [handleKeyDown] while it
    is registered. *)
Definition keydown (toLowerCase : jsstring -> jsstring)
  (inserter : Inserter) (event : KeyboardEvent) (pl : State)
  : State * list Effect :=
  if listening pl then
    let '(page', fx) := handleKeyDown toLowerCase inserter event (page pl) in
    ({| isActive := isActive pl; loadedBindings := loadedBindings pl;
        parserBindings := parserBindings pl; page := page';
        listening := listening pl |}, fx)
  else (pl, []).

End Plugin.

(** ** Auxiliary notions of the proofs *)

Import LyXParser HotkeyManager Run.

(** A replacement that neither contains [a] followed by [b] nor can
    take part in such a pair at its ends. *)
Definition sealedb (a b : N) (rep : jsstring) : bool :=
  negb (str_eqb rep []) && negb (includes rep [a; b])
  && negb (match last rep with Some c => c =? a | None => false end)
  && negb (match head rep with Some c => c =? b | None => false end).

(** No modifier prefix of LyX is left. *)
Definition modifierFree (s : jsstring) : Prop :=
  includes s (js "M-") = false /\ includes s (js "C-") = false
  /\ includes s (js "S-") = false.

(** Replacements applied one after the other. *)
Definition replaceEach (rules : list (jsstring * jsstring)) (s : jsstring)
  : jsstring :=
  foldl (fun s '(pat, rep) => replaceAll pat rep s) s rules.

(** The rules of [normalizeModifiers], in the order of the source. *)
Definition modifierKeys : list (jsstring * jsstring) :=
  [ (js "M-", js "Alt+"); (js "C-", js "Ctrl+"); (js "S-", js "Shift+");
    (js "A-", js "Alt+") ].

(** A rule whose pattern and replacement are not empty and hold no
    whitespace. *)
Definition plainRule (rule : jsstring * jsstring) : bool :=
  negb (str_eqb (fst rule) []) && negb (str_eqb (snd rule) [])
  && forallb (fun c => negb (isWhiteSpace c)) (fst rule)
  && forallb (fun c => negb (isWhiteSpace c)) (snd rule).

(** What the first two groups of replacements make of one step. *)
Definition normalizeStep (w : jsstring) : jsstring :=
  replaceEach (modifierKeys ++ specialKeys) w.

(** Every armed callback is the one whose handle the manager holds. *)
Definition timersHeld (p : Page) : Prop :=
  forall t, t ∈ timers p -> timeoutId (this p) = Some (fst t).

(** The binding a line of the text contributes, if any. *)
Definition lineBinding (line : jsstring) : option Binding :=
  let trimmed := trim line in
  if str_eqb trimmed [] || startsWith trimmed (js "#") then None
  else if startsWith trimmed (js "\bind") then
    match bindRegex trimmed with
    | Some (keySequence, command) =>
        Some {| keySequence := normalizeKeySequence keySequence;
                originalKeySequence := keySequence;
                command := command;
                action := parseCommand command |}
    | None => None
    end
  else None.

(** A line [parse] passes over without a word: blank, a comment, or not
    a [\bind] directive. *)
Definition ignorable (line : jsstring) : Prop :=
  let trimmed := trim line in
  trimmed = [] \/ startsWith trimmed (js "#") = true
  \/ startsWith trimmed (js "\bind") = false.

(** A binding as [parseBindLine] builds it. *)
Definition compiledBinding (b : Binding) : Prop :=
  keySequence b = normalizeKeySequence (originalKeySequence b)
  /\ action b = parseCommand (command b)
  /\ originalKeySequence b <> [] /\ (QUOTE ∉ originalKeySequence b)
  /\ command b <> [] /\ (QUOTE ∉ command b).

(** Operations run one after the other, with their effects in order;
    [None] when a callback is run that is not armed. *)
Fixpoint run (toLowerCase : jsstring -> jsstring) (ops : list Op) (p : Page)
  : option (Page * list Effect) :=
  match ops with
  | [] => Some (p, [])
  | op :: ops' =>
      match step toLowerCase op p with
      | Some (p1, fx1) =>
          match run toLowerCase ops' p1 with
          | Some (p2, fx2) => Some (p2, fx1 ++ fx2)
          | None => None
          end
      | None => None
      end
  end.

(** The operations that leave the table of the manager as it is. *)
Definition keepsTable (op : Op) : bool :=
  match op with
  | LoadBindings _ => false
  | _ => true
  end.

(** A key whose key string holds no space, as the keys of a keyboard
    are: the space bar itself is written [Space]. *)
Definition spaceless (toLowerCase : jsstring -> jsstring) (op : Op) : bool :=
  match op with
  | KeyDown _ event =>
      forallb (fun c => negb (c =? SPACE)) (eventToKeyString toLowerCase event)
  | _ => true
  end.

(** The effect belongs to the execution of the binding registered under
    [sequence]: the log entry of the match, or the call of the
    inserter. *)
Definition completes (sequence : jsstring) (e : Effect) : Prop :=
  match e with
  | Log entry =>
      entry = mkLog LInfo (js "Hotkey sequence completed: " ++ sequence)
  | InsertText _ _ during => join [SPACE] (currentSequence during) = sequence
  | _ => False
  end.

(** No pending token holds a space and no beginning of the pending
    tokens is a registered sequence. *)
Definition unshadowed (m : Manager) : Prop :=
  Forall (fun w => Forall (fun c => (c =? SPACE) = false) w) (currentSequence m)
  /\ forall q, q <> [] -> q `prefix_of` currentSequence m ->
       map_get (join [SPACE] q) (bindings m) = None.

(** ** A sample page *)

Definition inputElement : Element :=
  mkElement (js "INPUT") (js "inherit") None.

Definition keyEvent (alt : bool) (k : string) : KeyboardEvent :=
  mkEvent false alt false false (js k) inputElement.

(** Two bindings: [Alt+m g] for a gamma and [x] for itself. *)
Definition sampleConfig : jsstring :=
  bindingLine (js " ") (js "M-m g") (js " ") (js "math-insert \gamma")
  ++ [LF]
  ++ bindingLine (js " ") (js "x") (js " ") (js "self-insert x").

Definition sampleTable : JsMap Binding := (parse sampleConfig).1.

Definition loadedPage : Page := (loadBindings sampleTable new).1.

(** The page after [Alt+m]. *)
Definition pendingPage : Page :=
  (handleKeyDown asciiLowerCase Absent (keyEvent true "m") loadedPage).1.

(** An [insertText] that returns. *)
Definition returns : JsText -> Element -> bool := fun _ _ => false.

(** The manager after two binding lines are compiled and loaded, the
    first key-spec registered first. *)
Definition registered (first second : string) : Manager :=
  this (loadBindings
          (parse (bindingLine (js " ") (js first) (js " ") (js "self-insert 1")
                  ++ [LF]
                  ++ bindingLine (js " ") (js second) (js " ")
                       (js "self-insert 2"))).1
          new).1.

Definition sampleStore : Store.store :=
  <[1%positive := [js "Alt+m"]]> (<[2%positive := []]> ∅).

Definition sampleObject : Store.ManagerObject :=
  {| Store.o_bindings := sampleTable; Store.o_currentSequence := 1%positive;
     Store.o_sequenceTimeout := Num 1500;
     Store.o_timeoutId := Some 1%positive;
     Store.o_enabled := true; Store.o_conflicts := 2%positive |}.

(** A page whose manager has the bindings of [Alt+m] and [Alt+m g]. *)
Definition shadowedPage : Page :=
  {| this := registered "M-m" "M-m g"; timers := []; nextTimer := 1 |}.

(** * Properties *)

(** ** The scenarios of the design document, run on the model *)

Example compile_frac :
  (parse (bindingLine (js " ") (js "M-m f") (js " ") (js "math-insert \frac"))).1
  = [(js "Alt+m f",
      {| keySequence := js "Alt+m f"; originalKeySequence := js "M-m f";
         command := js "math-insert \frac";
         action := Insert (Str (js "\frac{}{}")) |})].
Proof. reflexivity. Qed.

Example compile_alpha :
  (parse (bindingLine (js " ") (js "M-m g a") (js " ")
            (js "math-insert \alpha"))).1
  = [(js "Alt+m g a",
      {| keySequence := js "Alt+m g a"; originalKeySequence := js "M-m g a";
         command := js "math-insert \alpha";
         action := Insert (Str [945]) |})].
Proof. reflexivity. Qed.

Example key_strings :
  eventToKeyString asciiLowerCase (keyEvent true "m") = js "Alt+m"
  /\ eventToKeyString asciiLowerCase
       (mkEvent false false true false (js "D") inputElement) = js "Shift+D"
  /\ eventToKeyString asciiLowerCase
       (mkEvent true false false false (js " ") inputElement) = js "Ctrl+Space".
Proof. repeat split; reflexivity. Qed.

Example first_key_is_pending :
  currentSequence (this pendingPage) = [js "Alt+m"]
  /\ timers pendingPage = [(1%positive, Num 1500)].
Proof. split; reflexivity. Qed.

(** ** Strings *)

Lemma str_eqb_eq a b : str_eqb a b = true <-> a = b.
Proof.
  revert b; induction a as [|c a IH]; intros [|d b]; simpl;
    try (split; intros; congruence).
  rewrite andb_true_iff, N.eqb_eq, IH.
  split; [intros [-> ->]; reflexivity | intros [= -> ->]; auto].
Qed.

Lemma str_eqb_refl a : str_eqb a a = true.
Proof. apply str_eqb_eq; reflexivity. Qed.

Lemma str_eqb_neq a b : str_eqb a b = false <-> a <> b.
Proof.
  rewrite <- str_eqb_eq. destruct (str_eqb a b); split; congruence.
Qed.

Lemma startsWith_spec s p : startsWith s p = true <-> exists r, s = p ++ r.
Proof.
  revert s; induction p as [|c p IH]; intros s; simpl.
  - split; [intros _; by exists s | done].
  - destruct s as [|d s].
    + split; [discriminate | intros [r Hr]; discriminate].
    + rewrite andb_true_iff, N.eqb_eq, IH. split.
      * intros [-> [r ->]]. eauto.
      * intros [r [= -> ->]]. eauto.
Qed.

Lemma startsWith_app p r : startsWith (p ++ r) p = true.
Proof. apply startsWith_spec; eauto. Qed.

Lemma startsWith_drop s p :
  startsWith s p = true -> s = p ++ drop (length p) s.
Proof.
  intros [r ->]%startsWith_spec. by rewrite drop_app_length.
Qed.

Lemma startsWith_app_l s p r :
  startsWith s p = true -> startsWith (s ++ r) p = true.
Proof.
  intros [q ->]%startsWith_spec. rewrite <- app_assoc. apply startsWith_app.
Qed.

Lemma includes_spec s p :
  includes s p = true <-> exists a b, s = a ++ p ++ b.
Proof.
  split.
  - induction s as [|c s IH]; cbn [includes].
    + rewrite orb_false_r. intros [r ->]%startsWith_spec. by exists [], r.
    + intros [H|H]%orb_true_iff.
      * apply startsWith_spec in H as [r ->]. by exists [], r.
      * destruct (IH H) as (a & b & ->). by exists (c :: a), b.
  - intros (a & b & ->). induction a as [|c a IH].
    + destruct (p ++ b) eqn:E; cbn [includes app]; rewrite <- ?E.
      * destruct p; [done | discriminate].
      * rewrite E, <- E, startsWith_app. done.
    + cbn [includes app]. rewrite IH. apply orb_true_r.
Qed.

Lemma includes_cons_false c s p :
  includes (c :: s) p = false ->
  startsWith (c :: s) p = false /\ includes s p = false.
Proof. cbn [includes]. by intros ?%orb_false_elim. Qed.

Lemma includes_tail s x p : includes s (x :: p) = true -> includes s p = true.
Proof.
  intros (a & b & ->)%includes_spec. apply includes_spec.
  exists (a ++ [x]), b. by rewrite <- app_assoc.
Qed.

(** *** Global replacement *)

Lemma replaceAll_from_drop k pat rep s :
  replaceAll_from k pat rep s = replaceAll pat rep (drop k s).
Proof.
  revert k; induction s as [|c s IH]; intros [|k]; try reflexivity.
  cbn [replaceAll_from drop]. apply IH.
Qed.

Lemma replaceAll_nil pat rep : replaceAll pat rep [] = [].
Proof. reflexivity. Qed.

Lemma replaceAll_match pat rep s :
  pat <> [] -> startsWith s pat = true ->
  replaceAll pat rep s = rep ++ replaceAll pat rep (drop (length pat) s).
Proof.
  intros Hpat H. destruct pat as [|x pat]; [done|].
  destruct s as [|c s]; [discriminate|].
  unfold replaceAll at 1. cbn [replaceAll_from]. rewrite H.
  rewrite replaceAll_from_drop. cbn [length drop].
  by replace (S (length pat) - 1)%nat with (length pat) by lia.
Qed.

Lemma replaceAll_nomatch pat rep c s :
  startsWith (c :: s) pat = false ->
  replaceAll pat rep (c :: s) = c :: replaceAll pat rep s.
Proof. intros H. unfold replaceAll. cbn [replaceAll_from]. by rewrite H. Qed.

(** Induction along the scan of [replaceAll]. *)
Lemma replaceAll_elim pat rep (P : jsstring -> jsstring -> Prop) :
  pat <> [] ->
  P [] [] ->
  (forall s, startsWith s pat = true ->
     P (drop (length pat) s) (replaceAll pat rep (drop (length pat) s)) ->
     P s (rep ++ replaceAll pat rep (drop (length pat) s))) ->
  (forall c s, startsWith (c :: s) pat = false ->
     P s (replaceAll pat rep s) -> P (c :: s) (c :: replaceAll pat rep s)) ->
  forall s, P s (replaceAll pat rep s).
Proof.
  intros Hpat Hnil Hm Hn s.
  remember (length s) as n eqn:Hlen. revert s Hlen.
  induction n as [n IH] using lt_wf_ind. intros s Hlen.
  destruct s as [|c s]; [exact Hnil|].
  destruct (startsWith (c :: s) pat) eqn:E.
  - rewrite replaceAll_match by done. apply Hm; [done|].
    eapply IH; [|reflexivity]. subst n.
    rewrite length_drop. destruct pat; [done|]. cbn [length]. lia.
  - rewrite replaceAll_nomatch by done. apply Hn; [done|].
    eapply IH; [|reflexivity]. subst n. cbn [length]. lia.
Qed.

Lemma replaceAll_head pat rep s b :
  pat <> [] -> rep <> [] -> head rep <> Some b ->
  head (replaceAll pat rep s) = Some b -> head s = Some b.
Proof.
  intros Hpat Hrep Hb. destruct s as [|c s]; [done|].
  destruct (startsWith (c :: s) pat) eqn:E.
  - rewrite replaceAll_match by done. by destruct rep.
  - by rewrite replaceAll_nomatch.
Qed.

Lemma replaceAll_nonempty pat rep s :
  pat <> [] -> rep <> [] -> s <> [] -> replaceAll pat rep s <> [].
Proof.
  intros Hpat Hrep Hs. destruct s as [|c s]; [done|].
  destruct (startsWith (c :: s) pat) eqn:E.
  - rewrite replaceAll_match by done. by destruct rep.
  - by rewrite replaceAll_nomatch.
Qed.

Lemma replaceAll_absent pat rep s :
  includes s pat = false -> replaceAll pat rep s = s.
Proof.
  induction s as [|c s IH]; [done|].
  intros [H1 H2]%includes_cons_false.
  rewrite replaceAll_nomatch by done. by rewrite IH.
Qed.

Lemma includes_drop n s p : includes s p = false -> includes (drop n s) p = false.
Proof.
  intros H. destruct (includes (drop n s) p) eqn:E; [|done].
  apply includes_spec in E as (a & b & E).
  rewrite <- H. symmetry. apply includes_spec.
  exists (take n s ++ a), b. rewrite <- app_assoc, <- E. by rewrite take_drop.
Qed.

(** *** Two adjacent characters *)

Lemma includes_pair_cons a b c s :
  includes s [a; b] = false -> ~ (c = a /\ head s = Some b) ->
  includes (c :: s) [a; b] = false.
Proof.
  intros Hs Hc. cbn [includes]. rewrite Hs, orb_false_r.
  cbn [startsWith]. destruct (N.eqb_spec c a) as [->|]; [|done].
  destruct s as [|d s]; [done|]. rewrite andb_true_r. cbn [andb].
  apply N.eqb_neq. intros ->. by apply Hc.
Qed.

Lemma includes_pair_app a b x y :
  includes x [a; b] = false -> includes y [a; b] = false ->
  ~ (last x = Some a /\ head y = Some b) ->
  includes (x ++ y) [a; b] = false.
Proof.
  induction x as [|c x IH]; intros Hx Hy Hj; [done|].
  apply includes_cons_false in Hx as [Hc Hx].
  cbn [app]. apply includes_pair_cons.
  - apply IH; [done..|]. intros [Hl Hh]. apply Hj. split; [|done].
    destruct x; [done|]. done.
  - intros [-> Hh]. destruct x as [|d x].
    + apply Hj. by split.
    + cbn in Hh. injection Hh as ->. cbn in Hc.
      by rewrite !N.eqb_refl in Hc.
Qed.

Lemma sealedb_spec a b rep :
  sealedb a b rep = true ->
  rep <> [] /\ includes rep [a; b] = false
  /\ last rep <> Some a /\ head rep <> Some b.
Proof.
  unfold sealedb. rewrite !andb_true_iff, !negb_true_iff.
  intros [[[H1 H2] H3] H4]. repeat split; [|done|..].
  - by apply str_eqb_neq.
  - destruct (last rep); [|done]. intros [= ->]. by rewrite N.eqb_refl in H3.
  - destruct (head rep); [|done]. intros [= ->]. by rewrite N.eqb_refl in H4.
Qed.

Lemma replaceAll_keeps_free a b pat rep s :
  pat <> [] -> sealedb a b rep = true ->
  includes s [a; b] = false ->
  includes (replaceAll pat rep s) [a; b] = false.
Proof.
  intros Hpat (Hrep & Hin & Hlast & Hhead)%sealedb_spec.
  apply (replaceAll_elim pat rep
           (fun s out => includes s [a; b] = false ->
                         includes out [a; b] = false)); [done|done|..].
  - intros s' Hm IH Hs'. apply includes_pair_app; [done|..].
    + apply IH. by apply includes_drop.
    + by intros [? _].
  - intros c s' Hm IH [Hc Hs']%includes_cons_false.
    apply includes_pair_cons; [by apply IH|].
    intros [-> Hh]. apply replaceAll_head in Hh; [|done..].
    destruct s' as [|d s']; [done|]. injection Hh as ->.
    cbn in Hc. by rewrite !N.eqb_refl in Hc.
Qed.

Lemma replaceAll_makes_free a b rep s :
  sealedb a b rep = true ->
  includes (replaceAll [a; b] rep s) [a; b] = false.
Proof.
  intros (Hrep & Hin & Hlast & Hhead)%sealedb_spec.
  apply (replaceAll_elim [a; b] rep
           (fun _ out => includes out [a; b] = false)); [done|done|..].
  - intros s' Hm IH. apply includes_pair_app; [done..|]. by intros [? _].
  - intros c s' Hm IH. apply includes_pair_cons; [done|].
    intros [-> Hh]. apply replaceAll_head in Hh; [|done..].
    destruct s' as [|d s']; [done|]. injection Hh as ->.
    cbn in Hm. by rewrite !N.eqb_refl in Hm.
Qed.

Lemma foldl_replaceAll_keeps_free a b (l : list (jsstring * jsstring)) s :
  forallb (fun e => negb (str_eqb (fst e) []) && sealedb a b (snd e)) l = true ->
  includes s [a; b] = false ->
  includes (foldl (fun s '(pat, rep) => replaceAll pat rep s) s l) [a; b]
  = false.
Proof.
  revert s; induction l as [|[pat rep] l IH]; intros s Hl Hs; [done|].
  cbn [forallb fst snd] in Hl.
  apply andb_true_iff in Hl as [[Hp Hr]%andb_true_iff Hl].
  cbn [foldl]. apply IH; [done|].
  apply replaceAll_keeps_free; [|done..].
  apply negb_true_iff, str_eqb_neq in Hp. done.
Qed.

(** *** Splitting and joining *)

Lemma splitWhere_nonempty f s : splitWhere f s <> [].
Proof.
  destruct s as [|c s]; [done|]. cbn [splitWhere].
  destruct (f c); [done|]. by destruct (splitWhere f s).
Qed.

Lemma splitWhere_app_sep f a c b :
  f c = true ->
  splitWhere f (a ++ c :: b) = splitWhere f a ++ splitWhere f b.
Proof.
  intros Hc. induction a as [|x a IH]; cbn [app splitWhere].
  - by rewrite Hc.
  - destruct (f x); [by rewrite IH|]. rewrite IH.
    pose proof (splitWhere_nonempty f a).
    by destruct (splitWhere f a).
Qed.

Lemma splitWhere_none f w :
  Forall (fun c => f c = false) w -> splitWhere f w = [w].
Proof.
  induction 1 as [|c w Hc _ IH]; [done|].
  cbn [splitWhere]. by rewrite Hc, IH.
Qed.

Lemma join_cons sep w ws :
  ws <> [] -> join sep (w :: ws) = w ++ sep ++ join sep ws.
Proof. by destruct ws. Qed.

Lemma join_app sep l1 l2 :
  l1 <> [] -> l2 <> [] ->
  join sep (l1 ++ l2) = join sep l1 ++ sep ++ join sep l2.
Proof.
  intros H1 H2. induction l1 as [|w l1 IH]; [done|].
  destruct l1 as [|w' l1].
  - cbn [app]. by rewrite join_cons.
  - cbn [app] in *.
    rewrite (join_cons sep w (w' :: l1 ++ l2)) by done.
    rewrite (join_cons sep w (w' :: l1)) by done.
    rewrite IH by done. by rewrite <- !app_assoc.
Qed.

Lemma join_split sep s : join [sep] (split sep s) = s.
Proof.
  unfold split. induction s as [|c s IH]; [done|].
  cbn [splitWhere]. pose proof (splitWhere_nonempty (fun c => c =? sep) s).
  destruct (N.eqb_spec c sep) as [->|].
  - rewrite join_cons by done. by rewrite IH.
  - destruct (splitWhere _ s) as [|w ws]; [done|].
    destruct ws; cbn [join app] in *; by rewrite IH.
Qed.

Lemma splitWhere_join f sep ws :
  f sep = true -> ws <> [] ->
  Forall (fun w => Forall (fun c => f c = false) w) ws ->
  splitWhere f (join [sep] ws) = ws.
Proof.
  intros Hsep Hne Hws. induction Hws as [|w ws Hw Hws IH]; [done|].
  destruct ws as [|w' ws].
  - by apply splitWhere_none.
  - rewrite join_cons by done. cbn [app].
    rewrite splitWhere_app_sep by done.
    rewrite splitWhere_none by done. by rewrite IH.
Qed.

(** The test of [hasMatchingPrefix] on one key, in terms of tokens. *)
Lemma startsWith_strictPrefix candidate k :
  startsWith k (candidate ++ [SPACE]) = true
  <-> strictPrefix (tokens candidate) (tokens k).
Proof.
  unfold tokens, split. split.
  - intros [r ->]%startsWith_spec. rewrite <- app_assoc. cbn [app].
    rewrite splitWhere_app_sep by done.
    eexists. split; [|reflexivity]. apply splitWhere_nonempty.
  - intros (e & He & Hk). apply startsWith_spec.
    exists (join [SPACE] e).
    rewrite <- (join_split SPACE k). unfold split. rewrite Hk.
    rewrite join_app; [|apply splitWhere_nonempty|done].
    fold (split SPACE candidate). rewrite join_split.
    by rewrite <- app_assoc.
Qed.

(** *** Replacement and separators *)

Lemma startsWith_before_sep w c s pat :
  c ∉ pat -> startsWith (w ++ c :: s) pat = true -> startsWith w pat = true.
Proof.
  revert w; induction pat as [|x pat IH]; intros w Hc; [done|].
  apply not_elem_of_cons in Hc as [Hx Hc].
  destruct w as [|d w]; cbn [app startsWith].
  - intros [Hcx _]%andb_true_iff. by apply N.eqb_eq in Hcx.
  - intros [Hd Hw]%andb_true_iff. rewrite Hd. cbn [andb]. by apply IH.
Qed.

Lemma replaceAll_app_sep pat rep w c s :
  pat <> [] -> c ∉ pat ->
  replaceAll pat rep (w ++ c :: s)
  = replaceAll pat rep w ++ c :: replaceAll pat rep s.
Proof.
  intros Hpat Hc.
  apply (replaceAll_elim pat rep
           (fun w out => replaceAll pat rep (w ++ c :: s)
                         = out ++ c :: replaceAll pat rep s)); [done|..].
  - cbn [app]. apply replaceAll_nomatch.
    destruct (startsWith (c :: s) pat) eqn:E; [|done].
    apply (startsWith_before_sep [] c s pat Hc) in E.
    by destruct pat.
  - intros w' Hm IH.
    rewrite replaceAll_match by (done || by apply startsWith_app_l).
    rewrite <- app_assoc. f_equal. rewrite <- IH. f_equal.
    apply startsWith_spec in Hm as [r ->].
    rewrite <- app_assoc. by rewrite !drop_app_length.
  - intros d w' Hm IH. cbn [app].
    rewrite replaceAll_nomatch; [by rewrite IH|].
    destruct (startsWith (d :: w' ++ c :: s) pat) eqn:E; [|done].
    apply (startsWith_before_sep (d :: w') c s pat Hc) in E. congruence.
Qed.

Lemma replaceAll_join pat rep c ws :
  pat <> [] -> c ∉ pat ->
  replaceAll pat rep (join [c] ws) = join [c] (replaceAll pat rep <$> ws).
Proof.
  intros Hpat Hc. induction ws as [|w ws IH]; [done|].
  destruct ws as [|w' ws]; [reflexivity|].
  rewrite join_cons by done. cbn [app].
  rewrite replaceAll_app_sep by done. rewrite IH.
  cbn [fmap list_fmap].
  by rewrite (join_cons [c] (replaceAll pat rep w)).
Qed.

Lemma replaceAll_Forall (P : N -> Prop) pat rep s :
  pat <> [] -> Forall P rep -> Forall P s -> Forall P (replaceAll pat rep s).
Proof.
  intros Hpat Hrep.
  apply (replaceAll_elim pat rep (fun s out => Forall P s -> Forall P out));
    [done|done|..].
  - intros s' _ IH Hs'. apply Forall_app. split; [done|].
    apply IH. by apply Forall_drop.
  - intros c s' _ IH Hs'. apply Forall_cons in Hs' as [? ?].
    apply Forall_cons. split; [done | by apply IH].
Qed.

(** ** Key-specs *)

(** *** The negated modifiers *)

Lemma normalizeModifiers_free s : modifierFree (normalizeModifiers s).
Proof.
  unfold normalizeModifiers, modifierFree.
  repeat split.
  - do 3 (apply (replaceAll_keeps_free 77 45); [done|done|]).
    by apply (replaceAll_makes_free 77 45).
  - do 2 (apply (replaceAll_keeps_free 67 45); [done|done|]).
    by apply (replaceAll_makes_free 67 45).
  - apply (replaceAll_keeps_free 83 45); [done|done|].
    by apply (replaceAll_makes_free 83 45).
Qed.

Lemma normalizeSpecialKeys_free s :
  modifierFree s -> modifierFree (normalizeSpecialKeys s).
Proof.
  intros (HM & HC & HS). unfold normalizeSpecialKeys.
  repeat split.
  - by apply (foldl_replaceAll_keeps_free 77 45).
  - by apply (foldl_replaceAll_keeps_free 67 45).
  - by apply (foldl_replaceAll_keeps_free 83 45).
Qed.

Lemma stripNegated_free s : modifierFree s -> stripNegated s = s.
Proof.
  intros (HM & HC & HS). unfold stripNegated.
  assert (E1 : replaceAll (js "~S-") [] s = s).
  { apply replaceAll_absent.
    destruct (includes s (js "~S-")) eqn:E; [|done].
    assert (includes s (js "S-") = true)
      by exact (includes_tail s 126 [83; 45] E).
    congruence. }
  rewrite E1.
  assert (E2 : replaceAll (js "~C-") [] s = s).
  { apply replaceAll_absent.
    destruct (includes s (js "~C-")) eqn:E; [|done].
    assert (includes s (js "C-") = true)
      by exact (includes_tail s 126 [67; 45] E).
    congruence. }
  rewrite E2.
  apply replaceAll_absent.
  destruct (includes s (js "~M-")) eqn:E; [|done].
  assert (includes s (js "M-") = true)
    by exact (includes_tail s 126 [77; 45] E).
  congruence.
Qed.

(** The third group of replacements of [normalizeKeySequence] never
    finds a match: whatever the key-spec, its result is the one of the
    first two groups. *)
Lemma normalizeKeySequence_negated_kept keySpec :
  normalizeKeySequence keySpec
  = normalizeSpecialKeys (normalizeModifiers keySpec).
Proof.
  unfold normalizeKeySequence. apply stripNegated_free.
  apply normalizeSpecialKeys_free, normalizeModifiers_free.
Qed.

(** C2.  [S-] has become [Shift+] before the replacement of [~S-] is
    tried, and likewise for [~C-] and [~M-]: the negated prefix is
    never stripped, and a modifier is emitted for it. *)
Theorem negated_modifier_is_not_stripped :
  normalizeKeySequence (js "~S-slash") = js "~Shift+slash"
  /\ normalizeKeySequence (js "~C-a") = js "~Ctrl+a"
  /\ normalizeKeySequence (js "~M-a") = js "~Alt+a"
  /\ forall keySpec,
       normalizeKeySequence keySpec
       = normalizeSpecialKeys (normalizeModifiers keySpec).
Proof.
  repeat split; try reflexivity. apply normalizeKeySequence_negated_kept.
Qed.

(** *** The first two groups of replacements, step by step *)

Lemma plainRule_spec pat rep :
  plainRule (pat, rep) = true ->
  pat <> [] /\ rep <> [] /\ (SPACE ∉ pat)
  /\ Forall (fun c => isWhiteSpace c = false) rep.
Proof.
  unfold plainRule. cbn [fst snd]. rewrite !andb_true_iff, !negb_true_iff.
  intros [[[H1 H2] H3] H4]. apply str_eqb_neq in H1, H2.
  repeat split; [done..| |].
  - intros Hin. rewrite forallb_forall in H3.
    apply list_elem_of_In, H3 in Hin. done.
  - apply Forall_forall. intros c Hc. rewrite forallb_forall in H4.
    apply list_elem_of_In, H4 in Hc. by apply negb_true_iff.
Qed.

Lemma replaceEach_join rules ws :
  forallb plainRule rules = true ->
  replaceEach rules (join [SPACE] ws) = join [SPACE] (replaceEach rules <$> ws).
Proof.
  revert ws; induction rules as [|[pat rep] rules IH]; intros ws Hr.
  - cbn. by rewrite list_fmap_id.
  - cbn [forallb] in Hr. apply andb_true_iff in Hr as [Hrule Hr].
    apply plainRule_spec in Hrule as (Hpat & _ & Hsp & _).
    unfold replaceEach in *. cbn [foldl].
    rewrite replaceAll_join by done. rewrite IH by done.
    by rewrite <- list_fmap_compose.
Qed.

Lemma replaceEach_step rules w :
  forallb plainRule rules = true ->
  w <> [] /\ Forall (fun c => isWhiteSpace c = false) w ->
  replaceEach rules w <> []
  /\ Forall (fun c => isWhiteSpace c = false) (replaceEach rules w).
Proof.
  revert w; induction rules as [|[pat rep] rules IH]; intros w Hr Hw; [done|].
  cbn [forallb] in Hr. apply andb_true_iff in Hr as [Hrule Hr].
  apply plainRule_spec in Hrule as (Hpat & Hrep & _ & Hplain).
  unfold replaceEach in *. cbn [foldl]. apply IH; [done|].
  destruct Hw as [Hne Hw]. split.
  - by apply replaceAll_nonempty.
  - by apply replaceAll_Forall.
Qed.

Lemma normalizeKeySequence_step keySpec :
  normalizeKeySequence keySpec = normalizeStep keySpec.
Proof.
  rewrite normalizeKeySequence_negated_kept.
  unfold normalizeStep, replaceEach. by rewrite foldl_app.
Qed.

Lemma normalizeKeySequence_join steps :
  normalizeKeySequence (join [SPACE] steps)
  = join [SPACE] (normalizeStep <$> steps).
Proof.
  rewrite normalizeKeySequence_step. by apply replaceEach_join.
Qed.

Lemma join_head sep w ws : w <> [] -> head (join sep (w :: ws)) = head w.
Proof. destruct w; [done|]. by destruct ws. Qed.

Lemma join_last sep ws w :
  last ws = Some w -> w <> [] -> last (join sep ws) = last w.
Proof.
  induction ws as [|v ws IH]; [done|]. intros Hl Hw.
  destruct ws as [|v' ws]; [by injection Hl as ->|].
  rewrite join_cons by done. rewrite !last_app.
  cbn [last] in Hl. rewrite (IH Hl Hw).
  destruct w as [|c w]; [done|].
  by destruct (last (c :: w)) eqn:E; [|apply last_None in E].
Qed.

(** A serialization made of steps without whitespace has the steps as
    its tokens and as its whitespace-separated elements, and no space
    at either end. *)
Lemma steps_serialization steps :
  steps <> [] ->
  Forall (fun w => w <> [] /\ Forall (fun c => isWhiteSpace c = false) w) steps ->
  tokens (join [SPACE] steps) = steps
  /\ whitespaceElements (join [SPACE] steps) = steps
  /\ head (join [SPACE] steps) <> Some SPACE
  /\ last (join [SPACE] steps) <> Some SPACE.
Proof.
  intros Hne Hsteps. repeat split.
  - unfold tokens, split. apply splitWhere_join; [done..|].
    eapply Forall_impl; [exact Hsteps|]. intros w [_ Hw].
    eapply Forall_impl; [exact Hw|]. intros c Hc. cbn beta.
    apply N.eqb_neq. intros ->. done.
  - unfold whitespaceElements. rewrite splitWhere_join; [|done..|].
    + clear Hne. induction Hsteps as [|w ws [Hw _] _ IH]; [done|].
      cbn [List.filter]. apply str_eqb_neq in Hw. rewrite Hw. cbn [negb].
      by rewrite IH.
    + eapply Forall_impl; [exact Hsteps|]. by intros w [_ Hw].
  - destruct steps as [|w ws]; [done|].
    apply Forall_cons in Hsteps as [[Hw Hplain] _].
    rewrite join_head by done. destruct w as [|c w]; [done|].
    apply Forall_cons in Hplain as [Hc _]. cbn. by intros [= ->].
  - destruct (last steps) as [w|] eqn:El; [|by apply last_None in El].
    assert (Hin : w ∈ steps) by (by apply last_Some_elem_of).
    rewrite Forall_forall in Hsteps. destruct (Hsteps w Hin) as [Hw Hplain].
    rewrite (join_last _ _ w) by done.
    destruct (last w) as [c|] eqn:Ec; [|done].
    apply last_Some_elem_of in Ec. rewrite Forall_forall in Hplain.
    specialize (Hplain c Ec). by intros [= ->].
Qed.

(** ** Commands *)

(** C1.  The test for [insert] anywhere in the command comes before the
    tests for [quote-insert] and [specialchar-insert], so these
    commands get the text after their first word, not the quote or the
    special character. *)
Theorem insert_test_precedes_quote_and_specialchar :
  (forall rest,
     parseCommand (js "quote-insert" ++ rest)
     = Insert (Str (extractInsertText (js "quote-insert" ++ rest))))
  /\ (forall rest,
        parseCommand (js "specialchar-insert" ++ rest)
        = Insert (Str (extractInsertText (js "specialchar-insert" ++ rest))))
  /\ parseCommand (js "quote-insert outer") = Insert (Str (js "outer"))
  /\ parseCommand (js "quote-insert") = Insert (Str [])
  /\ parseCommand (js "specialchar-insert dots") = Insert (Str (js "dots"))
  /\ parseCommand (js "specialchar-insert hyphenation")
     = Insert (Str (js "hyphenation")).
Proof. repeat split; intros; reflexivity. Qed.

(** ** Binding lines *)

Lemma span_run f run x rest :
  Forall (fun c => f c = true) run -> f x = false ->
  span f (run ++ x :: rest) = (run, x :: rest).
Proof.
  intros Hrun Hx. induction Hrun as [|c run Hc _ IH]; cbn [app span].
  - by rewrite Hx.
  - by rewrite Hc, IH.
Qed.

Lemma whiteSpaces_run ws rest :
  ws <> [] -> Forall (fun c => isWhiteSpace c = true) ws ->
  whiteSpaces (ws ++ QUOTE :: rest) = Some (QUOTE :: rest).
Proof.
  intros Hne Hws. unfold whiteSpaces. rewrite span_run by done.
  by destruct ws.
Qed.

Lemma quotedField_run field rest :
  field <> [] -> Forall (fun c => c <> QUOTE) field ->
  quotedField (QUOTE :: field ++ QUOTE :: rest) = Some (field, rest).
Proof.
  intros Hne Hfield. unfold quotedField. cbn [stripPrefix].
  rewrite N.eqb_refl. cbn [mbind option_bind].
  rewrite span_run; [by destruct field|..|done].
  eapply Forall_impl; [exact Hfield|]. intros c Hc. cbn beta.
  by apply negb_true_iff, N.eqb_neq.
Qed.

Lemma blank_spaces ws : blank ws -> Forall (fun c => isWhiteSpace c = true) ws.
Proof. intros [_ H]. eapply Forall_impl; [exact H|]. by intros c [? _]. Qed.

Lemma bindRegex_bindingLine ws1 keySpec ws2 commandSpec :
  blank ws1 -> blank ws2 ->
  keySpec <> [] -> Forall (fun c => c <> QUOTE) keySpec ->
  commandSpec <> [] -> Forall (fun c => c <> QUOTE) commandSpec ->
  bindRegex (bindingLine ws1 keySpec ws2 commandSpec)
  = Some (keySpec, commandSpec).
Proof.
  intros H1 H2 Hk Hkq Hc Hcq.
  assert (Hat : bindRegex_at (bindingLine ws1 keySpec ws2 commandSpec)
                = Some (keySpec, commandSpec)).
  { unfold bindRegex_at, bindingLine.
    change (stripPrefix (js "\bind") (js "\bind" ++ ?r)) with (Some r).
    cbn [mbind option_bind app].
    rewrite (whiteSpaces_run ws1) by (apply H1 || by apply blank_spaces).
    cbn [mbind option_bind].
    rewrite quotedField_run by done. cbn [mbind option_bind].
    rewrite (whiteSpaces_run ws2) by (apply H2 || by apply blank_spaces).
    cbn [mbind option_bind].
    by rewrite quotedField_run. }
  destruct (bindingLine ws1 keySpec ws2 commandSpec); cbn [bindRegex];
    by rewrite Hat.
Qed.

Lemma trim_ends c s d :
  isWhiteSpace c = false -> isWhiteSpace d = false ->
  trim (c :: s ++ [d]) = c :: s ++ [d].
Proof.
  intros Hc Hd. unfold trim, trimEnd. cbn [trimStart]. rewrite Hc.
  rewrite reverse_cons, reverse_app. cbn [reverse app].
  change (reverse [d]) with [d]. cbn [app trimStart]. rewrite Hd.
  change (d :: reverse s ++ [c]) with ([d] ++ reverse s ++ [c]).
  rewrite !reverse_app, reverse_involutive. by rewrite <- app_assoc.
Qed.

Lemma bindingLine_ends ws1 keySpec ws2 commandSpec :
  bindingLine ws1 keySpec ws2 commandSpec
  = [92] ++ (js "bind" ++ ws1 ++ [QUOTE] ++ keySpec ++ [QUOTE]
           ++ ws2 ++ [QUOTE] ++ commandSpec) ++ [QUOTE].
Proof.
  unfold bindingLine. change (js "\bind") with ([92] ++ js "bind").
  by rewrite <- !app_assoc.
Qed.

Lemma trim_bindingLine ws1 keySpec ws2 commandSpec :
  trim (bindingLine ws1 keySpec ws2 commandSpec)
  = bindingLine ws1 keySpec ws2 commandSpec.
Proof. rewrite bindingLine_ends. by apply (trim_ends 92 _ QUOTE). Qed.

Lemma split_bindingLine ws1 keySpec ws2 commandSpec :
  blank ws1 -> blank ws2 ->
  Forall (fun c => c <> LF) keySpec -> Forall (fun c => c <> LF) commandSpec ->
  split LF (bindingLine ws1 keySpec ws2 commandSpec)
  = [bindingLine ws1 keySpec ws2 commandSpec].
Proof.
  intros [_ H1] [_ H2] Hk Hc. unfold split. apply splitWhere_none.
  assert (Hnot : forall l, Forall (fun c => c <> LF) l ->
                           Forall (fun c => (c =? LF) = false) l).
  { intros l Hl. eapply Forall_impl; [exact Hl|].
    intros c ?. by apply N.eqb_neq. }
  unfold bindingLine. repeat apply Forall_app_2; try by apply Hnot.
  - by repeat constructor.
  - apply Hnot. eapply Forall_impl; [exact H1|]. by intros c [_ ?].
  - by repeat constructor.
  - by repeat constructor.
  - apply Hnot. eapply Forall_impl; [exact H2|]. by intros c [_ ?].
  - by repeat constructor.
  - by repeat constructor.
Qed.

(** A binding line compiles to the one binding of its two fields. *)
Lemma parse_bindingLine ws1 keySpec ws2 commandSpec :
  blank ws1 -> blank ws2 -> fieldText keySpec -> fieldText commandSpec ->
  (parse (bindingLine ws1 keySpec ws2 commandSpec)).1
  = [(normalizeKeySequence keySpec,
      {| keySequence := normalizeKeySequence keySpec;
         originalKeySequence := keySpec;
         command := commandSpec;
         action := parseCommand commandSpec |})].
Proof.
  intros H1 H2 [Hk Hkf] [Hc Hcf].
  assert (Hkq : Forall (fun c => c <> QUOTE) keySpec)
    by (eapply Forall_impl; [exact Hkf|]; by intros c [? _]).
  assert (Hcq : Forall (fun c => c <> QUOTE) commandSpec)
    by (eapply Forall_impl; [exact Hcf|]; by intros c [? _]).
  assert (Hkl : Forall (fun c => c <> LF) keySpec)
    by (eapply Forall_impl; [exact Hkf|]; by intros c [_ ?]).
  assert (Hcl : Forall (fun c => c <> LF) commandSpec)
    by (eapply Forall_impl; [exact Hcf|]; by intros c [_ ?]).
  unfold parse. rewrite split_bindingLine by done.
  cbn [parseLines]. unfold parseLine. rewrite trim_bindingLine.
  unfold parseBindLine. rewrite bindRegex_bindingLine by done.
  reflexivity.
Qed.

Lemma stepText_fieldText steps :
  steps <> [] -> Forall stepText steps -> fieldText (join [SPACE] steps).
Proof.
  intros Hne Hsteps. split.
  - destruct steps as [|w ws]; [done|].
    apply Forall_cons in Hsteps as [[Hw _] _].
    destruct w; [done|]. by destruct ws.
  - clear Hne. induction Hsteps as [|w ws [_ Hw] Hws IH]; [done|].
    assert (Hw' : Forall (fun c => c <> QUOTE /\ c <> LF) w).
    { eapply Forall_impl; [exact Hw|]. intros c [Hs Hq]. split; [done|].
      by intros ->. }
    destruct ws as [|w' ws]; [done|].
    rewrite join_cons by done. apply Forall_app. split; [done|].
    apply Forall_app. split; [by repeat constructor | done].
Qed.

(** C5, as the code has it.  A binding line whose key-spec is made of
    steps without whitespace, separated by single spaces, compiles to
    exactly one binding; its serialization is the normalized key-spec,
    has no space at either end, and has as many tokens as the
    normalized key-spec has whitespace-separated elements. *)
Theorem single_spaced_line_compiles_to_one_binding
  ws1 ws2 steps commandSpec :
  blank ws1 -> blank ws2 ->
  steps <> [] -> Forall stepText steps ->
  fieldText commandSpec ->
  compiledAsOne (bindingLine ws1 (join [SPACE] steps) ws2 commandSpec)
                (join [SPACE] steps)
  /\ map_keys (parse (bindingLine ws1 (join [SPACE] steps) ws2 commandSpec)).1
     = [normalizeKeySequence (join [SPACE] steps)]
  /\ length (tokens (normalizeKeySequence (join [SPACE] steps)))
     = length steps.
Proof.
  intros H1 H2 Hne Hsteps Hc.
  pose proof (parse_bindingLine ws1 (join [SPACE] steps) ws2 commandSpec
                H1 H2 (stepText_fieldText steps Hne Hsteps) Hc) as Hparse.
  assert (Hnorm : Forall (fun w => w <> []
                    /\ Forall (fun c => isWhiteSpace c = false) w)
                    (normalizeStep <$> steps)).
  { apply Forall_fmap. eapply Forall_impl; [exact Hsteps|].
    intros w [Hw Hplain]. apply replaceEach_step; [done|].
    split; [done|]. eapply Forall_impl; [exact Hplain|]. by intros c [? _]. }
  assert (Hne' : normalizeStep <$> steps <> []) by by destruct steps.
  destruct (steps_serialization _ Hne' Hnorm) as (Ht & Hw & Hh & Hl).
  rewrite <- normalizeKeySequence_join in Ht, Hw, Hh, Hl.
  split; [|split].
  - exists (mkBinding (normalizeKeySequence (join [SPACE] steps))
              (join [SPACE] steps) commandSpec (parseCommand commandSpec)).
    split; [exact Hparse|]. cbn [keySequence].
    repeat split; [done..|]. by rewrite Ht, Hw.
  - by rewrite Hparse.
  - rewrite Ht. by rewrite length_fmap.
Qed.

Lemma single_spaced_line_witness :
  compiledAsOne (bindingLine (js " ") (js "M-m g a") (js " ")
                   (js "math-insert \alpha"))
                (js "M-m g a")
  /\ map_keys (parse (bindingLine (js " ") (js "M-m g a") (js " ")
                        (js "math-insert \alpha"))).1
     = [normalizeKeySequence (js "M-m g a")]
  /\ length (tokens (normalizeKeySequence (js "M-m g a"))) = 3%nat.
Proof.
  apply (single_spaced_line_compiles_to_one_binding
           (js " ") (js " ") [js "M-m"; js "g"; js "a"]
           (js "math-insert \alpha")).
  - split; [done | by repeat constructor].
  - split; [done | by repeat constructor].
  - done.
  - repeat constructor; done.
  - split; [done | repeat constructor; done].
Defined.

(** C5, as stated, fails on a key-spec that starts with a space: the
    serialization keeps the space. *)
Lemma leading_space_is_kept :
  ~ compiledAsOne (bindingLine (js " ") (js " M-m") (js " ") (js "x"))
                  (js " M-m").
Proof.
  intros ([key original text act] & Hparse & Hhead & _).
  cbn [keySequence] in *. vm_compute in Hparse.
  injection Hparse as <-. by apply Hhead.
Qed.

(** ** Malformed lines *)

Lemma parseBindLine_returns line :
  exists logs result, parseBindLine line = (logs, Normal result).
Proof.
  unfold parseBindLine. destruct (bindRegex line) as [[k c]|]; eauto.
Qed.

Lemma parseLine_number n n' line bindings :
  parseLine n line bindings = parseLine n' line bindings.
Proof.
  unfold parseLine.
  destruct (parseBindLine_returns (trim line)) as (logs & result & ->).
  done.
Qed.

Lemma parseLines_number n n' lines bindings :
  parseLines n lines bindings = parseLines n' lines bindings.
Proof.
  revert n n' bindings; induction lines as [|line lines IH];
    intros n n' bindings; [done|].
  cbn [parseLines]. rewrite (parseLine_number (S n) (S n')).
  destruct (parseLine (S n') line bindings) as [b1 l1].
  by rewrite (IH (S n) (S n')).
Qed.

(** C4.  A malformed binding line is skipped and reported, but the
    report does not tell its number: the call of the logger gives the
    text of the line only, and the logger calls of [parse] are the same
    wherever the line stands in the text. *)
Theorem malformed_line_reported_without_number :
  parse (js "\bind foo")
  = ([], [mkLog LWarn (js "Invalid bind line format: \bind foo");
          mkLog LInfo (js "Parsed 0 key bindings from LyX file")])
  /\ parse ([LF; LF] ++ js "\bind foo") = parse (js "\bind foo")
  /\ forall n n' lines bindings,
       parseLines n lines bindings = parseLines n' lines bindings.
Proof.
  split; [reflexivity|]. split; [reflexivity|]. apply parseLines_number.
Qed.

(** ** Export and import *)

Lemma map_set_fresh {V} k (v : V) (m : JsMap V) :
  k ∉ map_keys m -> map_set k v m = m ++ [(k, v)].
Proof.
  unfold map_keys. induction m as [|[k' v'] m IH]; [done|].
  cbn [fmap list_fmap fst map_set app].
  intros [Hne Hk]%not_elem_of_cons.
  assert (E : str_eqb k' k = false) by (by apply str_eqb_neq).
  rewrite E. by rewrite IH.
Qed.

Lemma map_set_keys {V} k (v : V) (m : JsMap V) x :
  x ∈ map_keys (map_set k v m) <-> x = k \/ x ∈ map_keys m.
Proof.
  unfold map_keys. induction m as [|[k' v'] m IH]; cbn [map_set].
  - cbn. rewrite list_elem_of_singleton, elem_of_nil. tauto.
  - destruct (str_eqb k' k) eqn:E; cbn [fmap list_fmap fst].
    + apply str_eqb_eq in E as ->. rewrite !elem_of_cons. tauto.
    + rewrite !elem_of_cons, IH. tauto.
Qed.

Lemma map_set_NoDup {V} k (v : V) (m : JsMap V) :
  NoDup (map_keys m) -> NoDup (map_keys (map_set k v m)).
Proof.
  unfold map_keys. induction m as [|[k' v'] m IH]; cbn [map_set].
  - intros _. cbn. apply NoDup_singleton.
  - cbn [fmap list_fmap fst]. intros [Hk' Hm]%NoDup_cons.
    destruct (str_eqb k' k) eqn:E; cbn [fmap list_fmap fst].
    + apply str_eqb_eq in E as ->. by apply NoDup_cons.
    + apply NoDup_cons. split; [|by apply IH].
      intros [->|?]%(map_set_keys k v m k'); [|done].
      by rewrite str_eqb_refl in E.
Qed.

Lemma foldl_map_set_app {V} (acc T : JsMap V) :
  NoDup (map_keys (acc ++ T)) ->
  foldl (fun m '(k, v) => map_set k v m) acc T = acc ++ T.
Proof.
  revert acc; induction T as [|[k v] T IH]; intros acc Hnd.
  - by rewrite app_nil_r.
  - cbn [foldl].
    assert (Hk : k ∉ map_keys acc).
    { unfold map_keys in *. rewrite fmap_app in Hnd.
      apply NoDup_app in Hnd as (_ & Hd & _). intros Hin.
      apply (Hd k Hin). left. }
    rewrite map_set_fresh by done. rewrite IH; rewrite <- app_assoc; done.
Qed.

Lemma parse_NoDup content : NoDup (map_keys (parse content).1).
Proof.
  unfold parse.
  assert (H : forall lines n bindings,
             NoDup (map_keys bindings) ->
             NoDup (map_keys (parseLines n lines bindings).1)).
  { induction lines as [|line lines IH]; intros n bindings Hb; [done|].
    cbn [parseLines].
    destruct (parseLine (S n) line bindings) as [b1 l1] eqn:E1.
    specialize (IH (S n) b1).
    destruct (parseLines (S n) lines b1) as [b2 l2]. cbn [fst] in *.
    apply IH. unfold parseLine in E1.
    destruct (_ || _); [by injection E1 as <- _|].
    destruct (startsWith _ _); [|by injection E1 as <- _].
    destruct (parseBindLine (trim line)) as [logs [[b|]|]];
      injection E1 as <- _; [|done..].
    by apply map_set_NoDup. }
  specialize (H (split LF content) 0%nat []).
  destruct (parseLines 0 (split LF content) []) as [b l].
  apply H. apply NoDup_nil_2.
Qed.

Lemma exportBindings_ownProps T :
  NoDup (map_keys T) -> js "__proto__" ∉ map_keys T ->
  exportBindings T = {| ownProps := T; prototype := None |}.
Proof.
  unfold exportBindings, emptyObject.
  change T with ([] ++ T) at 1 4. generalize (@nil (jsstring * Binding)).
  induction T as [|[k v] T IH]; intros acc Hnd Hp.
  - by rewrite app_nil_r.
  - cbn [foldl]. unfold object_assign at 2. cbn [ownProps prototype].
    unfold map_keys in Hp. cbn [fmap list_fmap fst] in Hp.
    apply not_elem_of_cons in Hp as [Hne Hp].
    assert (E : str_eqb k (js "__proto__") = false)
      by (by apply str_eqb_neq).
    rewrite E.
    assert (Hk : k ∉ map_keys acc).
    { unfold map_keys in *. rewrite fmap_app in Hnd.
      apply NoDup_app in Hnd as (_ & Hd & _). intros Hin.
      apply (Hd k Hin). left. }
    rewrite map_set_fresh by done.
    replace (acc ++ (k, v) :: T) with ((acc ++ [(k, v)]) ++ T)
      by (by rewrite <- app_assoc).
    apply IH; [by rewrite <- app_assoc | done].
Qed.

Lemma insertByIndex_Permutation e l : insertByIndex e l ≡ₚ e :: l.
Proof.
  induction l as [|e' l IH]; [done|]. cbn [insertByIndex].
  destruct (fst e <=? fst e'); [done|]. rewrite IH. apply Permutation_swap.
Qed.

Lemma entries_Permutation o : entries o ≡ₚ ownProps o.
Proof.
  unfold entries. induction (ownProps o) as [|e l IH]; [done|].
  cbn [omap list_omap List.filter].
  destruct (arrayIndex (fst e)) as [i|] eqn:E; cbn [mbind option_bind].
  - rewrite bool_decide_eq_false_2 by done. cbn [foldr].
    rewrite insertByIndex_Permutation. cbn [fmap list_fmap snd app].
    by rewrite IH.
  - rewrite bool_decide_eq_true_2 by done.
    rewrite <- Permutation_middle. by rewrite IH.
Qed.

(** The round trip keeps every binding of a compiled table that has no
    sequence [__proto__]; the order of the entries may change. *)
Lemma round_trip_without_proto content :
  js "__proto__" ∉ map_keys (parse content).1 ->
  (importBindings (exportBindings (parse content).1)).1
  ≡ₚ (parse content).1.
Proof.
  intros Hp. pose proof (parse_NoDup content) as Hnd.
  rewrite exportBindings_ownProps by done.
  unfold importBindings. cbn [fst].
  set (o := {| ownProps := (parse content).1; prototype := None |}).
  pose proof (entries_Permutation o) as He.
  rewrite (foldl_map_set_app [] (entries o)).
  - exact He.
  - cbn [app]. unfold map_keys. by rewrite He.
Qed.

(** C7.  A table that binds the sequence [__proto__] does not survive
    the round trip: the assignment in [exportBindings] sets the
    prototype of the exported object, which has no own property then,
    and [importBindings] brings back an empty table. *)
Theorem round_trip_drops_proto_binding :
  let T := (parse (bindingLine (js " ") (js "__proto__") (js " ")
                     (js "self-insert x"))).1 in
  map_keys T = [js "__proto__"]
  /\ ownProps (exportBindings T) = []
  /\ (importBindings (exportBindings T)).1 = [].
Proof. repeat split; reflexivity. Qed.

(** ** Conflicts *)

Lemma strictPrefix_agree (p1 p2 : list jsstring) :
  strictPrefix p1 p2 <->
  (length p1 < length p2)%nat
  /\ forall i, (i < length p1)%nat -> p1 !! i = p2 !! i.
Proof.
  split.
  - intros (k & Hk & ->). split.
    + rewrite length_app. destruct k; [done|]. cbn [length]. lia.
    + intros i Hi. by rewrite lookup_app_l.
  - intros [Hlen Hi]. exists (drop (length p1) p2). split.
    + intros E. apply (f_equal length) in E.
      rewrite length_drop in E. cbn in E. lia.
    + rewrite <- (take_drop (length p1) p2) at 1. f_equal.
      apply list_eq. intros i.
      destruct (decide (i < length p1)%nat) as [Hlt|Hge].
      * rewrite lookup_take_lt by done. by rewrite Hi.
      * rewrite lookup_take_ge by lia. symmetry. apply lookup_ge_None. lia.
Qed.

Lemma hasConflict_agree seq1 seq2 :
  hasConflict seq1 seq2 = true <->
  length (tokens seq1) <> length (tokens seq2)
  /\ forall i, (i < Nat.min (length (tokens seq1)) (length (tokens seq2)))%nat ->
       tokens seq1 !! i = tokens seq2 !! i.
Proof.
  unfold hasConflict. fold (tokens seq1) (tokens seq2).
  set (p1 := tokens seq1). set (p2 := tokens seq2).
  destruct (forallb _ _) eqn:E.
  - rewrite negb_true_iff, Nat.eqb_neq.
    rewrite forallb_forall in E. split; [|tauto].
    intros Hlen. split; [done|]. intros i Hi.
    specialize (E i). rewrite in_seq in E.
    destruct (lookup_lt_is_Some_2 p1 i) as [a Ha]; [lia|].
    destruct (lookup_lt_is_Some_2 p2 i) as [b Hb]; [lia|].
    rewrite Ha, Hb in *. f_equal. apply str_eqb_eq, E. lia.
  - split; [done|]. intros [_ Hi]. exfalso.
    apply not_true_iff_false in E. apply E.
    apply forallb_forall. intros i [_ Hlt]%in_seq.
    rewrite <- (Hi i) by lia.
    destruct (p1 !! i); [apply str_eqb_refl | done].
Qed.

(** [hasConflict] decides the conflict of two sequences. *)
Lemma hasConflict_spec seq1 seq2 :
  hasConflict seq1 seq2 = true <-> conflicting seq1 seq2.
Proof.
  rewrite hasConflict_agree. unfold conflicting.
  rewrite !strictPrefix_agree. split.
  - intros [Hlen Hi].
    destruct (decide (length (tokens seq1) < length (tokens seq2))%nat).
    + left. split; [done|]. intros i ?. apply Hi. lia.
    + right. split; [lia|]. intros i ?. symmetry. apply Hi. lia.
  - intros [[Hlen Hi]|[Hlen Hi]].
    + split; [lia|]. intros i ?. apply Hi. lia.
    + split; [lia|]. intros i ?. symmetry. apply Hi. lia.
Qed.

Lemma conflicting_sym seq1 seq2 : conflicting seq1 seq2 <-> conflicting seq2 seq1.
Proof. unfold conflicting. tauto. Qed.

Lemma hasConflict_sym seq1 seq2 : hasConflict seq1 seq2 = hasConflict seq2 seq1.
Proof.
  apply eq_true_iff_eq. rewrite !hasConflict_spec. apply conflicting_sym.
Qed.

Lemma conflictPairs_sound sequences a b :
  (a, b) ∈ conflictPairs sequences ->
  a ∈ sequences /\ b ∈ sequences /\ hasConflict a b = true.
Proof.
  induction sequences as [|k ks IH]; cbn [conflictPairs].
  - by intros ?%elem_of_nil.
  - intros [H|H]%elem_of_app.
    + apply list_elem_of_fmap in H as (x & [= -> ->] & Hx).
      apply list_elem_of_In, filter_In in Hx as [Hx Hc].
      apply list_elem_of_In in Hx.
      repeat split; [left | by right | done].
    + destruct (IH H) as (? & ? & ?). repeat split; [by right..|done].
Qed.

Lemma conflictPairs_complete sequences a b :
  a ∈ sequences -> b ∈ sequences -> a <> b -> hasConflict a b = true ->
  flagged sequences a b.
Proof.
  unfold flagged. intros Ha Hb Hne Hc.
  induction sequences as [|k ks IH]; [by apply elem_of_nil in Ha|].
  cbn [conflictPairs]. rewrite !elem_of_app.
  apply elem_of_cons in Ha as [->|Ha]; apply elem_of_cons in Hb as [->|Hb].
  - done.
  - left; left. apply list_elem_of_fmap. exists b. split; [done|].
    apply list_elem_of_In, filter_In. by rewrite <- list_elem_of_In.
  - right; left. apply list_elem_of_fmap. exists a. split; [done|].
    apply list_elem_of_In, filter_In. rewrite <- list_elem_of_In.
    by rewrite hasConflict_sym.
  - destruct (IH Ha Hb); [left | right]; by right.
Qed.

Lemma flagged_spec sequences seq1 seq2 :
  seq1 ∈ sequences -> seq2 ∈ sequences -> seq1 <> seq2 ->
  flagged sequences seq1 seq2 <-> conflicting seq1 seq2.
Proof.
  intros H1 H2 Hne. rewrite <- hasConflict_spec. split.
  - intros [H|H]; apply conflictPairs_sound in H as (_ & _ & H); [done|].
    by rewrite hasConflict_sym.
  - by apply conflictPairs_complete.
Qed.

Lemma set_add_elem x y s : x ∈ set_add y s <-> x = y \/ x ∈ s.
Proof.
  unfold set_add. destruct (existsb (str_eqb y) s) eqn:E.
  - split; [by right|]. intros [->|?]; [|done].
    apply existsb_exists in E as (z & Hz & ->%str_eqb_eq).
    by apply list_elem_of_In.
  - rewrite elem_of_app, list_elem_of_singleton. tauto.
Qed.

Lemma foldl_set_add_elem (found : list (jsstring * jsstring)) acc d :
  d ∈ foldl (fun s c => set_add (describeConflict c) s) acc found
  <-> d ∈ acc \/ exists c, c ∈ found /\ d = describeConflict c.
Proof.
  revert acc; induction found as [|c found IH]; intros acc; cbn [foldl].
  - split; [by left|]. intros [?|(c & Hc & _)]; [done|].
    by apply elem_of_nil in Hc.
  - rewrite IH, set_add_elem. split.
    + intros [[->|?]|(c' & Hc' & ->)]; [right|by left|right].
      * exists c. split; [left | done].
      * exists c'. split; [by right | done].
    + intros [?|(c' & Hc' & ->)]; [by left; right|].
      apply elem_of_cons in Hc' as [->|Hc']; [by left; left|].
      right. by exists c'.
Qed.

(** The descriptions [detectConflicts] leaves in [conflicts] are the
    ones of the pairs its loops flag. *)
Lemma detectConflicts_conflicts m d :
  d ∈ conflicts (detectConflicts m).1
  <-> exists c, c ∈ conflictPairs (map_keys (bindings m))
                /\ d = describeConflict c.
Proof.
  unfold detectConflicts. cbn [fst conflicts].
  rewrite foldl_set_add_elem. split; [|by right].
  intros [Hin|?]; [by apply elem_of_nil in Hin | done].
Qed.

Lemma conflictPairs_spec sequences a b :
  (a, b) ∈ conflictPairs sequences
  <-> registeredBefore sequences a b /\ hasConflict a b = true.
Proof.
  unfold registeredBefore.
  induction sequences as [|k ks IH]; cbn [conflictPairs].
  - split; [by intros ?%elem_of_nil|]. intros [(l1 & l2 & l3 & E) _].
    by destruct l1.
  - rewrite elem_of_app, IH. split.
    + intros [H|[(l1 & l2 & l3 & ->) Hc]].
      * apply list_elem_of_fmap in H as (x & [= -> ->] & Hx).
        apply list_elem_of_In, filter_In in Hx as [Hx Hc].
        apply list_elem_of_In, list_elem_of_split in Hx as (l2 & l3 & ->).
        split; [|done]. by exists [], l2, l3.
      * split; [|done]. by exists (k :: l1), l2, l3.
    + intros [(l1 & l2 & l3 & E) Hc]. destruct l1 as [|k' l1].
      * cbn [app] in E. injection E as -> ->. left.
        apply list_elem_of_fmap. exists b. split; [done|].
        apply list_elem_of_In, filter_In. split; [|done].
        apply list_elem_of_In, elem_of_app. right. left.
      * cbn [app] in E. injection E as -> ->. right.
        split; [|done]. by exists l1, l2, l3.
Qed.

Lemma registeredBefore_total sequences a b :
  a ∈ sequences -> b ∈ sequences -> a <> b ->
  registeredBefore sequences a b \/ registeredBefore sequences b a.
Proof.
  intros Ha Hb Hne.
  apply list_elem_of_split in Ha as (l1 & l2 & ->).
  apply elem_of_app in Hb as [Hb|Hb].
  - right. apply list_elem_of_split in Hb as (l3 & l4 & ->).
    exists l3, l4, l2. by rewrite <- app_assoc.
  - apply elem_of_cons in Hb as [->|Hb]; [done|]. left.
    apply list_elem_of_split in Hb as (l3 & l4 & ->). by exists l1, l3, l4.
Qed.

(** A sequence that goes on behind the first sequence of a description
    as the description does has the token [<->]. *)
Lemma description_overlap a b c d :
  a ++ js " <-> " ++ b = c ++ js " <-> " ++ d ->
  (length a < length c)%nat -> js "<->" ∈ tokens c.
Proof.
  intros E Hlen.
  apply app_eq_app in E as [r [[-> E]|[-> E]]].
  - rewrite length_app in Hlen. lia.
  - assert (Hr : r <> []).
    { intros ->. rewrite app_nil_r in Hlen. lia. }
    clear Hlen.
    assert (Hc : exists rest, r = js " <->" ++ rest
                              /\ (rest = [] \/ head rest = Some SPACE)).
    { symmetry in E. apply app_eq_app in E as [l [[-> E]|[El E]]].
      - exists (SPACE :: l). split; [done | by right].
      - destruct r as [|r0 [|r1 [|r2 [|r3 [|r4 [|r5 r]]]]]];
          try done; cbn in El; injection El as; subst;
          cbn in E; try discriminate E.
        + exists []. split; [done | by left].
        + exists [SPACE]. split; [done | by right]. }
    destruct Hc as (rest & -> & Hrest).
    unfold tokens, split.
    change (js " <->" ++ rest) with (SPACE :: (js "<->" ++ rest)).
    rewrite splitWhere_app_sep by done.
    apply elem_of_app. right.
    destruct Hrest as [->|Hrest].
    + rewrite app_nil_r. vm_compute. left.
    + destruct rest as [|x rest]; [done|]. injection Hrest as ->.
      rewrite splitWhere_app_sep by done. apply elem_of_app. left.
      vm_compute. left.
Qed.

Lemma describeConflict_inj a b c d :
  js "<->" ∉ tokens a -> js "<->" ∉ tokens c ->
  describeConflict (a, b) = describeConflict (c, d) -> a = c /\ b = d.
Proof.
  unfold describeConflict. cbn [fst snd]. intros Ha Hc E.
  destruct (Nat.lt_trichotomy (length a) (length c)) as [Hlt|[Heq|Hgt]].
  - by apply description_overlap in E.
  - apply app_inj_1 in E as [-> E]; [|done].
    by apply app_inv_head in E.
  - symmetry in E. by apply description_overlap in E.
Qed.

Lemma reported_conflicting m seq1 seq2 :
  arrowFree (map_keys (bindings m)) ->
  seq1 ∈ map_keys (bindings m) -> seq2 ∈ map_keys (bindings m) ->
  reported m seq1 seq2 -> conflicting seq1 seq2.
Proof.
  unfold arrowFree. rewrite Forall_forall. intros Hfree H1 H2.
  assert (Hd : forall x y,
             x ∈ map_keys (bindings m) ->
             describeConflict (x, y) ∈ conflicts (detectConflicts m).1 ->
             conflicting x y).
  { intros x y Hx ([a b] & Hin & E)%detectConflicts_conflicts.
    apply conflictPairs_sound in Hin as (Ha & _ & Hc).
    apply describeConflict_inj in E as [-> ->]; [|by apply Hfree..].
    by apply hasConflict_spec. }
  intros [H|H]; [by apply Hd|]. apply conflicting_sym. by apply Hd.
Qed.

(** C6. [detectConflicts] flags two distinct registered sequences if
    and only if the tokens of one are a strict prefix of the tokens of
    the other, whatever the order in which the sequences were
    registered, and what it leaves in [conflicts] is exactly that: the
    conflicts are the descriptions of the conflicting pairs, each with
    the sequence first that was registered first, and nothing else.
    Where no sequence has the token [<->], so that a description names
    one pair only, the manager reports a pair if and only if it
    conflicts, and it reports the same pairs in whatever order the
    sequences were registered. *)
Theorem conflict_detection_strict_prefix (m : Manager) (seq1 seq2 : jsstring) :
  seq1 ∈ map_keys (bindings m) -> seq2 ∈ map_keys (bindings m) ->
  seq1 <> seq2 ->
  (flagged (map_keys (bindings m)) seq1 seq2 <-> conflicting seq1 seq2)
  /\ (conflicting seq1 seq2 ->
        describeConflict (seq1, seq2) ∈ conflicts (detectConflicts m).1
        \/ describeConflict (seq2, seq1) ∈ conflicts (detectConflicts m).1)
  /\ (forall m', map_keys (bindings m') ≡ₚ map_keys (bindings m) ->
        (flagged (map_keys (bindings m')) seq1 seq2
         <-> flagged (map_keys (bindings m)) seq1 seq2))
  /\ (forall d,
        d ∈ conflicts (detectConflicts m).1
        <-> exists a b,
              registeredBefore (map_keys (bindings m)) a b
              /\ conflicting a b /\ d = describeConflict (a, b))
  /\ (registeredBefore (map_keys (bindings m)) seq1 seq2 ->
      conflicting seq1 seq2 ->
      describeConflict (seq1, seq2) ∈ conflicts (detectConflicts m).1)
  /\ (arrowFree (map_keys (bindings m)) ->
      (reported m seq1 seq2 <-> conflicting seq1 seq2)
      /\ forall m', map_keys (bindings m') ≡ₚ map_keys (bindings m) ->
           (reported m' seq1 seq2 <-> reported m seq1 seq2)).
Proof.
  intros H1 H2 Hne.
  assert (Hall : forall m0 d,
             d ∈ conflicts (detectConflicts m0).1
             <-> exists a b,
                   registeredBefore (map_keys (bindings m0)) a b
                   /\ conflicting a b /\ d = describeConflict (a, b)).
  { intros m0 d. rewrite detectConflicts_conflicts. split.
    - intros ([a b] & [Hb Hc]%conflictPairs_spec & ->).
      exists a, b. by rewrite <- hasConflict_spec.
    - intros (a & b & Hb & Hc%hasConflict_spec & ->).
      exists (a, b). split; [by apply conflictPairs_spec | done]. }
  assert (Hrep : forall m0,
             seq1 ∈ map_keys (bindings m0) -> seq2 ∈ map_keys (bindings m0) ->
             conflicting seq1 seq2 -> reported m0 seq1 seq2).
  { intros m0 Hk1 Hk2 Hc.
    destruct (registeredBefore_total _ _ _ Hk1 Hk2 Hne) as [Hb|Hb];
      [left | right]; apply Hall.
    - by exists seq1, seq2.
    - exists seq2, seq1. by rewrite conflicting_sym. }
  split; [by apply flagged_spec|]. split; [by apply Hrep|]. split.
  { intros m' Hp. rewrite !flagged_spec; [done|done..| | |done].
    - by rewrite Hp.
    - by rewrite Hp. }
  split; [by apply Hall|]. split.
  { intros Hb Hc. apply Hall. by exists seq1, seq2. }
  intros Hfree. split.
  - split; [by apply reported_conflicting | by apply Hrep].
  - intros m' Hp.
    assert (Hfree' : arrowFree (map_keys (bindings m')))
      by (unfold arrowFree; by rewrite Hp).
    assert (H1' : seq1 ∈ map_keys (bindings m')) by (by rewrite Hp).
    assert (H2' : seq2 ∈ map_keys (bindings m')) by (by rewrite Hp).
    split; intros Hr.
    + apply Hrep; [done..|].
      exact (reported_conflicting m' _ _ Hfree' H1' H2' Hr).
    + apply Hrep; [done..|].
      exact (reported_conflicting m _ _ Hfree H1 H2 Hr).
Qed.


(** The pair of [Alt+m] and [Alt+m g] is flagged and reported in either
    order of registration, with the sequence first that was registered
    first; the pair of [Alt+m f] and [Alt+m g] is neither flagged nor
    reported. *)
Lemma conflict_detection_examples :
  ((flagged (map_keys (bindings (registered "M-m" "M-m g")))
      (js "Alt+m") (js "Alt+m g")
    /\ flagged (map_keys (bindings (registered "M-m g" "M-m")))
         (js "Alt+m") (js "Alt+m g"))
   /\ ~ flagged (map_keys (bindings (registered "M-m f" "M-m g")))
          (js "Alt+m f") (js "Alt+m g"))
  /\ (reported (registered "M-m" "M-m g") (js "Alt+m") (js "Alt+m g")
      /\ js "Alt+m <-> Alt+m g"
         ∈ conflicts (detectConflicts (registered "M-m" "M-m g")).1)
  /\ (reported (registered "M-m g" "M-m") (js "Alt+m") (js "Alt+m g")
      /\ js "Alt+m g <-> Alt+m"
         ∈ conflicts (detectConflicts (registered "M-m g" "M-m")).1)
  /\ ~ reported (registered "M-m f" "M-m g") (js "Alt+m f") (js "Alt+m g").
Proof.
  assert (Hc : conflicting (js "Alt+m") (js "Alt+m g"))
    by (by apply hasConflict_spec).
  assert (Hn : ~ conflicting (js "Alt+m f") (js "Alt+m g"))
    by (by rewrite <- hasConflict_spec).
  assert (Hfree : forall a b, Forall (fun s => js "<->" ∉ tokens s) [a; b] ->
                              arrowFree [a; b]) by done.
  assert (Ha1 : js "<->" ∉ tokens (js "Alt+m")).
  { intros Hin. vm_compute in Hin.
    repeat (apply elem_of_cons in Hin as [Hin|Hin]; [discriminate|]).
    by apply elem_of_nil in Hin. }
  assert (Ha2 : js "<->" ∉ tokens (js "Alt+m g")).
  { intros Hin. vm_compute in Hin.
    repeat (apply elem_of_cons in Hin as [Hin|Hin]; [discriminate|]).
    by apply elem_of_nil in Hin. }
  assert (Ha3 : js "<->" ∉ tokens (js "Alt+m f")).
  { intros Hin. vm_compute in Hin.
    repeat (apply elem_of_cons in Hin as [Hin|Hin]; [discriminate|]).
    by apply elem_of_nil in Hin. }
  destruct (conflict_detection_strict_prefix (registered "M-m" "M-m g")
              (js "Alt+m") (js "Alt+m g"))
    as (Hf1 & _ & _ & _ & Hd1 & Hr1);
    [vm_compute; repeat constructor..|done|].
  destruct (conflict_detection_strict_prefix (registered "M-m g" "M-m")
              (js "Alt+m g") (js "Alt+m"))
    as (Hf2 & _ & _ & _ & Hd2 & Hr2);
    [vm_compute; repeat constructor..|done|].
  destruct (conflict_detection_strict_prefix (registered "M-m f" "M-m g")
              (js "Alt+m f") (js "Alt+m g"))
    as (Hf3 & _ & _ & _ & _ & Hr3);
    [vm_compute; repeat constructor..|done|].
  destruct Hr1 as [Hr1 _]; [by repeat constructor|].
  destruct Hr2 as [Hr2 _]; [by repeat constructor|].
  destruct Hr3 as [Hr3 _]; [by repeat constructor|].
  split; [split; [split|]|split; [split|split; [split|]]].
  - by apply Hf1.
  - destruct Hf2 as [_ Hf2]. unfold flagged in *.
    destruct (Hf2 (proj2 (conflicting_sym _ _) Hc)); [by right | by left].
  - intros Hf. by apply Hn, Hf3.
  - by apply Hr1.
  - apply Hd1; [|done]. by exists [], [], [].
  - destruct (proj2 Hr2 (proj2 (conflicting_sym _ _) Hc)); [by right | by left].
  - apply Hd2; [|by apply conflicting_sym]. by exists [], [], [].
  - intros Hr. by apply Hn, Hr3.
Defined.

(** ** The table *)

Lemma map_get_None {V} k (m : JsMap V) :
  map_get k m = None <-> k ∉ map_keys m.
Proof.
  unfold map_keys. induction m as [|[k' v] m IH]; cbn [map_get fmap list_fmap fst].
  - split; [intros _; apply not_elem_of_nil | done].
  - rewrite not_elem_of_cons. destruct (str_eqb k' k) eqn:E.
    + apply str_eqb_eq in E as ->. split; [done | by intros [? _]].
    + apply str_eqb_neq in E. rewrite IH. split; [by split | by intros [_ ?]].
Qed.

(** ** The engine *)

Lemma filter_other_handles id (ts : list (positive * JsNumber)) :
  (forall t, t ∈ ts -> fst t = id) ->
  List.filter (fun t => negb (Pos.eqb (fst t) id)) ts = [].
Proof.
  induction ts as [|t ts IH]; intros H; [done|].
  cbn [List.filter]. rewrite (H t) by left. rewrite Pos.eqb_refl.
  cbn [negb]. apply IH. intros t' Ht'. apply H. by right.
Qed.

Lemma timersHeld_Some p id :
  timersHeld p -> timeoutId (this p) = Some id ->
  forall t, t ∈ timers p -> fst t = id.
Proof. intros Hheld Hid t Ht. specialize (Hheld t Ht). congruence. Qed.

Lemma timersHeld_None p :
  timersHeld p -> timeoutId (this p) = None -> timers p = [].
Proof.
  intros Hheld Hid. destruct (timers p) as [|t ts] eqn:Et; [done|].
  specialize (Hheld t). rewrite Et, Hid in Hheld.
  discriminate Hheld. left.
Qed.

Lemma resetSequence_Idle p : timersHeld p -> Idle (resetSequence p).1.
Proof.
  intros Hheld. unfold resetSequence, clearSequenceTimeout, Idle.
  cbn. destruct (timeoutId (this p)) as [id|] eqn:E; cbn.
  - repeat split. apply filter_other_handles. by apply timersHeld_Some.
  - repeat split; [done|]. by apply timersHeld_None.
Qed.

Lemma resetSequence_bindings p :
  bindings (this (resetSequence p).1) = bindings (this p).
Proof.
  unfold resetSequence, clearSequenceTimeout. cbn.
  by destruct (timeoutId (this p)).
Qed.

Lemma startSequenceTimeout_Pending p :
  timersHeld p -> currentSequence (this p) <> [] ->
  Pending (startSequenceTimeout p).
Proof.
  intros Hheld Hne. unfold startSequenceTimeout, clearSequenceTimeout, Pending.
  destruct (timeoutId (this p)) as [id|] eqn:E; cbn.
  - split; [done|]. eexists _, _. split; [done|].
    rewrite filter_other_handles; [done|]. by apply timersHeld_Some.
  - split; [done|]. eexists _, _. split; [done|].
    by rewrite timersHeld_None.
Qed.

Lemma Idle_timersHeld p : Idle p -> timersHeld p.
Proof. intros (_ & _ & Ht) t. rewrite Ht. by intros ?%elem_of_nil. Qed.

Lemma Pending_timersHeld p : Pending p -> timersHeld p.
Proof.
  intros (_ & id & d & Hid & Ht) t. rewrite Ht, Hid.
  by intros ->%list_elem_of_singleton.
Qed.

Lemma push_timersHeld k p : timersHeld p -> timersHeld (push k p).
Proof. done. Qed.

Lemma push_nonempty k p : currentSequence (this (push k p)) <> [].
Proof. cbn. by destruct (currentSequence (this p)). Qed.

Create HintDb engine.

#[local] Hint Resolve Idle_timersHeld Pending_timersHeld push_timersHeld
  push_nonempty : engine.

Lemma correspondence_timersHeld p : Idle p \/ Pending p -> timersHeld p.
Proof. intros [?|?]; eauto with engine. Qed.

#[local] Hint Resolve correspondence_timersHeld : engine.

Lemma correspondence_armed p :
  Idle p \/ Pending p -> (currentSequence (this p) <> [] <-> timers p <> []).
Proof.
  intros [(Hs & _ & Ht)|(Hs & id & d & _ & Ht)]; rewrite Ht.
  - by rewrite Hs.
  - done.
Qed.

(** A key the handler does not ignore: the guards of [handleKeyDown]
    are passed and the key is appended to the pending tokens. *)
Ltac accept_key Hen Hctx Htok :=
  unfold handleKeyDown; rewrite Hen; cbn [negb];
  apply orb_true_iff in Hctx;
  destruct (negb (isEditableContext _) && negb (isSpecialKey _)) eqn:?E;
    [ apply andb_true_iff in E as [?%negb_true_iff ?%negb_true_iff];
      destruct Hctx; congruence | ];
  apply str_eqb_neq in Htok; rewrite Htok;
  change (currentSequence (this (push ?k ?p)))
    with (currentSequence (this p) ++ [k]);
  change (bindings (this (push ?k ?p))) with (bindings (this p)).

Section Engine.

Variable toLowerCase : jsstring -> jsstring.

Lemma handleKeyDown_correspondence inserter event p :
  Idle p \/ Pending p ->
  Idle (handleKeyDown toLowerCase inserter event p).1
  \/ Pending (handleKeyDown toLowerCase inserter event p).1.
Proof.
  intros Hp. unfold handleKeyDown.
  destruct (negb (enabled (this p))); [done|].
  destruct (_ && _); [done|].
  destruct (str_eqb _ _); [done|].
  destruct (map_get _ _);
    [left; apply resetSequence_Idle; eauto with engine|].
  destruct (hasMatchingPrefix _ _); [right | left].
  - apply startSequenceTimeout_Pending; eauto with engine.
  - apply resetSequence_Idle; eauto with engine.
Qed.

Lemma timeoutFires_Idle id p p' fx :
  Idle p \/ Pending p -> timeoutFires id p = Some (p', fx) -> Idle p'.
Proof.
  intros Hp%correspondence_timersHeld. unfold timeoutFires.
  destruct (existsb _ _); [|done]. intros [= <- _].
  apply resetSequence_Idle.
  intros t Ht. cbn in *. apply Hp.
  apply list_elem_of_In, filter_In in Ht as [Ht _]. by apply list_elem_of_In.
Qed.

(** Every operation keeps a page idle or pending. *)
Lemma step_correspondence op p p' fx :
  Idle p \/ Pending p -> step toLowerCase op p = Some (p', fx) ->
  Idle p' \/ Pending p'.
Proof.
  intros Hp.
  destruct op as [inserter event|id|e|table|t|t e|]; cbn [step].
  - intros H%(inj Some).
    replace p' with (handleKeyDown toLowerCase inserter event p).1
      by (by rewrite H).
    by apply handleKeyDown_correspondence.
  - intros H. left. by eapply timeoutFires_Idle.
  - intros H%(inj Some). replace p' with (setEnabled e p).1 by (by rewrite H).
    unfold setEnabled. destruct e; [done|].
    left. apply resetSequence_Idle; eauto with engine.
  - intros H%(inj Some).
    by replace p' with (loadBindings table p).1 by (by rewrite H).
  - intros H%(inj Some).
    by replace p' with (setSequenceTimeout t p).1 by (by rewrite H).
  - by intros [= <- _].
  - intros H%(inj Some). replace p' with (stopListening p).1 by (by rewrite H).
    left. apply resetSequence_Idle; eauto with engine.
Qed.

Lemma reachable_correspondence p :
  reachable toLowerCase p -> Idle p \/ Pending p.
Proof.
  induction 1 as [|p op p' fx _ IH Hstep]; [by left|].
  by eapply step_correspondence.
Qed.

(** C9. In every state a page reaches, disabled or not, a sequence is
    in progress if and only if a timeout callback is armed: the page is
    idle (no pending token, no handle, no callback) or pending (pending
    tokens, and exactly the callback whose handle the manager holds),
    and every operation leads to such a state again. *)
Theorem pending_iff_timeout_armed p :
  reachable toLowerCase p ->
  (Idle p \/ Pending p)
  /\ (currentSequence (this p) <> [] <-> timers p <> [])
  /\ (forall op p' fx, step toLowerCase op p = Some (p', fx) ->
        (Idle p' \/ Pending p')
        /\ (currentSequence (this p') <> [] <-> timers p' <> [])).
Proof.
  intros Hp%reachable_correspondence. split; [done|].
  split; [by apply correspondence_armed|].
  intros op p' fx Hstep.
  assert (Idle p' \/ Pending p') by by eapply step_correspondence.
  split; [done | by apply correspondence_armed].
Qed.

(** C8. A key that leads to a dead end leaves the page idle: the
    pending tokens are discarded together with the key itself, nothing
    is executed and the default effect of the key is not suppressed,
    whether or not the key alone starts or is a registered sequence. *)
Theorem dead_end_discards_sequence inserter event p :
  let token := eventToKeyString toLowerCase event in
  let candidate := join [SPACE] (currentSequence (this p) ++ [token]) in
  reachable toLowerCase p ->
  enabled (this p) = true ->
  isEditableContext (Some (target event)) || isSpecialKey event = true ->
  token <> [] ->
  (forall k, k ∈ map_keys (bindings (this p)) ->
     k <> candidate /\ ~ strictPrefix (tokens candidate) (tokens k)) ->
  exists p',
    handleKeyDown toLowerCase inserter event p
    = (p', [Log (mkLog LDebug (js "Key pressed: " ++ token));
            Log (mkLog LDebug (js "No sequence match for: " ++ candidate));
            Log (mkLog LDebug (js "Sequence reset"))])
    /\ Idle p'
    /\ bindings (this p') = bindings (this p).
Proof.
  intros token candidate Hp%reachable_correspondence Hen Hctx Htok Hdead.
  unfold token in Htok. accept_key Hen Hctx Htok. fold token. fold candidate.
  assert (Hget : map_get candidate (bindings (this p)) = None).
  { apply map_get_None. intros Hk. by destruct (Hdead _ Hk). }
  assert (Hpre : hasMatchingPrefix candidate (this (push token p)) = false).
  { unfold hasMatchingPrefix. apply not_true_iff_false.
    intros (k & Hk & Hs)%existsb_exists.
    apply list_elem_of_In in Hk. apply startsWith_strictPrefix in Hs.
    by destruct (Hdead _ Hk). }
  rewrite Hget, Hpre.
  exists (resetSequence (push token p)).1. split; [done|]. split.
  - apply resetSequence_Idle; eauto with engine.
  - by rewrite resetSequence_bindings.
Qed.


End Engine.

Lemma pendingPage_reachable : reachable asciiLowerCase pendingPage.
Proof.
  apply (reachable_step asciiLowerCase loadedPage
           (KeyDown Absent (keyEvent true "m")) pendingPage
           (handleKeyDown asciiLowerCase Absent (keyEvent true "m") loadedPage).2).
  - apply (reachable_step asciiLowerCase new (LoadBindings sampleTable)
             loadedPage (loadBindings sampleTable new).2).
    + apply reachable_new.
    + reflexivity.
  - reflexivity.
Qed.

Lemma pending_iff_timeout_armed_witness :
  (Idle pendingPage \/ Pending pendingPage)
  /\ (currentSequence (this pendingPage) <> [] <-> timers pendingPage <> [])
  /\ (forall op p' fx, step asciiLowerCase op pendingPage = Some (p', fx) ->
        (Idle p' \/ Pending p')
        /\ (currentSequence (this p') <> [] <-> timers p' <> [])).
Proof.
  apply (pending_iff_timeout_armed asciiLowerCase pendingPage).
  apply pendingPage_reachable.
Defined.

Lemma dead_end_discards_sequence_witness :
  exists p',
    handleKeyDown asciiLowerCase Absent (keyEvent false "x") pendingPage
    = (p', [Log (mkLog LDebug (js "Key pressed: x"));
            Log (mkLog LDebug (js "No sequence match for: Alt+m x"));
            Log (mkLog LDebug (js "Sequence reset"))])
    /\ Idle p'
    /\ bindings (this p') = bindings (this pendingPage).
Proof.
  apply (dead_end_discards_sequence asciiLowerCase Absent
           (keyEvent false "x") pendingPage).
  - apply pendingPage_reachable.
  - reflexivity.
  - reflexivity.
  - discriminate.
  - intros k Hk. vm_compute in Hk.
    apply elem_of_cons in Hk as [->|Hk];
      [|apply elem_of_cons in Hk as [->|Hk]; [|by apply elem_of_nil in Hk]].
    + split; [discriminate|].
      intros H%startsWith_strictPrefix. vm_compute in H. discriminate.
    + split; [discriminate|].
      intros H%startsWith_strictPrefix. vm_compute in H. discriminate.
Defined.



(** ** Copies handed out by the observers *)

Section Copies.

Import Store.

Lemma view_Some h o m :
  view h o = Some m ->
  h !! o_currentSequence o = Some (currentSequence m)
  /\ h !! o_conflicts o = Some (conflicts m).
Proof.
  unfold view. destruct (h !! o_currentSequence o) as [cs|]; [|done].
  destruct (h !! o_conflicts o) as [cf|]; [|done].
  cbn. by intros [= <-].
Qed.

Lemma fresh_unused (h : store) : h !! fresh (dom h) = None.
Proof. apply not_elem_of_dom, is_fresh. Qed.

Lemma view_mutate_other h o r elements m :
  view h o = Some m -> h !! r = None ->
  forall copied, view (mutate r elements (<[r := copied]> h)) o = Some m.
Proof.
  intros Hview Hr copied.
  destruct (view_Some _ _ _ Hview) as [Hcs Hcf].
  unfold view, mutate in *.
  rewrite !lookup_insert_ne by congruence. done.
Qed.

Lemma view_push_after_mutate h o r elements copied m k :
  view h o = Some m -> h !! r = None ->
  view (push k o (mutate r elements (<[r := copied]> h))) o
  = view (push k o h) o.
Proof.
  intros Hview Hr. destruct (view_Some _ _ _ Hview) as [Hcs Hcf].
  unfold view, push, mutate. rewrite !lookup_alter.
  repeat case_decide; by rewrite !lookup_insert_ne by congruence.
Qed.

(** C10. [getCurrentSequence] and [getConflicts] return new objects
    holding the pending tokens and the conflicts; whatever is done to
    these objects, the manager is the same afterwards, and so is what
    it does with the next key. *)
Theorem observers_return_copies (h : store) (o : ManagerObject) (m : Manager) :
  view h o = Some m ->
  exists r1 h1 r2 h2,
    getCurrentSequence o h = Some (r1, h1)
    /\ getConflicts o h = Some (r2, h2)
    /\ h1 !! r1 = Some (currentSequence m) /\ h !! r1 = None
    /\ h2 !! r2 = Some (conflicts m) /\ h !! r2 = None
    /\ forall elements,
         view (mutate r1 elements h1) o = Some m
         /\ view (mutate r2 elements h2) o = Some m
         /\ (forall k, view (push k o (mutate r1 elements h1)) o
                       = view (push k o h) o
                       /\ view (push k o (mutate r2 elements h2)) o
                          = view (push k o h) o)
         /\ forall m' toLowerCase inserter event ts next,
              view (mutate r1 elements h1) o = Some m'
              \/ view (mutate r2 elements h2) o = Some m' ->
              handleKeyDown toLowerCase inserter event
                {| this := m'; timers := ts; nextTimer := next |}
              = handleKeyDown toLowerCase inserter event
                  {| this := m; timers := ts; nextTimer := next |}.
Proof.
  intros Hview. destruct (view_Some _ _ _ Hview) as [Hcs Hcf].
  unfold getCurrentSequence, getConflicts, alloc. rewrite Hcs, Hcf. cbn.
  eexists _, _, _, _. split; [reflexivity|]. split; [reflexivity|].
  rewrite !lookup_insert_eq. pose proof (fresh_unused h) as Hfresh.
  repeat (split; [done|]).
  intros elements.
  assert (V1 := view_mutate_other h o _ elements m Hview Hfresh
                  (currentSequence m)).
  assert (V2 := view_mutate_other h o _ elements m Hview Hfresh
                  (conflicts m)).
  repeat (split; [done|]). split.
  - intros k. split; by eapply view_push_after_mutate.
  - intros m' toLowerCase inserter event ts next [Hm'|Hm']; congruence.
Qed.

Lemma observers_return_copies_witness :
  exists r1 h1 r2 h2,
    getCurrentSequence sampleObject sampleStore = Some (r1, h1)
    /\ getConflicts sampleObject sampleStore = Some (r2, h2)
    /\ h1 !! r1 = Some [js "Alt+m"] /\ sampleStore !! r1 = None
    /\ h2 !! r2 = Some [] /\ sampleStore !! r2 = None
    /\ forall elements,
         view (mutate r1 elements h1) sampleObject = Some (this pendingPage)
         /\ view (mutate r2 elements h2) sampleObject = Some (this pendingPage)
         /\ (forall k, view (push k sampleObject (mutate r1 elements h1))
                         sampleObject
                       = view (push k sampleObject sampleStore) sampleObject
                       /\ view (push k sampleObject (mutate r2 elements h2))
                            sampleObject
                          = view (push k sampleObject sampleStore) sampleObject)
         /\ forall m' toLowerCase inserter event ts next,
              view (mutate r1 elements h1) sampleObject = Some m'
              \/ view (mutate r2 elements h2) sampleObject = Some m' ->
              handleKeyDown toLowerCase inserter event
                {| this := m'; timers := ts; nextTimer := next |}
              = handleKeyDown toLowerCase inserter event
                  {| this := this pendingPage; timers := ts;
                     nextTimer := next |}.
Proof.
  apply (observers_return_copies sampleStore sampleObject (this pendingPage)).
  reflexivity.
Defined.

End Copies.

(** * Further properties of the compiler *)

(** ** Normalization, token by token *)

Lemma splitWhere_pieces f s :
  Forall (fun w => Forall (fun c => f c = false) w) (splitWhere f s).
Proof.
  induction s as [|c s IH]; cbn [splitWhere]; [by repeat constructor|].
  destruct (f c) eqn:E; [by constructor|].
  destruct (splitWhere f s) as [|w ws]; [by repeat constructor|].
  apply Forall_cons in IH as [Hw Hws]. by repeat constructor.
Qed.

Lemma replaceEach_Forall (P : N -> Prop) rules s :
  Forall (fun rule => fst rule <> [] /\ Forall P (snd rule)) rules ->
  Forall P s -> Forall P (replaceEach rules s).
Proof.
  intros Hrules. revert s. unfold replaceEach.
  induction Hrules as [|[pat rep] rules [Hpat Hrep] _ IH]; intros s Hs; [done|].
  cbn [foldl]. apply IH. by apply replaceAll_Forall.
Qed.

Lemma plainRules_spaceless rules :
  forallb plainRule rules = true ->
  Forall (fun rule => fst rule <> [] /\ Forall (fun c => c <> SPACE) (snd rule))
         rules.
Proof.
  intros H. apply Forall_forall. intros [pat rep] Hin.
  rewrite forallb_forall in H. apply list_elem_of_In, H in Hin.
  apply plainRule_spec in Hin as (Hpat & _ & _ & Hrep).
  split; [done|]. eapply Forall_impl; [exact Hrep|].
  intros c Hc ->. done.
Qed.

(** X1.  [normalizeKeySequence] works on each token by itself: the
    tokens of the normalized key-spec are the normalized tokens of the
    key-spec, so normalization never changes the number of steps. *)
Theorem normalizeKeySequence_tokenwise keySpec :
  tokens (normalizeKeySequence keySpec)
  = normalizeKeySequence <$> tokens keySpec
  /\ length (tokens (normalizeKeySequence keySpec)) = length (tokens keySpec).
Proof.
  assert (E : tokens (normalizeKeySequence keySpec)
              = normalizeKeySequence <$> tokens keySpec).
  { rewrite <- (join_split SPACE keySpec) at 1.
    rewrite normalizeKeySequence_join. unfold tokens, split.
    erewrite (list_fmap_ext normalizeKeySequence normalizeStep);
      [|intros; apply normalizeKeySequence_step].
    apply splitWhere_join; [done| |].
    - pose proof (splitWhere_nonempty (fun c => c =? SPACE) keySpec).
      by destruct (splitWhere _ keySpec).
    - apply Forall_fmap. eapply Forall_impl; [apply splitWhere_pieces|].
      intros w Hw. cbn beta.
      assert (Forall (fun c => c <> SPACE) (normalizeStep w)).
      { apply replaceEach_Forall; [by apply plainRules_spaceless|].
        eapply Forall_impl; [exact Hw|]. intros c Hc. by apply N.eqb_neq. }
      eapply Forall_impl; [eassumption|]. intros c Hc. by apply N.eqb_neq. }
  split; [done|]. by rewrite E, length_fmap.
Qed.

(** ** Modifier prefixes *)

(** X2.  A modifier prefix at the head of a key-spec becomes its
    modifier, whatever follows: [M-] and [A-] give [Alt+], [C-] gives
    [Ctrl+] and [S-] gives [Shift+], and what follows is normalized by
    itself. *)
Theorem modifier_prefix_becomes_modifier rest :
  normalizeKeySequence (js "M-" ++ rest) = js "Alt+" ++ normalizeKeySequence rest
  /\ normalizeKeySequence (js "A-" ++ rest)
     = js "Alt+" ++ normalizeKeySequence rest
  /\ normalizeKeySequence (js "C-" ++ rest)
     = js "Ctrl+" ++ normalizeKeySequence rest
  /\ normalizeKeySequence (js "S-" ++ rest)
     = js "Shift+" ++ normalizeKeySequence rest.
Proof.
  (* Behind the prefix the scan of every rule starts afresh, and no rule
     matches inside a modifier or across its [+]. *)
  rewrite !normalizeKeySequence_step. unfold normalizeStep, replaceEach.
  split; [|split; [|split]]; reflexivity.
Qed.

(** ** Commands *)

Lemma startsWith_includes s p q :
  startsWith s p = true -> includes p q = true -> includes s q = true.
Proof.
  intros [r ->]%startsWith_spec (a & b & ->)%includes_spec.
  apply includes_spec. exists a, (b ++ r). by rewrite <- !app_assoc.
Qed.

(** X3.  [parseCommand] gives a command action exactly for the
    commands in which [insert] does not occur, and then the command is
    the command-spec as it is; every other command-spec gives an insert
    action. *)
Theorem parseCommand_command_iff commandSpec c :
  parseCommand commandSpec = Command c
  <-> c = commandSpec /\ includes commandSpec (js "insert") = false.
Proof.
  unfold parseCommand.
  destruct (startsWith commandSpec (js "math-insert")) eqn:Em.
  { assert (includes commandSpec (js "insert") = true)
      by (by eapply startsWith_includes).
    split; [done | intros [_ ?]; congruence]. }
  destruct (includes commandSpec (js "insert")) eqn:Ei.
  { split; [done | by intros [_ ?]]. }
  destruct (startsWith commandSpec (js "self-insert")) eqn:E1.
  { assert (includes commandSpec (js "insert") = true)
      by (by eapply startsWith_includes). congruence. }
  destruct (startsWith commandSpec (js "quote-insert")) eqn:E2.
  { assert (includes commandSpec (js "insert") = true)
      by (by eapply startsWith_includes). congruence. }
  destruct (startsWith commandSpec (js "specialchar-insert")) eqn:E3.
  { assert (includes commandSpec (js "insert") = true)
      by (by eapply startsWith_includes). congruence. }
  split; [by intros [= <-] | by intros [-> _]].
Qed.

Lemma extractInsertText_after_word word rest :
  SPACE ∉ word -> extractInsertText (word ++ SPACE :: rest) = rest.
Proof.
  intros Hw. unfold extractInsertText, split.
  rewrite splitWhere_app_sep by done.
  rewrite splitWhere_none.
  - cbn [app drop]. apply (join_split SPACE).
  - apply Forall_forall. intros c Hc. apply N.eqb_neq. by intros ->.
Qed.

(** X4.  A command in which [insert] occurs, and which is not a
    [math-insert], inserts what stands after its first space, as it is
    (further spaces included); without a space it inserts the empty
    string. *)
Theorem insert_command_inserts_rest commandSpec :
  includes commandSpec (js "insert") = true ->
  startsWith commandSpec (js "math-insert") = false ->
  (forall word rest,
     SPACE ∉ word -> commandSpec = word ++ SPACE :: rest ->
     parseCommand commandSpec = Insert (Str rest))
  /\ (SPACE ∉ commandSpec -> parseCommand commandSpec = Insert (Str [])).
Proof.
  intros Hi Hm. unfold parseCommand. rewrite Hm, Hi. split.
  - intros word rest Hw ->. by rewrite extractInsertText_after_word.
  - intros Hs. unfold extractInsertText, split. rewrite splitWhere_none; [done|].
    apply Forall_forall. intros c Hc. apply N.eqb_neq. by intros ->.
Qed.

Lemma insert_command_inserts_rest_witness :
  (forall word rest,
     SPACE ∉ word -> js "self-insert a b" = word ++ SPACE :: rest ->
     parseCommand (js "self-insert a b") = Insert (Str rest))
  /\ (SPACE ∉ js "self-insert a b" ->
      parseCommand (js "self-insert a b") = Insert (Str [])).
Proof.
  apply (insert_command_inserts_rest (js "self-insert a b")); reflexivity.
Defined.

(** ** Lines and tables *)

Lemma map_get_map_set {V} k k' (v : V) (m : JsMap V) :
  map_get k (map_set k' v m)
  = if str_eqb k' k then Some v else map_get k m.
Proof.
  induction m as [|[k0 v0] m IH]; cbn [map_set map_get]; [done|].
  destruct (str_eqb k0 k') eqn:E0; cbn [map_get].
  - apply str_eqb_eq in E0 as ->. by destruct (str_eqb k' k).
  - rewrite IH. destruct (str_eqb k0 k) eqn:E1; [|done].
    apply str_eqb_eq in E1 as ->. apply str_eqb_neq in E0.
    assert (E : str_eqb k' k = false) by (apply str_eqb_neq; congruence).
    by rewrite E.
Qed.

Lemma map_set_elem {V} k (v : V) (m : JsMap V) e :
  e ∈ map_set k v m -> e = (k, v) \/ e ∈ m.
Proof.
  induction m as [|[k0 v0] m IH]; cbn [map_set].
  - intros ->%list_elem_of_singleton. by left.
  - destruct (str_eqb k0 k).
    + intros [->|?]%elem_of_cons; [by left | right; by right].
    + intros [->|?]%elem_of_cons; [right; by left|].
      destruct (IH H); [by left | right; by right].
Qed.

Lemma parseLine_lineBinding n line table :
  (parseLine n line table).1
  = match lineBinding line with
    | Some b => map_set (keySequence b) b table
    | None => table
    end.
Proof.
  unfold parseLine, lineBinding, parseBindLine.
  destruct (_ || _); [done|].
  destruct (startsWith _ _); [|done].
  by destruct (bindRegex (trim line)) as [[k c]|].
Qed.

Lemma parseLines_app n lines1 lines2 table :
  parseLines n (lines1 ++ lines2) table
  = ((parseLines (n + length lines1) lines2
        (parseLines n lines1 table).1).1,
     (parseLines n lines1 table).2
     ++ (parseLines (n + length lines1) lines2
           (parseLines n lines1 table).1).2).
Proof.
  revert n table; induction lines1 as [|line lines1 IH]; intros n table.
  - cbn [app parseLines length fst snd]. rewrite Nat.add_0_r.
    by destruct (parseLines n lines2 table).
  - cbn [app parseLines length].
    destruct (parseLine (S n) line table) as [t1 g1].
    rewrite IH. replace (S n + length lines1)%nat
      with (n + S (length lines1))%nat by lia.
    destruct (parseLines (S n) lines1 t1) as [t2 g2]. cbn [fst snd].
    by rewrite app_assoc.
Qed.

Lemma parseLines_lookup n lines table k :
  map_get k (parseLines n lines table).1
  = match map_get k (parseLines n lines []).1 with
    | Some b => Some b
    | None => map_get k table
    end.
Proof.
  revert n table; induction lines as [|line lines IH]; intros n table;
    [done|].
  cbn [parseLines].
  pose proof (parseLine_lineBinding (S n) line table) as E1.
  pose proof (parseLine_lineBinding (S n) line []) as E2.
  destruct (parseLine (S n) line table) as [t1 g1].
  destruct (parseLine (S n) line []) as [t2 g2]. cbn [fst] in E1, E2.
  pose proof (IH (S n) t1) as H1. pose proof (IH (S n) t2) as H2.
  destruct (parseLines (S n) lines t1) as [t1' g1'].
  destruct (parseLines (S n) lines t2) as [t2' g2']. cbn [fst] in *.
  rewrite H1, H2. destruct (map_get k (parseLines (S n) lines []).1); [done|].
  subst t1 t2. destruct (lineBinding line) as [b|]; [|done].
  rewrite !map_get_map_set. by destruct (str_eqb (keySequence b) k).
Qed.

Lemma parse_table content :
  (parse content).1 = (parseLines 0 (split LF content) []).1.
Proof. unfold parse. by destruct (parseLines 0 (split LF content) []). Qed.

Lemma split_app_LF a b : split LF (a ++ LF :: b) = split LF a ++ split LF b.
Proof. unfold split. by apply splitWhere_app_sep. Qed.

(** X5.  Of two texts put one after the other, the later one wins:
    [getBinding] finds in the table of the whole text what it finds in
    the table of the second text, and looks into the table of the first
    only for a sequence the second does not bind. *)
Theorem later_text_wins first second keySequence :
  getBinding keySequence (parse (first ++ LF :: second)).1
  = match getBinding keySequence (parse second).1 with
    | Some b => Some b
    | None => getBinding keySequence (parse first).1
    end.
Proof.
  unfold getBinding. rewrite !parse_table, split_app_LF, parseLines_app.
  cbn [fst]. rewrite parseLines_lookup.
  by rewrite (parseLines_number _ 0 (split LF second) []).
Qed.

Lemma span_Forall f s run rest :
  span f s = (run, rest) -> Forall (fun c => f c = true) run.
Proof.
  revert run rest; induction s as [|c s IH]; intros run rest; cbn [span].
  - by intros [= <- _].
  - destruct (f c) eqn:E; [|by intros [= <- _]].
    destruct (span f s) as [run' rest']. intros [= <- _].
    constructor; [done | by eapply IH].
Qed.

Lemma quotedField_Some s field rest :
  quotedField s = Some (field, rest) -> field <> [] /\ (QUOTE ∉ field).
Proof.
  unfold quotedField. destruct (stripPrefix [QUOTE] s) as [s1|]; [|done].
  cbn [mbind option_bind].
  destruct (span _ s1) as [run s2] eqn:E. destruct run as [|c run]; [done|].
  destruct (stripPrefix [QUOTE] s2) as [s3|]; [|done].
  cbn [mbind option_bind]. intros [= <- _]. split; [done|].
  apply span_Forall in E. rewrite Forall_forall in E.
  intros Hin. specialize (E _ Hin). cbn beta in E.
  by rewrite N.eqb_refl in E.
Qed.

Lemma bindRegex_Some line k c :
  bindRegex line = Some (k, c) ->
  k <> [] /\ (QUOTE ∉ k) /\ c <> [] /\ (QUOTE ∉ c).
Proof.
  assert (Hat : forall s, bindRegex_at s = Some (k, c) ->
                  k <> [] /\ (QUOTE ∉ k) /\ c <> [] /\ (QUOTE ∉ c)).
  { intros s. unfold bindRegex_at.
    destruct (stripPrefix _ s) as [s1|]; [|done]. cbn [mbind option_bind].
    destruct (whiteSpaces s1) as [s2|]; [|done]. cbn [mbind option_bind].
    destruct (quotedField s2) as [[k' s3]|] eqn:Ek; [|done].
    cbn [mbind option_bind].
    destruct (whiteSpaces s3) as [s4|]; [|done]. cbn [mbind option_bind].
    destruct (quotedField s4) as [[c' s5]|] eqn:Ec; [|done].
    cbn [mbind option_bind]. intros [= <- <-].
    apply quotedField_Some in Ek as [? ?], Ec as [? ?]. done. }
  induction line as [|x line IH]; cbn [bindRegex].
  - destruct (bindRegex_at []) as [g|] eqn:E; [|done].
    intros [= ->]. by eapply Hat.
  - destruct (bindRegex_at (x :: line)) as [g|] eqn:E; [|exact IH].
    intros [= ->]. by eapply Hat.
Qed.

Lemma lineBinding_compiled line b :
  lineBinding line = Some b -> compiledBinding b.
Proof.
  unfold lineBinding. destruct (_ || _); [done|].
  destruct (startsWith _ _); [|done].
  destruct (bindRegex (trim line)) as [[k c]|] eqn:E; [|done].
  intros [= <-]. apply bindRegex_Some in E as (? & ? & ? & ?).
  by repeat split.
Qed.

(** X6.  In a compiled table every sequence occurs once, and every
    entry stands under the sequence of its binding; the binding holds
    the two quoted fields of its line, not empty and without a double
    quote, with the sequence normalized from the first and the action
    parsed from the second. *)
Theorem compiled_table_is_consistent content :
  NoDup (map_keys (parse content).1)
  /\ forall k b, (k, b) ∈ (parse content).1 ->
       k = keySequence b /\ compiledBinding b.
Proof.
  split; [apply parse_NoDup|]. rewrite parse_table.
  assert (H : forall lines n table,
             (forall k b, (k, b) ∈ table ->
                k = keySequence b /\ compiledBinding b) ->
             forall k b, (k, b) ∈ (parseLines n lines table).1 ->
               k = keySequence b /\ compiledBinding b).
  { induction lines as [|line lines IH]; intros n table Ht; [done|].
    cbn [parseLines].
    pose proof (parseLine_lineBinding (S n) line table) as E.
    destruct (parseLine (S n) line table) as [t1 g1]. cbn [fst] in E.
    specialize (IH (S n) t1).
    destruct (parseLines (S n) lines t1) as [t2 g2]. cbn [fst] in *.
    apply IH. subst t1. destruct (lineBinding line) as [b0|] eqn:Eb; [|done].
    intros k b [[= -> ->]|?]%map_set_elem; [|by apply Ht].
    split; [done | by eapply lineBinding_compiled]. }
  apply H. intros k b Hin. by apply elem_of_nil in Hin.
Qed.

Lemma parseLine_ignorable n line table :
  ignorable line -> parseLine n line table = (table, []).
Proof.
  unfold ignorable, parseLine. intros [H|[H|H]].
  - by rewrite H.
  - rewrite H. by rewrite orb_true_r.
  - rewrite H. by destruct (_ || _).
Qed.

Lemma parseLines_skip n lines1 line lines2 table :
  ignorable line ->
  parseLines n (lines1 ++ line :: lines2) table
  = parseLines n (lines1 ++ lines2) table.
Proof.
  intros Hi. rewrite !parseLines_app. cbn [parseLines].
  rewrite parseLine_ignorable by done.
  rewrite (parseLines_number (S (n + length lines1)) (n + length lines1)).
  by destruct (parseLines (n + length lines1) lines2 _).
Qed.

(** X7.  A line that is blank, a comment or not a [\bind] directive
    leaves no trace: with the line or without it, the table and the
    logger calls of [parse] are the same. *)
Theorem ignorable_line_leaves_no_trace above line below :
  ignorable line -> LF ∉ line ->
  parse (above ++ LF :: line ++ LF :: below) = parse (above ++ LF :: below).
Proof.
  intros Hi Hlf. unfold parse.
  rewrite !split_app_LF.
  assert (E : split LF line = [line]).
  { unfold split. apply splitWhere_none, Forall_forall.
    intros c Hc. apply N.eqb_neq. by intros ->. }
  rewrite E. cbn [app]. by rewrite parseLines_skip.
Qed.

Lemma ignorable_line_leaves_no_trace_witness :
  parse (js "# keys" ++ LF :: js "  \Format 5" ++ LF :: js "\bind foo")
  = parse (js "# keys" ++ LF :: js "\bind foo").
Proof.
  apply (ignorable_line_leaves_no_trace (js "# keys") (js "  \Format 5")
           (js "\bind foo")).
  - right; right. reflexivity.
  - intros Hin. vm_compute in Hin.
    repeat (apply elem_of_cons in Hin as [Hin|Hin]; [discriminate|]).
    by apply elem_of_nil in Hin.
Defined.

(** ** Text after the second field *)

Lemma trimStart_app_keeps ws d rest :
  isWhiteSpace d = false ->
  trimStart (ws ++ d :: rest) = trimStart ws ++ d :: rest.
Proof.
  intros Hd. induction ws as [|c ws IH]; cbn [app trimStart].
  - by rewrite Hd.
  - by destruct (isWhiteSpace c).
Qed.

Lemma trim_ends_tail c s d tail :
  isWhiteSpace c = false -> isWhiteSpace d = false ->
  trim (c :: s ++ [d] ++ tail) = c :: s ++ [d] ++ trimEnd tail.
Proof.
  intros Hc Hd. unfold trim, trimEnd at 1. cbn [trimStart]. rewrite Hc.
  rewrite reverse_cons, !reverse_app. change (reverse [d]) with [d].
  rewrite <- !app_assoc. cbn [app].
  rewrite trimStart_app_keeps by done.
  change (d :: reverse s ++ [c]) with ([d] ++ reverse s ++ [c]).
  rewrite !reverse_app, reverse_involutive.
  change (reverse [c]) with [c]. change (reverse [d]) with [d].
  unfold trimEnd. by rewrite <- !app_assoc.
Qed.

Lemma bindRegex_bindingLine_tail ws1 keySpec ws2 commandSpec tail :
  blank ws1 -> blank ws2 ->
  keySpec <> [] -> Forall (fun c => c <> QUOTE) keySpec ->
  commandSpec <> [] -> Forall (fun c => c <> QUOTE) commandSpec ->
  bindRegex (bindingLine ws1 keySpec ws2 commandSpec ++ tail)
  = Some (keySpec, commandSpec).
Proof.
  intros H1 H2 Hk Hkq Hc Hcq.
  assert (Hat : bindRegex_at (bindingLine ws1 keySpec ws2 commandSpec ++ tail)
                = Some (keySpec, commandSpec)).
  { unfold bindRegex_at, bindingLine. rewrite <- !app_assoc.
    change (stripPrefix (js "\bind") (js "\bind" ++ ?r)) with (Some r).
    cbn [mbind option_bind app].
    rewrite (whiteSpaces_run ws1) by (apply H1 || by apply blank_spaces).
    cbn [mbind option_bind].
    rewrite quotedField_run by done. cbn [mbind option_bind].
    rewrite (whiteSpaces_run ws2) by (apply H2 || by apply blank_spaces).
    cbn [mbind option_bind].
    by rewrite quotedField_run. }
  destruct (bindingLine ws1 keySpec ws2 commandSpec ++ tail); cbn [bindRegex];
    by rewrite Hat.
Qed.

(** X8.  What stands on a binding line after the closing quote of the
    command-spec is not read: the line compiles to the same one
    binding. *)
Theorem text_after_command_is_ignored ws1 keySpec ws2 commandSpec tail :
  blank ws1 -> blank ws2 -> fieldText keySpec -> fieldText commandSpec ->
  LF ∉ tail ->
  (parse (bindingLine ws1 keySpec ws2 commandSpec ++ tail)).1
  = (parse (bindingLine ws1 keySpec ws2 commandSpec)).1.
Proof.
  intros H1 H2 Hk Hc Htail.
  rewrite (parse_bindingLine ws1 keySpec ws2 commandSpec) by done.
  destruct Hk as [Hk Hkf], Hc as [Hc Hcf].
  assert (Hkq : Forall (fun c => c <> QUOTE) keySpec)
    by (eapply Forall_impl; [exact Hkf|]; by intros c [? _]).
  assert (Hcq : Forall (fun c => c <> QUOTE) commandSpec)
    by (eapply Forall_impl; [exact Hcf|]; by intros c [? _]).
  assert (Hkl : Forall (fun c => c <> LF) keySpec)
    by (eapply Forall_impl; [exact Hkf|]; by intros c [_ ?]).
  assert (Hcl : Forall (fun c => c <> LF) commandSpec)
    by (eapply Forall_impl; [exact Hcf|]; by intros c [_ ?]).
  rewrite parse_table.
  assert (E : split LF (bindingLine ws1 keySpec ws2 commandSpec ++ tail)
              = [bindingLine ws1 keySpec ws2 commandSpec ++ tail]).
  { unfold split. apply splitWhere_none. apply Forall_app. split.
    - pose proof (split_bindingLine ws1 keySpec ws2 commandSpec H1 H2 Hkl Hcl)
        as Hs.
      unfold split in Hs.
      pose proof (splitWhere_pieces (fun c => c =? LF)
                    (bindingLine ws1 keySpec ws2 commandSpec)) as Hp.
      rewrite Hs in Hp. by apply Forall_cons in Hp as [? _].
    - apply Forall_forall. intros c Hin. apply N.eqb_neq. by intros ->. }
  rewrite E. cbn [parseLines].
  pose proof (parseLine_lineBinding 1
                (bindingLine ws1 keySpec ws2 commandSpec ++ tail) []) as El.
  destruct (parseLine 1 _ []) as [t g]. cbn [fst] in *. rewrite El.
  unfold lineBinding.
  assert (Et : trim (bindingLine ws1 keySpec ws2 commandSpec ++ tail)
               = bindingLine ws1 keySpec ws2 commandSpec ++ trimEnd tail).
  { rewrite bindingLine_ends.
    set (body := js "bind" ++ _). rewrite <- !app_assoc.
    exact (trim_ends_tail 92 body QUOTE tail eq_refl eq_refl). }
  rewrite Et. rewrite bindRegex_bindingLine_tail by done.
  reflexivity.
Qed.

Lemma text_after_command_is_ignored_witness :
  (parse (bindingLine (js " ") (js "M-m f") (js " ") (js "math-insert \frac")
          ++ js "  # a fraction")).1
  = (parse (bindingLine (js " ") (js "M-m f") (js " ")
              (js "math-insert \frac"))).1.
Proof.
  apply (text_after_command_is_ignored (js " ") (js "M-m f") (js " ")
           (js "math-insert \frac") (js "  # a fraction")).
  - split; [done | by repeat constructor].
  - split; [done | by repeat constructor].
  - split; [done | repeat constructor; done].
  - split; [done | repeat constructor; done].
  - intros Hin. vm_compute in Hin.
    repeat (apply elem_of_cons in Hin as [Hin|Hin]; [discriminate|]).
    by apply elem_of_nil in Hin.
Defined.

(** ** Export and import without [__proto__] *)

Lemma entries_without_indices o :
  Forall (fun k => arrayIndex k = None) (map_keys (ownProps o)) ->
  entries o = ownProps o.
Proof.
  unfold entries, map_keys. intros H.
  assert (E1 : omap (fun e => i ← arrayIndex (fst e); Some (i, e)) (ownProps o)
               = []).
  { induction (ownProps o) as [|e l IH]; [done|].
    cbn [fmap list_fmap] in H. apply Forall_cons in H as [He Hl].
    cbn [omap list_omap]. rewrite He. cbn [mbind option_bind]. by apply IH. }
  assert (E2 : List.filter (fun e => bool_decide (arrayIndex (fst e) = None))
                 (ownProps o) = ownProps o).
  { clear E1. induction (ownProps o) as [|e l IH]; [done|].
    cbn [fmap list_fmap] in H. apply Forall_cons in H as [He Hl].
    cbn [List.filter]. rewrite bool_decide_eq_true_2 by done.
    by rewrite (IH Hl). }
  by rewrite E1, E2.
Qed.

(** X9.  For a compiled table that does not bind the sequence
    [__proto__], export followed by import brings back the same
    bindings under the same sequences; the entries come back in the
    same order when no sequence is an array index (a canonical decimal
    numeral), and otherwise possibly in another order. *)
Theorem round_trip_keeps_bindings content :
  js "__proto__" ∉ map_keys (parse content).1 ->
  (importBindings (exportBindings (parse content).1)).1 ≡ₚ (parse content).1
  /\ (forall k,
        getBinding k (importBindings (exportBindings (parse content).1)).1
        = getBinding k (parse content).1)
  /\ (Forall (fun k => arrayIndex k = None) (map_keys (parse content).1) ->
      (importBindings (exportBindings (parse content).1)).1
      = (parse content).1).
Proof.
  intros Hp. pose proof (parse_NoDup content) as Hnd.
  rewrite exportBindings_ownProps by done.
  unfold importBindings. cbn [fst].
  set (o := {| ownProps := (parse content).1; prototype := None |}).
  pose proof (entries_Permutation o) as He.
  assert (Hnd' : NoDup (map_keys ([] ++ entries o)))
    by (cbn [app]; unfold map_keys; by rewrite He).
  rewrite (foldl_map_set_app [] (entries o)) by done. cbn [app].
  split; [exact He|]. split.
  - intros k. unfold getBinding.
    assert (Hget : forall (l : JsMap Binding) v,
               NoDup (map_keys l) -> (map_get k l = Some v <-> (k, v) ∈ l)).
    { intros l v. unfold map_keys.
      induction l as [|[k0 v0] l IH]; cbn [map_get fmap list_fmap fst].
      - intros _. split; [done | by intros ?%elem_of_nil].
      - intros [Hk0 Hl]%NoDup_cons. rewrite elem_of_cons.
        destruct (str_eqb k0 k) eqn:E.
        + apply str_eqb_eq in E as ->. split.
          * intros [= ->]. by left.
          * intros [[= ->]|Hin]; [done|]. exfalso. apply Hk0.
            apply list_elem_of_fmap. by exists (k, v).
        + apply str_eqb_neq in E. rewrite (IH Hl). split; [by right|].
          intros [[= ? ?]|?]; [congruence | done]. }
    cbn [app] in Hnd'.
    destruct (map_get k (entries o)) as [v|] eqn:E1.
    + apply Hget in E1; [|done]. rewrite He in E1.
      symmetry. by apply Hget.
    + destruct (map_get k (parse content).1) as [v|] eqn:E2; [|done].
      apply Hget in E2; [|done]. change ((k, v) ∈ ownProps o) in E2.
      rewrite <- He in E2. apply Hget in E2; [|done]. congruence.
  - intros Hidx. by apply entries_without_indices.
Qed.

Lemma round_trip_keeps_bindings_witness :
  (importBindings (exportBindings (parse sampleConfig).1)).1
  ≡ₚ (parse sampleConfig).1
  /\ (forall k,
        getBinding k (importBindings (exportBindings (parse sampleConfig).1)).1
        = getBinding k (parse sampleConfig).1)
  /\ (Forall (fun k => arrayIndex k = None) (map_keys (parse sampleConfig).1) ->
      (importBindings (exportBindings (parse sampleConfig).1)).1
      = (parse sampleConfig).1).
Proof.
  apply (round_trip_keeps_bindings sampleConfig).
  intros Hin. vm_compute in Hin.
  repeat (apply elem_of_cons in Hin as [Hin|Hin]; [discriminate|]).
  by apply elem_of_nil in Hin.
Defined.

(** * Further properties of the manager and its collaborators *)

(** ** Keys that extend a sequence *)

Section Keys.

Variable toLowerCase : jsstring -> jsstring.

Lemma hasMatchingPrefix_spec candidate m :
  hasMatchingPrefix candidate m = true
  <-> exists k, k ∈ map_keys (bindings m)
                /\ strictPrefix (tokens candidate) (tokens k).
Proof.
  unfold hasMatchingPrefix. rewrite existsb_exists. split.
  - intros (k & Hk & Hs). exists k. split; [by apply list_elem_of_In|].
    by apply startsWith_strictPrefix.
  - intros (k & Hk & Hs). exists k. split; [by apply list_elem_of_In|].
    by apply startsWith_strictPrefix.
Qed.

(** X10.  A key that extends the pending tokens to the beginning of a
    registered sequence, without completing one, is kept: the default
    effect of the key is suppressed, nothing is executed, the table is
    left as it is, and the timer is restarted, so that the one armed
    callback is a new one with the delay in force now. *)
Theorem prefix_key_restarts_timer inserter event p :
  let token := eventToKeyString toLowerCase event in
  let candidate := join [SPACE] (currentSequence (this p) ++ [token]) in
  reachable toLowerCase p ->
  enabled (this p) = true ->
  isEditableContext (Some (target event)) || isSpecialKey event = true ->
  token <> [] ->
  candidate ∉ map_keys (bindings (this p)) ->
  (exists k, k ∈ map_keys (bindings (this p))
             /\ strictPrefix (tokens candidate) (tokens k)) ->
  exists p',
    handleKeyDown toLowerCase inserter event p
    = (p', [Log (mkLog LDebug (js "Key pressed: " ++ token));
            Log (mkLog LDebug (js "Partial sequence match: " ++ candidate));
            PreventDefault; StopPropagation])
    /\ currentSequence (this p') = currentSequence (this p) ++ [token]
    /\ timeoutId (this p') = Some (nextTimer p)
    /\ timers p' = [(nextTimer p, sequenceTimeout (this p))]
    /\ nextTimer p' = Pos.succ (nextTimer p)
    /\ bindings (this p') = bindings (this p)
    /\ Pending p'.
Proof.
  intros token candidate Hp%reachable_correspondence Hen Hctx Htok Hnew Hpre.
  unfold token in Htok. accept_key Hen Hctx Htok. fold token. fold candidate.
  apply map_get_None in Hnew. rewrite Hnew.
  assert (Hm : hasMatchingPrefix candidate (this (push token p)) = true)
    by (by apply hasMatchingPrefix_spec).
  rewrite Hm.
  exists (startSequenceTimeout (push token p)). split; [done|].
  assert (Hheld : timersHeld (push token p)) by eauto with engine.
  assert (Hpend : Pending (startSequenceTimeout (push token p)))
    by (apply startSequenceTimeout_Pending; eauto with engine).
  split; [|split; [|split; [|split; [|split]]]]; [..|exact Hpend];
    unfold startSequenceTimeout, clearSequenceTimeout;
    change (timeoutId (this (push token p))) with (timeoutId (this p));
    destruct (timeoutId (this p)) as [id|] eqn:Eid; cbn; try done.
  - rewrite filter_other_handles; [done|].
    by apply (timersHeld_Some (push token p)).
  - change (timers p) with (timers (push token p)).
    by rewrite (timersHeld_None (push token p)).
Qed.


Lemma map_get_Some_key {V} k (m : JsMap V) v :
  map_get k m = Some v -> k ∈ map_keys m.
Proof.
  intros H. destruct (decide (k ∈ map_keys m)) as [|Hn]; [done|].
  apply map_get_None in Hn. congruence.
Qed.

Lemma executeAction_keeps_default inserter m b event :
  (PreventDefault ∉ executeAction inserter m b event)
  /\ (StopPropagation ∉ executeAction inserter m b event).
Proof.
  unfold executeAction.
  destruct (action b); [destruct inserter as [|throws];
                        [|destruct (throws _ _)]|];
    split; intros Hin;
    repeat (apply elem_of_cons in Hin as [Hin|Hin]; [discriminate|]);
    by apply elem_of_nil in Hin.
Qed.

(** X11.  The handler suppresses the default effect of a key exactly
    when it stops its propagation, and it does so if and only if the
    key is not ignored (manager enabled, context accepted, key string
    not empty) and the pending tokens with the key either are a
    registered sequence or begin one. *)
Theorem default_suppressed_iff_key_consumed inserter event p :
  let token := eventToKeyString toLowerCase event in
  let candidate := join [SPACE] (currentSequence (this p) ++ [token]) in
  let fx := (handleKeyDown toLowerCase inserter event p).2 in
  (PreventDefault ∈ fx <-> StopPropagation ∈ fx)
  /\ (PreventDefault ∈ fx <->
      enabled (this p) = true
      /\ isEditableContext (Some (target event)) || isSpecialKey event = true
      /\ token <> []
      /\ exists k, k ∈ map_keys (bindings (this p))
                   /\ (k = candidate
                       \/ strictPrefix (tokens candidate) (tokens k))).
Proof.
  intros token candidate. unfold handleKeyDown. fold token.
  change (currentSequence (this (push token p)))
    with (currentSequence (this p) ++ [token]).
  change (bindings (this (push token p))) with (bindings (this p)).
  fold candidate.
  destruct (enabled (this p)) eqn:Hen; cbn [negb];
    [|cbn; split; [by split; intros ?%elem_of_nil|];
      split; [by intros ?%elem_of_nil | by intros [? _]]].
  destruct (isEditableContext (Some (target event))) eqn:Hctx,
           (isSpecialKey event) eqn:Hsp; cbn [negb andb orb].
  4: { cbn; split; [by split; intros ?%elem_of_nil|].
       split; [by intros ?%elem_of_nil | by intros (_ & ? & _)]. }
  all: destruct (str_eqb token []) eqn:Htok;
    [ apply str_eqb_eq in Htok; cbn; split; [by split; intros ?%elem_of_nil|];
      split; [by intros ?%elem_of_nil | by intros (_ & _ & ? & _)]
    | apply str_eqb_neq in Htok ].
  all: destruct (map_get candidate (bindings (this p))) as [b|] eqn:Hget.
  all: try (
    unfold resetSequence; cbn [fst snd];
    assert (Hpd : forall l : list Effect,
               PreventDefault ∈ l ++ [PreventDefault; StopPropagation])
      by (intros l; apply elem_of_app; right; left);
    assert (Hsp' : forall l : list Effect,
               StopPropagation ∈ l ++ [PreventDefault; StopPropagation])
      by (intros l; apply elem_of_app; right; right; left);
    rewrite !app_assoc;
    split; [split; intros _; [apply Hsp' | apply Hpd]|];
    split; [intros _|intros _; apply Hpd];
    repeat split; [done|];
    exists candidate; split; [by eapply map_get_Some_key | by left]).
  all: destruct (hasMatchingPrefix candidate (this (push token p))) eqn:Hm.
  all: try (
    cbn [snd]; split;
    [ split; intros _; repeat constructor
    | split; [intros _|intros _; repeat constructor];
      repeat split; [done|];
      apply hasMatchingPrefix_spec in Hm as (k & Hk & Hs);
      exists k; split; [done | by right] ]).
  all: unfold resetSequence; cbn [fst snd app];
    split;
    [ split; intros Hin;
      repeat (apply elem_of_cons in Hin as [Hin|Hin]; [discriminate|]);
      by apply elem_of_nil in Hin
    | split;
      [ intros Hin;
        repeat (apply elem_of_cons in Hin as [Hin|Hin]; [discriminate|]);
        by apply elem_of_nil in Hin
      | intros (_ & _ & _ & k & Hk & [->|Hs]);
        [ apply map_get_None in Hget; done
        | apply not_true_iff_false in Hm; exfalso; apply Hm;
          apply hasMatchingPrefix_spec; by exists k ] ] ].
Qed.

(** X12.  Disabling the manager discards the sequence in progress,
    and the disabled manager ignores every key: whatever keys follow,
    the page stays as it is and nothing is logged, executed or
    suppressed. *)
Theorem disabled_manager_ignores_keys
    (keys : list (Inserter * KeyboardEvent)) p :
  let p0 := (setEnabled false p).1 in
  enabled (this p0) = false
  /\ currentSequence (this p0) = []
  /\ timeoutId (this p0) = None
  /\ run toLowerCase (uncurry KeyDown <$> keys) p0 = Some (p0, []).
Proof.
  intros p0.
  assert (Hen : enabled (this p0) = false).
  { unfold p0, setEnabled, resetSequence, clearSequenceTimeout, set_this.
    cbn. by destruct (timeoutId (this p)) eqn:Eid. }
  split; [done|]. split; [|split].
  - unfold p0, setEnabled, resetSequence, clearSequenceTimeout, set_this.
    cbn. by destruct (timeoutId (this p)) eqn:Eid.
  - unfold p0, setEnabled, resetSequence, clearSequenceTimeout, set_this.
    cbn. by destruct (timeoutId (this p)) eqn:Eid.
  - induction keys as [|[inserter event] keys IH]; [done|].
    cbn [fmap list_fmap uncurry run step].
    unfold handleKeyDown. rewrite Hen. cbn [negb].
    change (list_fmap _ _ (uncurry KeyDown) keys)
      with (uncurry KeyDown <$> keys).
    by rewrite IH.
Qed.

End Keys.

Lemma loadedPage_reachable : reachable asciiLowerCase loadedPage.
Proof.
  apply (reachable_step asciiLowerCase new (LoadBindings sampleTable)
           loadedPage (loadBindings sampleTable new).2).
  - apply reachable_new.
  - reflexivity.
Qed.


Lemma prefix_key_restarts_timer_witness :
  exists p',
    handleKeyDown asciiLowerCase Absent (keyEvent true "m") loadedPage
    = (p', [Log (mkLog LDebug (js "Key pressed: Alt+m"));
            Log (mkLog LDebug (js "Partial sequence match: Alt+m"));
            PreventDefault; StopPropagation])
    /\ currentSequence (this p') = [js "Alt+m"]
    /\ timeoutId (this p') = Some 1%positive
    /\ timers p' = [(1%positive, Num 1500)]
    /\ nextTimer p' = 2%positive
    /\ bindings (this p') = bindings (this loadedPage)
    /\ Pending p'.
Proof.
  apply (prefix_key_restarts_timer asciiLowerCase Absent (keyEvent true "m")
           loadedPage).
  - apply loadedPage_reachable.
  - reflexivity.
  - reflexivity.
  - discriminate.
  - intros Hin. vm_compute in Hin.
    repeat (apply elem_of_cons in Hin as [Hin|Hin]; [discriminate|]).
    by apply elem_of_nil in Hin.
  - exists (js "Alt+m g"). split; [vm_compute; left|].
    by apply startsWith_strictPrefix.
Defined.


(** ** Settings and tables *)

(** X13.  [setSequenceTimeout] clamps a number into 500..5000 ms; what
    is no number, [undefined] as [content.js] passes it for a removed
    setting or [NaN], makes the delay [NaN], so the range holds for
    numbers only.  Nothing else is touched: a callback that is already
    armed keeps the delay it was armed with. *)
Theorem setSequenceTimeout_clamps timeout p :
  let p' := (setSequenceTimeout timeout p).1 in
  sequenceTimeout (this p')
  = match toNumber timeout with
    | Num z => Num (if (z <? 500)%Z then 500
                    else if (5000 <? z)%Z then 5000 else z)
    | NaN => NaN
    end
  /\ (forall z, timeout = Number (Num z) ->
        exists t, sequenceTimeout (this p') = Num t /\ (500 <= t <= 5000)%Z)
  /\ (timeout = Undefined \/ timeout = Number NaN ->
      sequenceTimeout (this p') = NaN
      /\ (setSequenceTimeout timeout p).2
         = [Log (mkLog LInfo (js "Sequence timeout set to NaNms"))])
  /\ timers p' = timers p
  /\ timeoutId (this p') = timeoutId (this p)
  /\ currentSequence (this p') = currentSequence (this p)
  /\ bindings (this p') = bindings (this p)
  /\ enabled (this p') = enabled (this p).
Proof.
  assert (Hclamp : forall z,
             Z.max 500 (Z.min 5000 z)
             = (if (z <? 500)%Z then 500
                else if (5000 <? z)%Z then 5000 else z)%Z).
  { intros z. destruct (Z.ltb_spec z 500), (Z.ltb_spec 5000 z); lia. }
  unfold setSequenceTimeout, set_this. cbn [fst snd this sequenceTimeout
    timers timeoutId currentSequence bindings enabled].
  split; [|split; [|split; [|done]]].
  - destruct timeout as [[z|]|]; cbn [toNumber math_min math_max];
      [by rewrite Hclamp | done | done].
  - intros z ->. cbn [toNumber math_min math_max]. eexists. split; [done|].
    lia.
  - by intros [-> | ->].
Qed.

(** X14.  [loadSettings] does not clamp: the stored delay is taken as it
    is, and 1500 ms stands in for a missing one or for 0.  It agrees
    with what [setSequenceTimeout] makes of the same number exactly
    for the numbers from 500 to 5000. *)
Theorem stored_timeout_is_not_clamped timeout storedEnabled p :
  sequenceTimeout (this (loadSettings (Some timeout) storedEnabled p))
  = Num (if (timeout =? 0)%Z then 1500 else timeout)%Z
  /\ sequenceTimeout (this (loadSettings None storedEnabled p)) = Num 1500
  /\ (sequenceTimeout (this (loadSettings (Some timeout) storedEnabled p))
      = sequenceTimeout
          (this (setSequenceTimeout (Number (Num timeout)) p).1)
      <-> (500 <= timeout <= 5000)%Z).
Proof.
  cbn. split; [done|]. split; [done|].
  destruct (Z.eqb_spec timeout 0); split; intros H; try injection H as H;
    try f_equal; lia.
Qed.

Lemma foldl_map_set_NoDup {V} (acc T : JsMap V) :
  NoDup (map_keys acc) ->
  NoDup (map_keys (foldl (fun m '(k, v) => map_set k v m) acc T)).
Proof.
  revert acc; induction T as [|[k v] T IH]; intros acc Hacc; [done|].
  cbn [foldl]. apply IH. by apply map_set_NoDup.
Qed.

Lemma copy_of_copy {V} (T : JsMap V) :
  NoDup (map_keys T) -> foldl (fun m '(k, v) => map_set k v m) [] T = T.
Proof. intros H. by rewrite (foldl_map_set_app [] T). Qed.

(** X15.  Loading a table replaces the previous one wholesale (loading
    twice is loading the last), a compiled table is registered as it
    is, and the sequence in progress, its timer and the settings are
    left alone. *)
Theorem loadBindings_replaces_table table1 table2 content p :
  (loadBindings table2 (loadBindings table1 p).1).1 = (loadBindings table2 p).1
  /\ bindings (this (loadBindings (parse content).1 p).1) = (parse content).1
  /\ currentSequence (this (loadBindings table1 p).1) = currentSequence (this p)
  /\ timeoutId (this (loadBindings table1 p).1) = timeoutId (this p)
  /\ timers (loadBindings table1 p).1 = timers p
  /\ enabled (this (loadBindings table1 p).1) = enabled (this p)
  /\ sequenceTimeout (this (loadBindings table1 p).1) = sequenceTimeout (this p).
Proof.
  split; [done|]. split; [|done].
  unfold loadBindings, detectConflicts. cbn [fst this bindings].
  apply copy_of_copy, parse_NoDup.
Qed.

(** ** Conflicts and statistics *)

Lemma strictPrefix_irrefl a : ~ strictPrefix a a.
Proof.
  intros (k & Hk & E). apply (f_equal length) in E.
  rewrite length_app in E. destruct k; [done|]. cbn [length] in E. lia.
Qed.

Lemma foldl_set_add_nil (found : list (jsstring * jsstring)) acc :
  foldl (fun s c => set_add (describeConflict c) s) acc found = [] ->
  acc = [] /\ found = [].
Proof.
  revert acc; induction found as [|c found IH]; intros acc; cbn [foldl];
    [done|].
  intros [Hacc _]%IH. exfalso. unfold set_add in Hacc.
  destruct (existsb _ acc) eqn:E.
  - subst acc. discriminate E.
  - by destruct acc.
Qed.

(** X16.  The manager reports no conflict exactly when no registered
    sequence begins another one token-wise, and exactly then
    [detectConflicts] logs nothing. *)
Theorem no_conflict_iff_prefix_free m :
  (conflicts (detectConflicts m).1 = []
   <-> forall seq1 seq2,
         seq1 ∈ map_keys (bindings m) -> seq2 ∈ map_keys (bindings m) ->
         ~ conflicting seq1 seq2)
  /\ (conflicts (detectConflicts m).1 = [] <-> (detectConflicts m).2 = []).
Proof.
  assert (E : conflicts (detectConflicts m).1 = []
              <-> conflictPairs (map_keys (bindings m)) = []).
  { unfold detectConflicts. cbn [fst conflicts]. split.
    - by intros [_ ?]%foldl_set_add_nil.
    - by intros ->. }
  split.
  - rewrite E. split.
    + intros Hnil seq1 seq2 H1 H2 Hc.
      destruct (decide (seq1 = seq2)) as [->|Hne].
      * destruct Hc as [Hc|Hc]; by apply strictPrefix_irrefl in Hc.
      * apply (flagged_spec _ _ _ H1 H2 Hne) in Hc. unfold flagged in Hc.
        rewrite Hnil in Hc. by destruct Hc as [?%elem_of_nil|?%elem_of_nil].
    + intros Hfree.
      destruct (conflictPairs (map_keys (bindings m))) as [|[a b] l] eqn:El;
        [done|].
      assert (Hin : (a, b) ∈ conflictPairs (map_keys (bindings m)))
        by (rewrite El; left).
      apply conflictPairs_sound in Hin as (Ha & Hb & Hc).
      apply hasConflict_spec in Hc. by destruct (Hfree a b).
  - split.
    + intros Hnil. pose proof Hnil as Hpairs. apply E in Hpairs.
      unfold detectConflicts in *. cbn [fst snd conflicts] in *.
      by rewrite Hpairs.
    + unfold detectConflicts. cbn [fst snd conflicts].
      intros [Hf _]%app_eq_nil. apply fmap_nil_inv in Hf. by rewrite Hf.
Qed.

Lemma includes_space_tokens key :
  includes key (js " ") = true <-> (1 < length (tokens key))%nat.
Proof.
  unfold tokens, split. induction key as [|c key IH].
  - cbn. split; [done | lia].
  - cbn [includes splitWhere]. cbn [js startsWith].
    change (startsWith (c :: key) (js " ")) with ((c =? SPACE) && true).
    rewrite andb_true_r.
    pose proof (splitWhere_nonempty (fun c => c =? SPACE) key) as Hne.
    destruct (c =? SPACE) eqn:Ec; cbn [orb].
    + split; [intros _|done]. cbn [length].
      destruct (splitWhere _ key); [done|]. cbn [length]. lia.
    + rewrite IH. by destruct (splitWhere _ key).
Qed.

(** X17.  In the statistics the single-step and the multi-step
    bindings add up to the total; the multi-step ones are the
    sequences of more than one token, the single-step ones those of
    exactly one. *)
Theorem getStatistics_counts m :
  let stats := getStatistics m in
  (singleStepBindings stats + multiStepBindings stats
   = totalBindings stats)%nat
  /\ multiStepBindings stats
     = length (List.filter (fun key => Nat.ltb 1 (length (tokens key)))
                 (map_keys (bindings m)))
  /\ singleStepBindings stats
     = length (List.filter (fun key => Nat.eqb (length (tokens key)) 1)
                 (map_keys (bindings m))).
Proof.
  unfold getStatistics.
  cbn [singleStepBindings multiStepBindings totalBindings]. unfold map_keys.
  induction (bindings m) as [|[k v] l IH]; [done|].
  cbn [fmap list_fmap fst List.filter length].
  pose proof (splitWhere_nonempty (fun c => c =? SPACE) k) as Hne.
  pose proof (includes_space_tokens k) as Hk.
  assert (Hle : (length (List.filter (fun key => includes key (js " ")) l.*1)
                 <= length l)%nat).
  { clear. induction l as [|[k v] l IH]; [done|].
    cbn [fmap list_fmap fst List.filter length].
    destruct (includes k _); cbn [length]; lia. }
  destruct (includes k (js " ")) eqn:Ek.
  - assert (Hlt : (1 < length (tokens k))%nat) by (by apply Hk).
    assert (E1 : Nat.ltb 1 (length (tokens k)) = true)
      by (by apply Nat.ltb_lt).
    assert (E2 : Nat.eqb (length (tokens k)) 1 = false)
      by (apply Nat.eqb_neq; lia).
    rewrite E1, E2. cbn [length]. lia.
  - assert (Hlt : ~ (1 < length (tokens k))%nat)
      by (intros H%Hk; congruence).
    assert (Hlen : length (tokens k) = 1%nat).
    { unfold tokens, split in *.
      destruct (splitWhere _ k) as [|? [|? ?]]; [done|done|].
      cbn [length] in Hlt. lia. }
    assert (E1 : Nat.ltb 1 (length (tokens k)) = false)
      by (apply Nat.ltb_ge; lia).
    assert (E2 : Nat.eqb (length (tokens k)) 1 = true)
      by (by apply Nat.eqb_eq).
    rewrite E1, E2. cbn [length]. lia.
Qed.

(** ** Shadowed bindings *)

Lemma tokens_join ws :
  ws <> [] -> Forall (fun w => Forall (fun c => (c =? SPACE) = false) w) ws ->
  tokens (join [SPACE] ws) = ws.
Proof. intros Hne Hws. by apply (splitWhere_join (fun c => c =? SPACE)). Qed.

Lemma prefix_snoc_cases {A} (q l : list A) x :
  q `prefix_of` l ++ [x] -> q `prefix_of` l \/ q = l ++ [x].
Proof.
  intros [k Hk]. destruct k as [|y k _] using rev_ind.
  - right. by rewrite app_nil_r in Hk.
  - left. rewrite app_assoc in Hk. apply app_inj_tail in Hk as [-> _].
    by exists k.
Qed.

Lemma strictPrefix_snoc (a l : list jsstring) x :
  strictPrefix a (l ++ [x]) -> a `prefix_of` l.
Proof.
  intros (k & Hk & E). destruct k as [|y k _] using rev_ind; [done|].
  rewrite app_assoc in E. apply app_inj_tail in E as [-> _]. by exists k.
Qed.

Lemma unshadowed_idle m : currentSequence m = [] -> unshadowed m.
Proof.
  intros E. unfold unshadowed. rewrite E. split; [done|].
  intros q Hq [k Hk]. symmetry in Hk. by apply app_eq_nil in Hk as [? _].
Qed.

Section Shadowing.

Variable toLowerCase : jsstring -> jsstring.

(** A candidate that continues a registered sequence is not completed
    from an unshadowed manager. *)
Lemma unshadowed_candidate m token short :
  unshadowed m ->
  Forall (fun c => (c =? SPACE) = false) token ->
  short ∈ map_keys (bindings m) ->
  ~ strictPrefix (tokens short)
      (tokens (join [SPACE] (currentSequence m ++ [token]))).
Proof.
  intros [Hsp Hun] Htok Hshort Hs.
  rewrite tokens_join in Hs.
  - apply strictPrefix_snoc in Hs.
    apply Hun in Hs; [|apply splitWhere_nonempty].
    unfold tokens in Hs. rewrite join_split in Hs.
    by apply map_get_None in Hs.
  - by destruct (currentSequence m).
  - apply Forall_app. split; [done|]. by apply Forall_singleton.
Qed.

Lemma handleKeyDown_unshadowed inserter event p short long :
  unshadowed (this p) ->
  spaceless toLowerCase (KeyDown inserter event) = true ->
  short ∈ map_keys (bindings (this p)) ->
  strictPrefix (tokens short) (tokens long) ->
  unshadowed (this (handleKeyDown toLowerCase inserter event p).1)
  /\ bindings (this (handleKeyDown toLowerCase inserter event p).1)
     = bindings (this p)
  /\ Forall (fun e => ~ completes long e)
       (handleKeyDown toLowerCase inserter event p).2.
Proof.
  intros Hun Htok Hshort Hs. cbn [spaceless] in Htok.
  set (token := eventToKeyString toLowerCase event) in *.
  assert (Htok' : Forall (fun c => (c =? SPACE) = false) token).
  { apply Forall_forall. intros c Hc.
    rewrite forallb_forall in Htok. apply negb_true_iff, Htok.
    by apply list_elem_of_In. }
  unfold handleKeyDown. fold token.
  change (currentSequence (this (push token p)))
    with (currentSequence (this p) ++ [token]).
  change (bindings (this (push token p))) with (bindings (this p)).
  set (candidate := join [SPACE] (currentSequence (this p) ++ [token])).
  assert (Hne : candidate <> long).
  { intros <-. by eapply unshadowed_candidate. }
  destruct (negb (enabled (this p)));
    [cbn [fst snd]; split; [done|split; [done|constructor]]|].
  destruct (_ && _);
    [cbn [fst snd]; split; [done|split; [done|constructor]]|].
  destruct (str_eqb token []);
    [cbn [fst snd]; split; [done|split; [done|constructor]]|].
  destruct (map_get candidate (bindings (this p))) as [b|] eqn:Hget.
  - split; [|split].
    + apply unshadowed_idle. unfold resetSequence, clearSequenceTimeout.
      cbn. by destruct (timeoutId (this p)).
    + apply (resetSequence_bindings (push token p)).
    + unfold resetSequence. cbn [fst snd]. repeat apply Forall_app_2.
      * repeat constructor; cbn [completes]; [discriminate|].
        by intros [= E].
      * unfold executeAction.
        destruct (action b); [destruct inserter as [|throws];
                              [|destruct (throws _ _)]|];
          repeat constructor; cbn [completes]; try discriminate; try done.
      * repeat constructor; cbn [completes]; discriminate.
      * repeat constructor; cbn [completes]; tauto.
  - destruct (hasMatchingPrefix candidate (this (push token p))).
    + split; [|split].
      * destruct Hun as [Hsp Hun].
        assert (E : currentSequence (this (startSequenceTimeout (push token p)))
                    = currentSequence (this p) ++ [token]).
        { unfold startSequenceTimeout, clearSequenceTimeout.
          cbn. by destruct (timeoutId (this p)). }
        assert (Eb : bindings (this (startSequenceTimeout (push token p)))
                     = bindings (this p)).
        { unfold startSequenceTimeout, clearSequenceTimeout.
          cbn. by destruct (timeoutId (this p)). }
        unfold unshadowed. cbn [fst]. rewrite E, Eb. split.
        -- apply Forall_app. split; [done|]. by apply Forall_singleton.
        -- intros q Hq [Hpre| ->]%prefix_snoc_cases; [by apply Hun | done].
      * unfold startSequenceTimeout, clearSequenceTimeout.
        cbn. by destruct (timeoutId (this p)).
      * repeat constructor; cbn [completes]; (discriminate || tauto).
    + split; [|split].
      * apply unshadowed_idle. unfold resetSequence, clearSequenceTimeout.
        cbn. by destruct (timeoutId (this p)).
      * apply (resetSequence_bindings (push token p)).
      * unfold resetSequence. cbn [fst snd app].
        repeat constructor; cbn [completes]; discriminate.
Qed.

Lemma resetSequence_unshadowed p :
  unshadowed (this (resetSequence p).1).
Proof.
  apply unshadowed_idle. unfold resetSequence, clearSequenceTimeout.
  cbn. by destruct (timeoutId (this p)).
Qed.

(** Every operation but a new table keeps the manager unshadowed and
    completes no sequence that continues a registered one. *)
Lemma step_unshadowed op p p' fx short long :
  unshadowed (this p) ->
  keepsTable op = true -> spaceless toLowerCase op = true ->
  short ∈ map_keys (bindings (this p)) ->
  strictPrefix (tokens short) (tokens long) ->
  step toLowerCase op p = Some (p', fx) ->
  unshadowed (this p') /\ bindings (this p') = bindings (this p)
  /\ Forall (fun e => ~ completes long e) fx.
Proof.
  intros Hun Hkeep Hsp Hshort Hs.
  destruct op as [inserter event|id|e|table|t|t e|]; cbn [step]; try done.
  - intros H%(inj Some).
    pose proof (handleKeyDown_unshadowed inserter event p short long
                  Hun Hsp Hshort Hs) as Hk.
    by rewrite H in Hk.
  - unfold timeoutFires. destruct (existsb _ _); [|done].
    intros [= <- <-].
    split; [exact (resetSequence_unshadowed (clearTimeout id p))|]. split.
    + exact (resetSequence_bindings (clearTimeout id p)).
    + unfold resetSequence. cbn [snd].
      repeat constructor; cbn [completes]; discriminate.
  - intros H%(inj Some).
    assert (p' = (setEnabled e p).1) as -> by (by rewrite H).
    assert (fx = (setEnabled e p).2) as -> by (by rewrite H). clear H.
    destruct e.
    + split; [done|]. split; [done|].
      repeat constructor; cbn [completes]. by intros [= ?].
    + split; [exact (resetSequence_unshadowed _)|]. split.
      * exact (resetSequence_bindings _).
      * unfold setEnabled, resetSequence. cbn [snd app].
        repeat constructor; cbn [completes]; try discriminate;
          by intros [= ?].
  - intros H%(inj Some).
    assert (p' = (setSequenceTimeout t p).1) as -> by (by rewrite H).
    assert (fx = (setSequenceTimeout t p).2) as -> by (by rewrite H). clear H.
    split; [done|]. split; [done|].
    repeat constructor; cbn [completes]. by intros [= ?].
  - intros [= <- <-]. split; [done|]. split; [done|]. constructor.
  - intros H%(inj Some).
    assert (p' = (stopListening p).1) as -> by (by rewrite H).
    assert (fx = (stopListening p).2) as -> by (by rewrite H). clear H.
    split; [exact (resetSequence_unshadowed p)|]. split.
    + exact (resetSequence_bindings p).
    + unfold stopListening, resetSequence. cbn [snd app].
      repeat constructor; cbn [completes]; discriminate.
Qed.

(** X18.  A registered sequence shadows every sequence it begins:
    from a manager with no sequence in progress, as long as the table
    is not replaced and no key string holds a space, no run of
    operations completes a sequence that continues a registered one;
    neither the log entry of the match nor a call of the inserter for
    it is ever made. *)
Theorem shadowed_binding_never_fires ops p p' fx short long :
  currentSequence (this p) = [] ->
  short ∈ map_keys (bindings (this p)) ->
  strictPrefix (tokens short) (tokens long) ->
  Forall (fun op => keepsTable op = true) ops ->
  Forall (fun op => spaceless toLowerCase op = true) ops ->
  run toLowerCase ops p = Some (p', fx) ->
  Forall (fun e => ~ completes long e) fx.
Proof.
  intros Hidle%unshadowed_idle Hshort Hs Hkeep Hsp. revert p p' fx Hidle Hshort.
  induction ops as [|op ops IH]; intros p p' fx Hun Hshort; cbn [run].
  - intros [= <- <-]. constructor.
  - apply Forall_cons in Hkeep as [Hk Hkeep].
    apply Forall_cons in Hsp as [Hp Hsp].
    destruct (step toLowerCase op p) as [[p1 fx1]|] eqn:Hstep; [|done].
    destruct (step_unshadowed op p p1 fx1 short long Hun Hk Hp Hshort Hs Hstep)
      as (Hun1 & Hb1 & Hfx1).
    destruct (run toLowerCase ops p1) as [[p2 fx2]|] eqn:Hrun; [|done].
    intros [= <- <-]. apply Forall_app. split; [done|].
    apply (IH Hkeep Hsp p1 p2 fx2); [done| |done]. by rewrite Hb1.
Qed.

End Shadowing.

Lemma shadowed_binding_never_fires_witness :
  match run asciiLowerCase
          [KeyDown (Present returns) (keyEvent true "m");
           KeyDown (Present returns) (keyEvent false "g")] shadowedPage with
  | Some (_, fx) => Forall (fun e => ~ completes (js "Alt+m g") e) fx
  | None => False
  end.
Proof.
  destruct (run _ _ _) as [[p' fx]|] eqn:E; [|vm_compute in E; discriminate].
  apply (shadowed_binding_never_fires asciiLowerCase
           [KeyDown (Present returns) (keyEvent true "m");
            KeyDown (Present returns) (keyEvent false "g")]
           shadowedPage p' fx (js "Alt+m") (js "Alt+m g")).
  - reflexivity.
  - vm_compute. left.
  - by apply startsWith_strictPrefix.
  - repeat constructor.
  - repeat constructor.
  - exact E.
Defined.

(** ** Letters *)

Lemma join_snoc sep (l : list jsstring) w :
  sep <> [] ->
  exists front, join sep (l ++ [w]) = front ++ w
                /\ (front = [] \/ last front = last sep).
Proof.
  intros Hsep. induction l as [|v l IH].
  - exists []. split; [done | by left].
  - destruct IH as (front & E & Hfront). exists (v ++ sep ++ front). cbn [app].
    rewrite join_cons by (by destruct l). rewrite E.
    split; [by rewrite <- !app_assoc|]. right.
    rewrite !last_app. destruct Hfront as [-> | ->].
    + cbn [last]. by destruct (last sep) eqn:Es; [|apply last_None in Es].
    + by destruct (last sep) eqn:Es; [|apply last_None in Es].
Qed.

Lemma replaceAll_short pat rep c :
  (2 <= length pat)%nat -> replaceAll pat rep [c] = [c].
Proof.
  intros Hlen. destruct pat as [|x [|y pat]]; cbn [length] in Hlen; try lia.
  apply replaceAll_nomatch. cbn [startsWith]. apply andb_false_r.
Qed.

Lemma normalizeStep_letter c : normalizeStep [c] = [c].
Proof.
  unfold normalizeStep, replaceEach. cbn [app modifierKeys specialKeys foldl].
  by rewrite !replaceAll_short by (cbn; lia).
Qed.

Lemma normalizeStep_Alt rest :
  normalizeStep (js "M-" ++ rest) = js "Alt+" ++ normalizeStep rest.
Proof. reflexivity. Qed.

Lemma isUpperAZ_spec c : isUpperAZ c = true <-> 65 <= c <= 90.
Proof. unfold isUpperAZ. rewrite andb_true_iff, !N.leb_le. lia. Qed.

Lemma isLowerAZ_spec c : isLowerAZ c = true <-> 97 <= c <= 122.
Proof. unfold isLowerAZ. rewrite andb_true_iff, !N.leb_le. lia. Qed.

Section Letters.

Variable toLowerCase : jsstring -> jsstring.

(** X19.  With one-character keys, a key string ends in an upper-case
    letter only if Shift is held; so the sequence the compiler makes of
    the key-spec [M-] followed by an upper-case letter, [Alt+] and the
    letter, is the key string of no such key. *)
Theorem uppercase_letter_needs_shift event c :
  (forall k d, last (toLowerCase [k]) = Some d -> isUpperAZ d = false) ->
  length (key event) = 1%nat ->
  isUpperAZ c = true ->
  (forall front,
     eventToKeyString toLowerCase event = front ++ [c] ->
     shiftKey event = true /\ key event = [c])
  /\ normalizeKeySequence (js "M-" ++ [c]) = js "Alt+" ++ [c]
  /\ eventToKeyString toLowerCase event
     <> normalizeKeySequence (js "M-" ++ [c]).
Proof.
  intros Hlow Hlen Hc.
  assert (Hshift : forall front,
             eventToKeyString toLowerCase event = front ++ [c] ->
             shiftKey event = true /\ key event = [c]).
  { intros front. unfold eventToKeyString.
    destruct (key event) as [|k [|? ?]]; try discriminate Hlen.
    set (parts := _ ++ _ ++ _ ++ _).
    assert (Hend : forall w d, w <> [] -> last w = Some d ->
              join (js "+") (parts ++ [w]) = front ++ [c] -> d = c).
    { intros w d Hw Hd E. apply (f_equal last) in E.
      rewrite (join_last _ _ w) in E by (by rewrite ?last_snoc).
      rewrite last_snoc in E. congruence. }
    destruct (str_eqb [k] (js " ")).
    { intros E. apply (Hend _ 101) in E; [|done..]. by subst c. }
    destruct (shiftKey event && isUpperAZ k) eqn:E1.
    { intros E. apply (Hend _ k) in E; [|done..]. subst k.
      by apply andb_true_iff in E1 as [-> _]. }
    destruct (negb (shiftKey event) && isLowerAZ k) eqn:E2.
    { intros E. apply (Hend _ k) in E; [|done..]. subst k.
      apply andb_true_iff in E2 as [_ E2].
      apply isLowerAZ_spec in E2. apply isUpperAZ_spec in Hc. lia. }
    intros E. destruct (toLowerCase [k]) as [|x t] eqn:Et.
    - destruct (join_snoc (js "+") parts [] ltac:(done))
        as (front' & E' & Hfront).
      rewrite E' in E. rewrite app_nil_r in E. subst front'.
      destruct Hfront as [Hnil|Hlast]; [by destruct front|].
      rewrite last_snoc in Hlast. injection Hlast as ->. done.
    - destruct (last (x :: t)) as [d|] eqn:Ed;
        [|by apply last_None in Ed].
      apply (Hend _ d) in E; [|done..]. subst d.
      rewrite <- Et in Ed. apply Hlow in Ed. congruence. }
  assert (Hnorm : normalizeKeySequence (js "M-" ++ [c]) = js "Alt+" ++ [c]).
  { rewrite normalizeKeySequence_step, normalizeStep_Alt.
    by rewrite normalizeStep_letter. }
  split; [done|]. split; [done|]. rewrite Hnorm. intros E.
  destruct (Hshift (js "Alt+") E) as [Hs Hk].
  revert E. unfold eventToKeyString. rewrite Hs, Hk.
  apply isUpperAZ_spec in Hc.
  assert (E32 : str_eqb [c] (js " ") = false)
    by (apply str_eqb_neq; intros [= ->]; lia).
  rewrite E32. cbn [andb].
  assert (Eu : isUpperAZ c = true) by (by apply isUpperAZ_spec).
  rewrite Eu.
  destruct (ctrlKey event), (altKey event), (metaKey event);
    intros E%(f_equal length); discriminate E.
Qed.

End Letters.

Lemma asciiLowerCase_letter k d :
  last (asciiLowerCase [k]) = Some d -> isUpperAZ d = false.
Proof.
  unfold asciiLowerCase. cbn [fmap list_fmap last].
  destruct (isUpperAZ k) eqn:E; intros [= <-].
  - apply isUpperAZ_spec in E. apply not_true_iff_false.
    intros H%isUpperAZ_spec. lia.
  - done.
Qed.

Lemma uppercase_letter_needs_shift_witness :
  (forall front,
     eventToKeyString asciiLowerCase (keyEvent true "D") = front ++ [68] ->
     shiftKey (keyEvent true "D") = true /\ key (keyEvent true "D") = [68])
  /\ normalizeKeySequence (js "M-" ++ [68]) = js "Alt+" ++ [68]
  /\ eventToKeyString asciiLowerCase (keyEvent true "D")
     <> normalizeKeySequence (js "M-" ++ [68]).
Proof.
  apply (uppercase_letter_needs_shift asciiLowerCase (keyEvent true "D") 68).
  - apply asciiLowerCase_letter.
  - reflexivity.
  - reflexivity.
Defined.

(** ** The plugin *)

Lemma importBindings_NoDup exported :
  NoDup (map_keys (importBindings exported).1).
Proof.
  unfold importBindings. cbn [fst]. apply foldl_map_set_NoDup. constructor.
Qed.

Lemma loadBindings_NoDup table p :
  NoDup (map_keys table) ->
  bindings (this (loadBindings table p).1) = table.
Proof.
  intros H. unfold loadBindings, detectConflicts. cbn [fst this bindings].
  by apply copy_of_copy.
Qed.

(** X20.  After the plugin has loaded bindings, from the text of a
    file or from an exported object, the table of the manager is the
    table of the parser; the plugin is neither activated nor
    deactivated by it and a sequence in progress is kept.  A value of
    another type changes nothing. *)
Theorem plugin_tables_agree pl :
  (forall content,
     let pl' := (Plugin.loadBindings (Plugin.FileText content) pl).1 in
     Plugin.parserBindings pl' = (parse content).1
     /\ bindings (this (Plugin.page pl')) = (parse content).1
     /\ Plugin.isActive pl' = Plugin.isActive pl
     /\ Plugin.listening pl' = Plugin.listening pl
     /\ currentSequence (this (Plugin.page pl'))
        = currentSequence (this (Plugin.page pl)))
  /\ (forall exported,
        let pl' := (Plugin.loadBindings (Plugin.Exported exported) pl).1 in
        Plugin.parserBindings pl' = (importBindings exported).1
        /\ bindings (this (Plugin.page pl')) = (importBindings exported).1
        /\ Plugin.isActive pl' = Plugin.isActive pl
        /\ Plugin.listening pl' = Plugin.listening pl
        /\ currentSequence (this (Plugin.page pl'))
           = currentSequence (this (Plugin.page pl)))
  /\ Plugin.loadBindings Plugin.OtherValue pl = (pl, []).
Proof.
  split; [|split; [|done]].
  - intros content. cbn.
    pose proof (loadBindings_NoDup (parse content).1 (Plugin.page pl)
                  (parse_NoDup content)) as E.
    unfold loadBindings in E. cbn in E. by rewrite E.
  - intros exported. cbn.
    pose proof (loadBindings_NoDup (importBindings exported).1 (Plugin.page pl)
                  (importBindings_NoDup exported)) as E.
    unfold loadBindings in E. cbn in E. by rewrite E.
Qed.

(** X21.  [toggle] flips the plugin, and afterwards the manager is
    enabled and listening exactly when the plugin is active; the table
    is kept; a plugin toggled off has no sequence in progress and
    ignores every key. *)
Theorem toggle_switches_manager toLowerCase pl :
  let pl' := (Plugin.toggle pl).1 in
  Plugin.isActive pl' = negb (Plugin.isActive pl)
  /\ Plugin.listening pl' = Plugin.isActive pl'
  /\ enabled (this (Plugin.page pl')) = Plugin.isActive pl'
  /\ bindings (this (Plugin.page pl')) = bindings (this (Plugin.page pl))
  /\ (Plugin.isActive pl' = false ->
      currentSequence (this (Plugin.page pl')) = []
      /\ timeoutId (this (Plugin.page pl')) = None
      /\ forall inserter event,
           Plugin.keydown toLowerCase inserter event pl' = (pl', [])).
Proof.
  unfold Plugin.toggle, Plugin.deactivate, Plugin.activate.
  destruct (Plugin.isActive pl) eqn:Ea; cbn [negb].
  - unfold setEnabled, stopListening, resetSequence, clearSequenceTimeout,
      set_this.
    cbn. destruct (timeoutId (this (Plugin.page pl))) eqn:Eid; cbn;
      by repeat split.
  - cbn. by repeat split.
Qed.

(** ** From a line of the file to the inserted text *)

Lemma handleKeyDown_fires toLowerCase throws event p b text :
  let token := eventToKeyString toLowerCase event in
  let candidate := join [SPACE] (currentSequence (this p) ++ [token]) in
  enabled (this p) = true ->
  isEditableContext (Some (target event)) || isSpecialKey event = true ->
  token <> [] ->
  map_get candidate (bindings (this p)) = Some b ->
  action b = Insert text ->
  handleKeyDown toLowerCase (Present throws) event p
  = ((resetSequence (push token p)).1,
     [Log (mkLog LDebug (js "Key pressed: " ++ token));
      Log (mkLog LInfo (js "Hotkey sequence completed: " ++ candidate));
      InsertText text (target event) (this (push token p));
      (if throws text (target event)
       then Log (mkLog LError (js "Failed to execute action:"))
       else Log (mkLog LInfo (js "Action executed: " ++ command b)));
      Log (mkLog LDebug (js "Sequence reset"));
      PreventDefault; StopPropagation]).
Proof.
  intros token candidate Hen Hctx Htok Hget Hact.
  unfold token in Htok. accept_key Hen Hctx Htok. fold token. fold candidate.
  rewrite Hget. unfold executeAction. rewrite Hact.
  unfold resetSequence. cbn [fst snd].
  by destruct (throws text (target event)).
Qed.

Section EndToEnd.

Variable toLowerCase : jsstring -> jsstring.

(** X22.  From a line of the file to the inserted text: once a new
    plugin has loaded the line that binds [M-] and a lower-case letter
    to [self-insert] and a text, and is activated, the key of that
    letter with Alt alone calls the inserter with the text on the
    target of the key, while the one token is pending, suppresses the
    default effect of the key and leaves the manager idle. *)
Theorem bound_letter_inserts_text throws ws1 ws2 c text event :
  let line :=
    bindingLine ws1 (js "M-" ++ [c]) ws2 (js "self-insert " ++ text) in
  let loaded := (Plugin.loadBindings (Plugin.FileText line) Plugin.new).1 in
  let active := (Plugin.activate loaded).1 in
  blank ws1 -> blank ws2 ->
  isLowerAZ c = true ->
  Forall (fun x => x <> QUOTE /\ x <> LF) text ->
  altKey event = true -> ctrlKey event = false ->
  shiftKey event = false -> metaKey event = false ->
  key event = [c] ->
  exists pl' during outcome,
    Plugin.keydown toLowerCase (Present throws) event active
    = (pl',
       [Log (mkLog LDebug (js "Key pressed: Alt+" ++ [c]));
        Log (mkLog LInfo (js "Hotkey sequence completed: Alt+" ++ [c]));
        InsertText (Str text) (target event) during;
        Log outcome;
        Log (mkLog LDebug (js "Sequence reset"));
        PreventDefault; StopPropagation])
    /\ currentSequence during = [js "Alt+" ++ [c]]
    /\ Idle (Plugin.page pl')
    /\ Plugin.isActive pl' = true.
Proof.
  intros line loaded active H1 H2 Hc Htext Halt Hctrl Hshift Hmeta Hkey.
  apply isLowerAZ_spec in Hc.
  set (b := {| keySequence := js "Alt+" ++ [c];
               originalKeySequence := js "M-" ++ [c];
               command := js "self-insert " ++ text;
               action := Insert (Str text) |}).
  assert (Htable : (parse line).1 = [(js "Alt+" ++ [c], b)]).
  { unfold line. rewrite parse_bindingLine; [|done|done|..].
    - rewrite normalizeKeySequence_step, normalizeStep_Alt,
        normalizeStep_letter.
      unfold b. do 3 f_equal. unfold parseCommand.
      change (startsWith _ (js "math-insert")) with false.
      change (includes _ (js "insert")) with true. cbv iota.
      change (extractInsertText (js "self-insert " ++ text))
        with (extractInsertText (js "self-insert" ++ SPACE :: text)).
      by rewrite (extractInsertText_after_word (js "self-insert") text)
        by (vm_compute; intros Hin;
            repeat (apply elem_of_cons in Hin as [Hin|Hin]; [discriminate|]);
            by apply elem_of_nil in Hin).
    - split; [done|]. unfold QUOTE, LF.
      repeat constructor; try discriminate; lia.
    - split; [done|]. apply Forall_app. split; [|done].
      repeat constructor; discriminate. }
  assert (Hb : bindings (this (Plugin.page active)) = [(js "Alt+" ++ [c], b)]).
  { unfold active, loaded. cbn.
    pose proof (loadBindings_NoDup (parse line).1 new (parse_NoDup line)) as E.
    unfold loadBindings in E. cbn in E. by rewrite E. }
  assert (Htoken : eventToKeyString toLowerCase event = js "Alt+" ++ [c]).
  { unfold eventToKeyString. rewrite Halt, Hctrl, Hshift, Hmeta, Hkey.
    assert (E32 : str_eqb [c] (js " ") = false)
      by (apply str_eqb_neq; intros [= ->]; lia).
    rewrite E32. cbn [andb negb].
    assert (El : isLowerAZ c = true) by (by apply isLowerAZ_spec).
    by rewrite El. }
  assert (Hfire := handleKeyDown_fires toLowerCase throws event
                     (Plugin.page active) b (Str text)).
  rewrite Htoken in Hfire. cbn zeta in Hfire.
  unfold Plugin.keydown.
  change (Plugin.listening active) with true. cbv iota.
  rewrite Hfire.
  - cbv iota beta.
    destruct (throws (Str text) (target event));
      (eexists _, _, _; split; [reflexivity|]; split; [done|]; split; [|done];
       apply resetSequence_Idle; by intros t ?%elem_of_nil).
  - done.
  - unfold isSpecialKey. rewrite Halt. apply orb_true_r.
  - done.
  - rewrite Hb. cbn [map_get]. change (currentSequence _) with (@nil jsstring).
    cbn [app join]. by rewrite str_eqb_refl.
  - done.
Qed.

End EndToEnd.

Lemma bound_letter_inserts_text_witness :
  exists pl' during outcome,
    Plugin.keydown asciiLowerCase (Present returns) (keyEvent true "m")
      (Plugin.activate
         (Plugin.loadBindings
            (Plugin.FileText
               (bindingLine (js " ") (js "M-" ++ [109]) (js " ")
                  (js "self-insert " ++ js "mu")))
            Plugin.new).1).1
    = (pl',
       [Log (mkLog LDebug (js "Key pressed: Alt+" ++ [109]));
        Log (mkLog LInfo (js "Hotkey sequence completed: Alt+" ++ [109]));
        InsertText (Str (js "mu")) (target (keyEvent true "m")) during;
        Log outcome;
        Log (mkLog LDebug (js "Sequence reset"));
        PreventDefault; StopPropagation])
    /\ currentSequence during = [js "Alt+" ++ [109]]
    /\ Idle (Plugin.page pl')
    /\ Plugin.isActive pl' = true.
Proof.
  apply (bound_letter_inserts_text asciiLowerCase returns (js " ") (js " ")
           109 (js "mu") (keyEvent true "m")).
  - split; [done|]. by repeat constructor.
  - split; [done|]. by repeat constructor.
  - reflexivity.
  - by repeat constructor.
  - reflexivity.
  - reflexivity.
  - reflexivity.
  - reflexivity.
  - reflexivity.
Defined.

(** ** The inserter *)

Section Inserter.

Import TextInserter.

(** [indexOf] finds the first occurrence. *)
Lemma indexOf_spec s p :
  (includes s p = false /\ indexOf s p = (-1)%Z)
  \/ exists before after,
       s = before ++ p ++ after
       /\ indexOf s p = Z.of_nat (length before)
       /\ forall before' after',
            s = before' ++ p ++ after' ->
            (length before <= length before')%nat.
Proof.
  induction s as [|c s IH]; cbn [indexOf includes].
  - destruct (startsWith [] p) eqn:E; [right | by left].
    apply startsWith_spec in E as [r E]. exists [], r.
    split; [done|]. split; [done|]. intros; cbn [length]; lia.
  - destruct (startsWith (c :: s) p) eqn:E.
    + right. apply startsWith_spec in E as [r E]. exists [], r.
      split; [done|]. split; [done|]. intros; cbn [length]; lia.
    + cbn [orb].
      destruct IH as [[Hn ->]|(before & after & -> & -> & Hmin)].
      * left. by rewrite Hn.
      * right. exists (c :: before), after. split; [done|].
        split.
        { destruct (Z.ltb_spec (Z.of_nat (length before)) 0); [lia|].
          cbn [length]. lia. }
        intros before' after' E'. destruct before' as [|c' before'].
        { cbn [app] in E'. exfalso. apply not_true_iff_false in E. apply E.
          apply startsWith_spec. exists after'. exact E'. }
        cbn [app] in E'. injection E' as _ E'. apply Hmin in E'.
        cbn [length]. lia.
Qed.

Lemma first_braces text k :
  includes text (js "{}") = true ->
  (indexOf text (js "{}") + 1)%Z = k ->
  exists before after,
    text = before ++ js "{}" ++ after
    /\ k = (Z.of_nat (length before) + 1)%Z
    /\ (0 < k < Z.of_nat (length text))%Z
    /\ forall before' after',
         text = before' ++ js "{}" ++ after' ->
         (length before <= length before')%nat.
Proof.
  intros Hi <-.
  destruct (indexOf_spec text (js "{}"))
    as [[Hn _]|(before & after & E & -> & Hmin)]; [congruence|].
  exists before, after. split; [done|]. split; [done|]. split; [|done].
  rewrite E. rewrite !length_app. change (length (js "{}")) with 2%nat. lia.
Qed.

(** The three branches of [calculateCursorOffset] compute the same. *)
Lemma calculateCursorOffset_cases text :
  (includes text (js "{}") = false /\ calculateCursorOffset text = None)
  \/ (includes text (js "{}") = true
      /\ calculateCursorOffset text
         = Some (indexOf text (js "{}") + 1)%Z).
Proof.
  unfold calculateCursorOffset.
  destruct (str_eqb text (js "\frac{}{}")) eqn:E1.
  { apply str_eqb_eq in E1. right. by subst text. }
  destruct (str_eqb text (js "\sqrt{}")) eqn:E2.
  { apply str_eqb_eq in E2. right. by subst text. }
  destruct (includes text (js "{}")); [by right | by left].
Qed.

(** X23.  [calculateCursorOffset] gives [null] exactly for a text
    without a pair of braces; otherwise it gives the position just
    behind the opening brace of the first pair, which lies strictly
    inside the text.  Its three branches agree. *)
Theorem cursor_goes_into_first_braces text :
  (calculateCursorOffset text = None <-> includes text (js "{}") = false)
  /\ forall cursorOffset,
       calculateCursorOffset text = Some cursorOffset ->
       exists before after,
         text = before ++ js "{}" ++ after
         /\ cursorOffset = (Z.of_nat (length before) + 1)%Z
         /\ (0 < cursorOffset < Z.of_nat (length text))%Z
         /\ forall before' after',
              text = before' ++ js "{}" ++ after' ->
              (length before <= length before')%nat.
Proof.
  destruct (calculateCursorOffset_cases text) as [[Hi ->]|[Hi ->]].
  - split; [done|]. by intros k.
  - split; [split; [done | congruence]|].
    intros k [= Hk]. by apply first_braces.
Qed.

(** X24.  For a selection that lies within the value,
    [insertIntoInputElement] replaces the selected part by the text:
    the new value is what stood before the selection, the text, and
    what stood behind it; the cursor is set inside or at the end of
    the inserted text, and at its end when the text has no pair of
    braces. *)
Theorem insertion_replaces_selection definePropertyThrows text tagName
    startPos endPos currentValue :
  (0 <= startPos <= endPos)%Z ->
  (endPos <= Z.of_nat (length currentValue))%Z ->
  exists newValue newCursorPos,
    insertIntoInputElement definePropertyThrows text tagName startPos endPos
      currentValue
    = ([SetValue newValue; SetSelectionRange newCursorPos newCursorPos]
       ++ triggerInputEvents definePropertyThrows
       ++ [LogDebug (js "Inserted text into " ++ tagName ++ js ":")],
       true)
    /\ newValue = take (Z.to_nat startPos) currentValue ++ text
                  ++ drop (Z.to_nat endPos) currentValue
    /\ Z.of_nat (length newValue)
       = (Z.of_nat (length currentValue) - (endPos - startPos)
          + Z.of_nat (length text))%Z
    /\ (startPos <= newCursorPos <= startPos + Z.of_nat (length text))%Z
    /\ (includes text (js "{}") = false ->
        newCursorPos = (startPos + Z.of_nat (length text))%Z).
Proof.
  intros Hs He. unfold insertIntoInputElement. eexists _, _.
  split; [reflexivity|].
  assert (Ev : substring currentValue 0 startPos ++ text
               ++ substringFrom currentValue endPos
               = take (Z.to_nat startPos) currentValue ++ text
                 ++ drop (Z.to_nat endPos) currentValue).
  { unfold substring, substringFrom, clampIndex. cbn [Z.to_nat].
    rewrite !Nat.min_0_l, Nat.max_0_l, Nat.sub_0_r. cbn [drop].
    rewrite (Nat.min_l (Z.to_nat startPos)) by lia.
    by rewrite (Nat.min_l (Z.to_nat endPos)) by lia. }
  split; [exact Ev|]. split.
  - rewrite Ev, !length_app, length_take, length_drop. lia.
  - destruct (calculateCursorOffset_cases text) as [[Hi ->]|[Hi ->]].
    + split; [lia | done].
    + destruct (first_braces text _ Hi eq_refl)
        as (before & after & _ & _ & Hk & _).
      split; [lia|]. congruence.
Qed.

End Inserter.

Lemma insertion_replaces_selection_witness :
  exists newValue newCursorPos,
    TextInserter.insertIntoInputElement false (js "\frac{}{}") (js "INPUT")
      2 4 (js "a = bc")
    = ([TextInserter.SetValue newValue;
        TextInserter.SetSelectionRange newCursorPos newCursorPos]
       ++ TextInserter.triggerInputEvents false
       ++ [TextInserter.LogDebug
             (js "Inserted text into " ++ js "INPUT" ++ js ":")],
       true)
    /\ newValue = take (Z.to_nat 2) (js "a = bc") ++ js "\frac{}{}"
                  ++ drop (Z.to_nat 4) (js "a = bc")
    /\ Z.of_nat (length newValue)
       = (Z.of_nat (length (js "a = bc")) - (4 - 2)
          + Z.of_nat (length (js "\frac{}{}")))%Z
    /\ (2 <= newCursorPos <= 2 + Z.of_nat (length (js "\frac{}{}")))%Z
    /\ (includes (js "\frac{}{}") (js "{}") = false ->
        newCursorPos = (2 + Z.of_nat (length (js "\frac{}{}")))%Z).
Proof.
  apply (insertion_replaces_selection false (js "\frac{}{}")
           (js "INPUT") 2 4 (js "a = bc")).
  - lia.
  - cbn. lia.
Defined.

(** ** The logger *)

Lemma log_history now level message lg :
  Logger.maxHistorySize (Logger.log now level message lg).1 = Logger.maxHistorySize lg
  /\ ((length (Logger.logHistory lg) <= Logger.maxHistorySize lg)%nat ->
      (length (Logger.logHistory (Logger.log now level message lg).1)
       <= Logger.maxHistorySize lg)%nat).
Proof.
  unfold Logger.log. destruct (negb _); [done|]. cbn [fst].
  cbn [Logger.maxHistorySize Logger.logHistory]. split; [done|]. intros H.
  destruct (Nat.ltb_spec (Logger.maxHistorySize lg)
              (length (Logger.logHistory lg
                       ++ [Logger.mkEntry now level message]))) as [Hlt|Hge].
  - rewrite length_drop, length_app. cbn [length]. lia.
  - done.
Qed.

(** X25.  The history of the logger never outgrows its bound: if it
    holds at most [maxHistorySize] entries, it does so after any calls,
    and the bound stays the same. *)
Theorem history_is_bounded calls lg :
  (length (Logger.logHistory lg) <= Logger.maxHistorySize lg)%nat ->
  let lg' := foldl (fun s c => Logger.call c s) lg calls in
  (length (Logger.logHistory lg') <= Logger.maxHistorySize lg')%nat
  /\ Logger.maxHistorySize lg' = Logger.maxHistorySize lg.
Proof.
  revert lg. induction calls as [|c calls IH]; intros lg H; [done|].
  cbn [foldl].
  assert (Hc : (length (Logger.logHistory (Logger.call c lg))
                <= Logger.maxHistorySize (Logger.call c lg))%nat
               /\ Logger.maxHistorySize (Logger.call c lg)
                  = Logger.maxHistorySize lg).
  { assert (Hlog : forall now level m,
              (length (Logger.logHistory (Logger.log now level m lg).1)
               <= Logger.maxHistorySize (Logger.log now level m lg).1)%nat
              /\ Logger.maxHistorySize (Logger.log now level m lg).1
                 = Logger.maxHistorySize lg).
    { intros now level m. destruct (log_history now level m lg) as [E Hl].
      rewrite E. by split; [apply Hl|]. }
    destruct c as [now m|now m|now m|now m|e|l|]; cbn [Logger.call];
      unfold Logger.debug, Logger.info, Logger.warn, Logger.error.
    - destruct (Logger.debugMode lg); [apply Hlog | done].
    - apply Hlog.
    - apply Hlog.
    - apply Hlog.
    - done.
    - done.
    - cbn. split; [lia | done]. }
  destruct Hc as [Hc Hm]. destruct (IH _ Hc) as [H1 H2].
  split; [done|]. by rewrite H2.
Qed.

Lemma history_is_bounded_witness :
  let lg' := foldl (fun s c => Logger.call c s) Logger.new
               [Logger.CallInfo (js "t1") (js "one");
                Logger.CallSetLogLevel (js "debug");
                Logger.CallError (js "t2") (js "two")] in
  (length (Logger.logHistory lg') <= Logger.maxHistorySize lg')%nat
  /\ Logger.maxHistorySize lg' = Logger.maxHistorySize Logger.new.
Proof.
  apply (history_is_bounded
           [Logger.CallInfo (js "t1") (js "one");
            Logger.CallSetLogLevel (js "debug");
            Logger.CallError (js "t2") (js "two")] Logger.new).
  cbn. lia.
Defined.

Lemma shouldLog_debug lg :
  Logger.shouldLog lg (js "debug") = true
  <-> Logger.logLevel lg ∉ [js "info"; js "warn"; js "error"].
Proof.
  unfold Logger.shouldLog, Logger.levels. cbn [Logger.arrayIndexOf].
  change (str_eqb (js "debug") (js "debug")) with true. cbv iota.
  rewrite !not_elem_of_cons.
  destruct (str_eqb (js "debug") (Logger.logLevel lg)) eqn:E0.
  { apply str_eqb_eq in E0. rewrite <- E0.
    split; [intros _|done].
    repeat split; (discriminate || apply not_elem_of_nil). }
  destruct (str_eqb (js "info") (Logger.logLevel lg)) eqn:E1.
  { apply str_eqb_eq in E1. split; [done|]. by intros [? _]. }
  destruct (str_eqb (js "warn") (Logger.logLevel lg)) eqn:E2.
  { apply str_eqb_eq in E2. split; [done|]. by intros (_ & ? & _). }
  destruct (str_eqb (js "error") (Logger.logLevel lg)) eqn:E3.
  { apply str_eqb_eq in E3. split; [done|]. by intros (_ & _ & ? & _). }
  apply str_eqb_neq in E1, E2, E3. split; [intros _|done].
  repeat split; (congruence || apply not_elem_of_nil).
Qed.

Lemma shouldLog_error lg : Logger.shouldLog lg (js "error") = true.
Proof.
  unfold Logger.shouldLog, Logger.levels. cbn [Logger.arrayIndexOf].
  change (str_eqb (js "debug") (js "error")) with false.
  change (str_eqb (js "info") (js "error")) with false.
  change (str_eqb (js "warn") (js "error")) with false.
  change (str_eqb (js "error") (js "error")) with true. cbv iota.
  destruct (str_eqb (js "debug") _); [done|].
  destruct (str_eqb (js "info") _); [done|].
  destruct (str_eqb (js "warn") _); [done|].
  by destruct (str_eqb (js "error") _).
Qed.

(** X26.  [debug] reaches the console if and only if the debug mode
    is on and the level is none of [info], [warn] and [error];
    otherwise it does nothing at all.  [error] always reaches the
    console, and its entry is the newest of the history. *)
Theorem debug_needs_mode_and_level now message lg :
  ((Logger.debug now message lg).2 <> []
   <-> Logger.debugMode lg = true
       /\ Logger.logLevel lg ∉ [js "info"; js "warn"; js "error"])
  /\ ((Logger.debug now message lg).2 = [] ->
      Logger.debug now message lg = (lg, []))
  /\ (Logger.error now message lg).2
     = [Logger.mkConsole (js "error") (js "[LyX Hotkey] " ++ now) message]
  /\ ((0 < Logger.maxHistorySize lg)%nat ->
      last (Logger.logHistory (Logger.error now message lg).1)
      = Some (Logger.mkEntry now (js "error") message)).
Proof.
  pose proof (shouldLog_debug lg) as Hd.
  pose proof (shouldLog_error lg) as He.
  unfold Logger.debug, Logger.error, Logger.log. rewrite He. cbn [negb].
  split; [|split; [|split; [done|]]].
  - destruct (Logger.debugMode lg); [|cbn; split; [done | by intros [? _]]].
    destruct (Logger.shouldLog lg (js "debug")) eqn:Es; cbn [negb snd].
    + split; [intros _|done]. split; [done | by apply Hd].
    + split; [done|]. intros [_ H%Hd]. congruence.
  - destruct (Logger.debugMode lg); [|done].
    by destruct (Logger.shouldLog lg (js "debug")).
  - intros Hmax. cbn [fst Logger.logHistory].
    destruct (Nat.ltb_spec (Logger.maxHistorySize lg)
                (length (Logger.logHistory lg
                         ++ [Logger.mkEntry now (js "error") message])))
      as [Hlt|Hge].
    + rewrite length_app in Hlt. cbn [length] in Hlt.
      destruct (Logger.logHistory lg) as [|e h]; [cbn [length] in Hlt; lia|].
      cbn [app drop]. rewrite drop_0. by rewrite last_snoc.
    + by rewrite last_snoc.
Qed.

(** ** Symbols *)

Lemma symbolMap_backslash s u :
  map_get s symbolMap = Some u -> head s = Some 92.
Proof.
  intros H%map_get_Some_key.
  assert (Hall : Forall (fun k => head k = Some 92) (map_keys symbolMap))
    by (vm_compute; repeat constructor).
  rewrite Forall_forall in Hall. by apply Hall.
Qed.

Lemma objectPrototypeNames_letter s :
  s ∈ objectPrototypeNames -> head s <> Some 92.
Proof.
  assert (Hall : Forall (fun k => head k <> Some 92) objectPrototypeNames)
    by (vm_compute; repeat constructor; discriminate).
  rewrite Forall_forall in Hall. apply Hall.
Qed.

(** X27.  A [math-insert] command converts what follows it, trimmed:
    a symbol of the table becomes its Unicode character; a name that
    an object inherits from [Object.prototype] is found by the lookup
    as well, and the text is then the inherited member and not a
    string; any other symbol is inserted as it is written. *)
Theorem math_insert_converts_symbol s :
  parseCommand (js "math-insert " ++ s) = Insert (convertLaTeXSymbol (trim s))
  /\ (forall u, map_get s symbolMap = Some u -> convertLaTeXSymbol s = Str u)
  /\ (forall x, convertLaTeXSymbol s = Inherited x
                <-> x = s /\ s ∈ objectPrototypeNames)
  /\ (s ∉ map_keys symbolMap -> s ∉ objectPrototypeNames ->
      s <> js "\frac" -> s <> js "\sqrt" -> convertLaTeXSymbol s = Str s).
Proof.
  split; [reflexivity|]. unfold convertLaTeXSymbol.
  destruct (str_eqb s (js "\frac")) eqn:E1.
  { apply str_eqb_eq in E1. subst s. split; [done|]. split; [|done].
    intros x. split; [done|]. intros [_ H%objectPrototypeNames_letter]. done. }
  destruct (str_eqb s (js "\sqrt")) eqn:E2.
  { apply str_eqb_eq in E2. subst s. split; [done|]. split; [|done].
    intros x. split; [done|]. intros [_ H%objectPrototypeNames_letter]. done. }
  destruct (map_get s symbolMap) as [u|] eqn:Em.
  { split; [by intros ? [= ->]|]. split.
    - intros x. split; [done|]. intros [_ H%objectPrototypeNames_letter].
      by apply symbolMap_backslash in Em.
    - intros H. apply map_get_None in H. congruence. }
  split; [done|].
  destruct (existsb (str_eqb s) objectPrototypeNames) eqn:Ee.
  - apply existsb_exists in Ee as (y & Hy & <-%str_eqb_eq).
    apply list_elem_of_In in Hy. split; [|done].
    intros x. split; [by intros [= <-] | by intros [-> _]].
  - split; [|done]. intros x. split; [done|]. intros [_ Hin].
    apply not_true_iff_false in Ee. exfalso. apply Ee.
    apply existsb_exists. exists s. split; [by apply list_elem_of_In|].
    apply str_eqb_refl.
Qed.

(** ** The timeout *)

Section Timeout.

Variable toLowerCase : jsstring -> jsstring.

(** X28.  The timeout callback runs only while a sequence is pending,
    and it is the one callback whose handle the manager holds: it logs
    the pending tokens and discards them, leaves the manager idle with
    its table and its enabled flag as they were, and cannot run a
    second time. *)
Theorem timeout_discards_pending_sequence id p p' fx :
  reachable toLowerCase p ->
  timeoutFires id p = Some (p', fx) ->
  timeoutId (this p) = Some id
  /\ currentSequence (this p) <> []
  /\ fx = [Log (mkLog LDebug
                  (js "Sequence timeout after "
                   ++ numberText (sequenceTimeout (this p)) ++ js "ms: "
                   ++ join [SPACE] (currentSequence (this p))));
           Log (mkLog LDebug (js "Sequence reset"))]
  /\ Idle p'
  /\ bindings (this p') = bindings (this p)
  /\ enabled (this p') = enabled (this p)
  /\ timeoutFires id p' = None.
Proof.
  intros Hp%reachable_correspondence Hfire.
  assert (Hidle : Idle p') by (by eapply timeoutFires_Idle).
  unfold timeoutFires in Hfire.
  destruct (existsb _ (timers p)) eqn:Ex; [|done].
  apply existsb_exists in Ex as (t & Ht & Hid%Pos.eqb_eq).
  destruct Hp as [(_ & _ & Hnil)|(Hne & id0 & d & Hheld & Htimers)];
    [by rewrite Hnil in Ht|].
  rewrite Htimers in Ht. destruct Ht as [<-|[]]. cbn [fst] in Hid. subst id0.
  injection Hfire as <- <-.
  split; [done|]. split; [done|]. split; [done|]. split; [done|].
  split; [exact (resetSequence_bindings (clearTimeout id p))|]. split.
  - unfold resetSequence, clearSequenceTimeout, set_this. cbn.
    rewrite Hheld. done.
  - destruct Hidle as (_ & _ & Hnil). unfold timeoutFires.
    cbn [fst] in Hnil. by rewrite Hnil.
Qed.

End Timeout.

Lemma timeout_discards_pending_sequence_witness :
  timeoutId (this pendingPage) = Some 1%positive
  /\ currentSequence (this pendingPage) <> []
  /\ [Log (mkLog LDebug (js "Sequence timeout after 1500ms: Alt+m"));
      Log (mkLog LDebug (js "Sequence reset"))]
     = [Log (mkLog LDebug
                  (js "Sequence timeout after "
                   ++ numberText (sequenceTimeout (this pendingPage))
                   ++ js "ms: "
                   ++ join [SPACE] (currentSequence (this pendingPage))));
        Log (mkLog LDebug (js "Sequence reset"))]
  /\ Idle (resetSequence (clearTimeout 1 pendingPage)).1
  /\ bindings (this (resetSequence (clearTimeout 1 pendingPage)).1)
     = bindings (this pendingPage)
  /\ enabled (this (resetSequence (clearTimeout 1 pendingPage)).1)
     = enabled (this pendingPage)
  /\ timeoutFires 1 (resetSequence (clearTimeout 1 pendingPage)).1 = None.
Proof.
  apply (timeout_discards_pending_sequence asciiLowerCase 1 pendingPage
           (resetSequence (clearTimeout 1 pendingPage)).1
           [Log (mkLog LDebug (js "Sequence timeout after 1500ms: Alt+m"));
            Log (mkLog LDebug (js "Sequence reset"))]).
  - apply pendingPage_reachable.
  - reflexivity.
Defined.
